(** * Navigation guidance engine of router_optimizer

    A shallow embedding of [src/utils/navigation-helpers.ts] (the geo-math
    helpers and the instruction generator) and of the navigation context
    provider that follows it in the same file (the progress tracker and
    the alerting policy), with the properties of the specification that
    were checked against them.

    Numbers.  A JavaScript number is modelled by a real number: rounding
    of IEEE doubles, signed zeros and overflow are outside the model.
    Where the code can produce [NaN] or an infinity from data it does not
    control (parsing the route's strings, dividing by the parsed total)
    the value is an [xnum], with the IEEE cases written out. *)

From Stdlib Require Import Reals Lra Lia ZArith List String Ascii Bool.
From Stdlib Require Import DecimalString DecimalPos FinFun.
Import ListNotations.

Local Open Scope R_scope.

(** ** JavaScript numeric primitives *)

Module Js.

(** [Math.round x]: the integer nearest to [x], ties towards +infinity. *)
Definition round (x : R) : Z := Zfloor (x + / 2).

(** Truncation towards zero, as the quotient of [%] does. *)
Definition trunc (x : R) : Z :=
  if Rle_dec 0 x then Zfloor x else Zceil x.

(** [x % y] on numbers: the remainder has the sign of the dividend. *)
Definition fmod (x y : R) : R := x - y * IZR (trunc (x / y)).

(** [Math.atan2 y x], by quadrant. *)
Definition atan2 (y x : R) : R :=
  if Rlt_dec 0 x then atan (y / x)
  else if Rlt_dec x 0 then
    (if Rle_dec 0 y then atan (y / x) + PI else atan (y / x) - PI)
  else if Rlt_dec 0 y then PI / 2
  else if Rlt_dec y 0 then - (PI / 2)
  else 0.

(** The comparisons [<] and [<=] as booleans, for compound conditions. *)
Definition ltb (x y : R) : bool := if Rlt_dec x y then true else false.
Definition leb (x y : R) : bool := if Rle_dec x y then true else false.

(** [===] on numbers. *)
Definition eqb (x y : R) : bool := if Req_dec_T x y then true else false.

(** [Math.abs]. *)
Definition abs (x : R) : R := Rabs x.

(** Decimal digits of an integer, as [String(n)] prints an integer-valued
    number below 1e21. *)
Definition string_of_Z (n : Z) : string := NilZero.string_of_int (Z.to_int n).

(** [x.toFixed(1)]: sign, then the integer [n] nearest to [10 |x|] (the
    larger one on a tie) printed with one digit after the point. *)
Definition toFixed1 (x : R) : string :=
  let n := Zfloor (Rabs x * 10 + / 2) in
  ((if Rlt_dec x 0 then "-" else "") ++
   string_of_Z (n / 10) ++ "." ++ string_of_Z (n mod 10))%string.

End Js.

(** ** Geo-math utilities *)

(** A coordinate is the pair [[longitude, latitude]], in degrees. *)
Definition Coord : Type := R * R.

Definition directions : list string :=
  ["north"; "northeast"; "east"; "southeast";
   "south"; "southwest"; "west"; "northwest"]%string.

(** [directions[index]]: [None] is JavaScript's [undefined], which a
    negative or too large index gives. *)
Definition lookup_index {A : Type} (l : list A) (index : Z) : option A :=
  if (index <? 0)%Z then None else nth_error l (Z.to_nat index).

Definition direction_index (bearing : R) : Z :=
  Z.rem (Js.round (bearing / 45)) 8.

Definition getDirectionFromBearing (bearing : R) : option string :=
  lookup_index directions (direction_index bearing).

Definition calculateBearing (point1 point2 : Coord) : R :=
  let lng1 := fst point1 * PI / 180 in
  let lat1 := snd point1 * PI / 180 in
  let lng2 := fst point2 * PI / 180 in
  let lat2 := snd point2 * PI / 180 in
  let y := sin (lng2 - lng1) * cos lat2 in
  let x := cos lat1 * sin lat2 - sin lat1 * cos lat2 * cos (lng2 - lng1) in
  let bearing := Js.atan2 y x * 180 / PI in
  Js.fmod (bearing + 360) 360.

Definition calculateDistance (point1 point2 : Coord) : R :=
  let lng1 := fst point1 in
  let lat1 := snd point1 in
  let lng2 := fst point2 in
  let lat2 := snd point2 in
  let rlat1 := lat1 * PI / 180 in
  let rlng1 := lng1 * PI / 180 in
  let rlat2 := lat2 * PI / 180 in
  let rlng2 := lng2 * PI / 180 in
  let dlng := rlng2 - rlng1 in
  let dlat := rlat2 - rlat1 in
  let a := (sin (dlat / 2)) ^ 2 + cos rlat1 * cos rlat2 * (sin (dlng / 2)) ^ 2 in
  let c := 2 * Js.atan2 (sqrt a) (sqrt (1 - a)) in
  let R := 3956 in
  R * c.

(** ** Instruction generator *)

(** The maneuver classification of a step.  The source stores it as a
    string; [maneuver_string] gives that string. *)
Inductive Maneuver : Type :=
  | Straight | Right | Left | SlightRight | SlightLeft
  | SharpRight | SharpLeft | Uturn | Arrive.

Definition maneuver_string (m : Maneuver) : string :=
  match m with
  | Straight => "straight"
  | Right => "right"
  | Left => "left"
  | SlightRight => "slight-right"
  | SlightLeft => "slight-left"
  | SharpRight => "sharp-right"
  | SharpLeft => "sharp-left"
  | Uturn => "uturn"
  | Arrive => "arrive"
  end.

Definition Maneuver_eqb (a b : Maneuver) : bool :=
  String.eqb (maneuver_string a) (maneuver_string b).

Record Step : Type := mkStep {
  instruction : string;
  distance : string;
  coordinates : Coord;
  bearing : R;
  maneuver : Maneuver
}.

Definition generateTurnInstruction
    (prevBearing : option R) (currentBearing distance : R) : string :=
  match prevBearing with
  | None =>
      let direction :=
        match getDirectionFromBearing currentBearing with
        | Some d => d
        | None => "undefined"%string
        end in
      ("Head " ++ direction ++ " for " ++ Js.toFixed1 distance ++ " miles")%string
  | Some prevBearing =>
      let angle := currentBearing - prevBearing in
      let angle := if Rlt_dec angle (-180) then angle + 360 else angle in
      let angle := if Rlt_dec 180 angle then angle - 360 else angle in
      if Rlt_dec (Js.abs angle) 20 then
        ("Continue straight for " ++ Js.toFixed1 distance ++ " miles")%string
      else
        let turnDirection :=
          (if Js.leb 20 angle && Js.ltb angle 60 then "slight right"
           else if Js.leb 60 angle && Js.ltb angle 120 then "right"
           else if Js.leb 120 angle then "sharp right"
           else if Js.leb angle (-20) && Js.ltb (-60) angle then "slight left"
           else if Js.leb angle (-60) && Js.ltb (-120) angle then "left"
           else "sharp left")%string in
        ("Turn " ++ turnDirection ++ " and continue for " ++
         Js.toFixed1 distance ++ " miles")%string
  end.

(** [((angle + 180) % 360) - 180], the normalisation the maneuver block
    applies to the difference of two bearings. *)
Definition normalizedAngle (prevBearing bearing : R) : R :=
  let angle := bearing - prevBearing in
  Js.fmod (angle + 180) 360 - 180.

(** The [if]/[else if] chain on the normalised angle, in source order. *)
Definition maneuverOfAngle (normalizedAngle : R) : Maneuver :=
  if Rlt_dec 30 normalizedAngle then Right
  else if Rlt_dec normalizedAngle (-30) then Left
  else if Rlt_dec 10 normalizedAngle then SlightRight
  else if Rlt_dec normalizedAngle (-10) then SlightLeft
  else if Rlt_dec 100 normalizedAngle then SharpRight
  else if Rlt_dec normalizedAngle (-100) then SharpLeft
  else if Rlt_dec 170 (Js.abs normalizedAngle) then Uturn
  else Straight.

(** The maneuver of a segment: "straight" for the first one, otherwise
    classified from the previous segment's bearing. *)
Definition maneuverOf (prevBearing : option R) (bearing : R) : Maneuver :=
  match prevBearing with
  | None => Straight
  | Some prevBearing => maneuverOfAngle (normalizedAngle prevBearing bearing)
  end.

(** The step pushed by one iteration of the loop, for the segment from
    [current] to [next]. *)
Definition segmentStep (prevBearing : option R) (current next : Coord) : Step :=
  let bearing := calculateBearing current next in
  let distance := calculateDistance current next in
  let distanceStr := (Js.toFixed1 distance ++ " miles")%string in
  let maneuver := maneuverOf prevBearing bearing in
  let instruction := generateTurnInstruction prevBearing bearing distance in
  mkStep instruction distanceStr current bearing maneuver.

(** The [for] loop over [i = 0 .. path.length - 2]: the steps pushed from
    the current point on, and the value of [prevBearing] at loop exit. *)
Fixpoint segmentSteps (prevBearing : option R) (path : list Coord)
    : list Step * option R :=
  match path with
  | [] => ([], prevBearing)
  | current :: rest =>
      match rest with
      | [] => ([], prevBearing)
      | next :: _ =>
          let step := segmentStep prevBearing current next in
          let '(steps, lastBearing) := segmentSteps (Some (bearing step)) rest in
          (step :: steps, lastBearing)
      end
  end.

(** The synthetic arrival step; [prevBearing || 0] is [0] when no bearing
    was computed (and when the bearing is [0]). *)
Definition arrivalStep (lastPoint : Coord) (prevBearing : option R) : Step :=
  mkStep "Arrive at your destination" "0 miles" lastPoint
         (match prevBearing with Some b => b | None => 0 end)
         Arrive.

(** [path[path.length - 1]] is read only when the path has two points at
    least; the default of [last] is never used. *)
Definition generateDetailedNavigationSteps (path : list Coord) : list Step :=
  if (List.length path <? 2)%nat then []
  else
    let '(steps, prevBearing) := segmentSteps None path in
    steps ++ [arrivalStep (last path (0, 0)) prevBearing].

(** ** Numbers that may be NaN or infinite *)

(** The route's totals are parsed from strings the tracker does not
    control, and the remaining distance is divided by the parsed total:
    these values can be [NaN] or infinite.  The operations follow IEEE
    754 as [Math.max], [Math.min], [Math.round] and the arithmetic
    operators apply it (the sign of zero is not modelled: a zero divisor
    counts as [+0]). *)
Inductive xnum : Type :=
  | XNaN
  | XInf (positive : bool)
  | XFin (r : R).

Definition xdiv (a b : xnum) : xnum :=
  match a, b with
  | XNaN, _ | _, XNaN => XNaN
  | XInf _, XInf _ => XNaN
  | XInf s, XFin y => XInf (if Rlt_dec y 0 then negb s else s)
  | XFin _, XInf _ => XFin 0
  | XFin x, XFin y =>
      if Req_dec_T y 0 then
        (if Rlt_dec 0 x then XInf true
         else if Rlt_dec x 0 then XInf false
         else XNaN)
      else XFin (x / y)
  end.

Definition xmul (a b : xnum) : xnum :=
  match a, b with
  | XNaN, _ | _, XNaN => XNaN
  | XInf s, XInf t => XInf (Bool.eqb s t)
  | XInf s, XFin y | XFin y, XInf s =>
      if Req_dec_T y 0 then XNaN
      else XInf (if Rlt_dec y 0 then negb s else s)
  | XFin x, XFin y => XFin (x * y)
  end.

Definition xsub (a b : xnum) : xnum :=
  match a, b with
  | XNaN, _ | _, XNaN => XNaN
  | XInf s, XInf t => if Bool.eqb s t then XNaN else XInf s
  | XInf s, XFin _ => XInf s
  | XFin _, XInf t => XInf (negb t)
  | XFin x, XFin y => XFin (x - y)
  end.

Definition xmax (a b : xnum) : xnum :=
  match a, b with
  | XNaN, _ | _, XNaN => XNaN
  | XInf true, _ | _, XInf true => XInf true
  | XInf false, x | x, XInf false => x
  | XFin x, XFin y => XFin (Rmax x y)
  end.

Definition xmin (a b : xnum) : xnum :=
  match a, b with
  | XNaN, _ | _, XNaN => XNaN
  | XInf false, _ | _, XInf false => XInf false
  | XInf true, x | x, XInf true => x
  | XFin x, XFin y => XFin (Rmin x y)
  end.

Definition xround (a : xnum) : xnum :=
  match a with
  | XFin x => XFin (IZR (Js.round x))
  | _ => a
  end.

(** [String(x)] for the values the tracker prints, which are NaN,
    infinite or integers. *)
Definition xstring (a : xnum) : string :=
  match a with
  | XNaN => "NaN"
  | XInf true => "Infinity"
  | XInf false => "-Infinity"
  | XFin x => Js.string_of_Z (Zfloor x)
  end.

(** ** Strings: [replace], [parseFloat], [parseInt] *)

Fixpoint string_drop (n : nat) (s : string) : string :=
  match n, s with
  | O, _ => s
  | S n', String _ s' => string_drop n' s'
  | S _, EmptyString => EmptyString
  end.

(** [s.replace(pat, "")]: the first occurrence of [pat] is removed. *)
Fixpoint replace_first (pat s : string) : string :=
  if String.prefix pat s then string_drop (String.length pat) s
  else
    match s with
    | EmptyString => EmptyString
    | String c s' => String c (replace_first pat s')
    end.

Definition is_digit (c : ascii) : bool :=
  (48 <=? nat_of_ascii c)%nat && (nat_of_ascii c <=? 57)%nat.

Definition digit_value (c : ascii) : Z := Z.of_nat (nat_of_ascii c - 48).

Definition is_space (c : ascii) : bool :=
  let n := nat_of_ascii c in
  (n =? 32)%nat || ((9 <=? n)%nat && (n <=? 13)%nat).

Fixpoint skip_spaces (s : string) : string :=
  match s with
  | String c s' => if is_space c then skip_spaces s' else s
  | EmptyString => s
  end.

(** Reads a run of decimal digits: the value accumulated in [acc], the
    number of digits read, and the rest of the string. *)
Fixpoint read_digits (acc : Z) (count : nat) (s : string) : Z * nat * string :=
  match s with
  | String c s' =>
      if is_digit c then read_digits (acc * 10 + digit_value c) (S count) s'
      else (acc, count, s)
  | EmptyString => (acc, count, s)
  end.

Definition read_sign (s : string) : bool * string :=
  match s with
  | String "-" s' => (true, s')
  | String "+" s' => (false, s')
  | _ => (false, s)
  end.

(** A decimal literal [m / 10^k], negated when [neg]. *)
Definition decimal_value (neg : bool) (m : Z) (k : nat) : R :=
  let v := IZR m / 10 ^ k in
  if neg then - v else v.

(** The decimal prefix [parseFloat] reads (sign, digits, point, digits),
    as sign, mantissa and number of decimals; [None] when there is no
    digit.  The exponent part and the literal "Infinity", which
    [Number.parseFloat] also accepts, are not read by this model. *)
Definition parseDecimal (s : string) : option (bool * Z * nat) :=
  let '(neg, s1) := read_sign (skip_spaces s) in
  let '(ip, ni, s2) := read_digits 0 0 s1 in
  match s2 with
  | String "." s3 =>
      let '(m, nf, _) := read_digits ip 0 s3 in
      if (ni + nf =? 0)%nat then None else Some (neg, m, nf)
  | _ => if (ni =? 0)%nat then None else Some (neg, ip, O)
  end.

(** [Number.parseFloat]; [XNaN] when no number can be read. *)
Definition parseFloat (s : string) : xnum :=
  match parseDecimal s with
  | Some (neg, m, k) => XFin (decimal_value neg m k)
  | None => XNaN
  end.

(** The integer prefix [parseInt] reads in radix 10 (the "0x" prefix is
    not read by this model). *)
Definition parseInteger (s : string) : option (bool * Z) :=
  let '(neg, s1) := read_sign (skip_spaces s) in
  let '(ip, ni, _) := read_digits 0 0 s1 in
  if (ni =? 0)%nat then None else Some (neg, ip).

Definition parseInt (s : string) : xnum :=
  match parseInteger s with
  | Some (neg, m) => XFin (decimal_value neg m 0)
  | None => XNaN
  end.

(** ** Session data *)

Record Location : Type := mkLocation {
  l_name : string;
  l_coordinates : Coord
}.

Record Route : Type := mkRoute {
  r_id : Z;
  r_name : string;
  r_duration : string;
  r_distance : string;
  r_trafficLevel : string;
  r_incidents : Z;
  r_path : list Coord
}.

Inductive Frequency : Type := Off | Low | Medium | High.

(** The provider's [useState] cells.  A handler reads them from the
    render it was created in (its closure) and writes them through the
    setters, so every handler below takes the closure [c] it reads from
    apart from the world it writes to. *)
Record Session : Type := mkSession {
  isNavigating : bool;
  activeRoute : option Route;
  origin : option Location;
  destination : option Location;
  currentPosition : option Coord;
  currentStep : option Step;
  nextStep : option Step;
  remainingDistance : string;
  remainingTime : string;
  progress : xnum;
  voiceEnabled : bool;
  is3DMode : bool;
  distanceAlertFrequency : Frequency
}.

Definition setIsNavigating (v : bool) (s : Session) : Session :=
  mkSession v (activeRoute s) (origin s) (destination s) (currentPosition s)
    (currentStep s) (nextStep s) (remainingDistance s) (remainingTime s)
    (progress s) (voiceEnabled s) (is3DMode s) (distanceAlertFrequency s).

Definition setActiveRoute (v : option Route) (s : Session) : Session :=
  mkSession (isNavigating s) v (origin s) (destination s) (currentPosition s)
    (currentStep s) (nextStep s) (remainingDistance s) (remainingTime s)
    (progress s) (voiceEnabled s) (is3DMode s) (distanceAlertFrequency s).

Definition setOrigin (v : option Location) (s : Session) : Session :=
  mkSession (isNavigating s) (activeRoute s) v (destination s) (currentPosition s)
    (currentStep s) (nextStep s) (remainingDistance s) (remainingTime s)
    (progress s) (voiceEnabled s) (is3DMode s) (distanceAlertFrequency s).

Definition setDestination (v : option Location) (s : Session) : Session :=
  mkSession (isNavigating s) (activeRoute s) (origin s) v (currentPosition s)
    (currentStep s) (nextStep s) (remainingDistance s) (remainingTime s)
    (progress s) (voiceEnabled s) (is3DMode s) (distanceAlertFrequency s).

Definition setCurrentPosition (v : option Coord) (s : Session) : Session :=
  mkSession (isNavigating s) (activeRoute s) (origin s) (destination s) v
    (currentStep s) (nextStep s) (remainingDistance s) (remainingTime s)
    (progress s) (voiceEnabled s) (is3DMode s) (distanceAlertFrequency s).

Definition setCurrentStep (v : option Step) (s : Session) : Session :=
  mkSession (isNavigating s) (activeRoute s) (origin s) (destination s)
    (currentPosition s) v (nextStep s) (remainingDistance s) (remainingTime s)
    (progress s) (voiceEnabled s) (is3DMode s) (distanceAlertFrequency s).

Definition setNextStep (v : option Step) (s : Session) : Session :=
  mkSession (isNavigating s) (activeRoute s) (origin s) (destination s)
    (currentPosition s) (currentStep s) v (remainingDistance s) (remainingTime s)
    (progress s) (voiceEnabled s) (is3DMode s) (distanceAlertFrequency s).

Definition setRemainingDistance (v : string) (s : Session) : Session :=
  mkSession (isNavigating s) (activeRoute s) (origin s) (destination s)
    (currentPosition s) (currentStep s) (nextStep s) v (remainingTime s)
    (progress s) (voiceEnabled s) (is3DMode s) (distanceAlertFrequency s).

Definition setRemainingTime (v : string) (s : Session) : Session :=
  mkSession (isNavigating s) (activeRoute s) (origin s) (destination s)
    (currentPosition s) (currentStep s) (nextStep s) (remainingDistance s) v
    (progress s) (voiceEnabled s) (is3DMode s) (distanceAlertFrequency s).

Definition setProgress (v : xnum) (s : Session) : Session :=
  mkSession (isNavigating s) (activeRoute s) (origin s) (destination s)
    (currentPosition s) (currentStep s) (nextStep s) (remainingDistance s)
    (remainingTime s) v (voiceEnabled s) (is3DMode s) (distanceAlertFrequency s).

Definition setVoiceEnabled (v : bool) (s : Session) : Session :=
  mkSession (isNavigating s) (activeRoute s) (origin s) (destination s)
    (currentPosition s) (currentStep s) (nextStep s) (remainingDistance s)
    (remainingTime s) (progress s) v (is3DMode s) (distanceAlertFrequency s).

Definition setIs3DMode (v : bool) (s : Session) : Session :=
  mkSession (isNavigating s) (activeRoute s) (origin s) (destination s)
    (currentPosition s) (currentStep s) (nextStep s) (remainingDistance s)
    (remainingTime s) (progress s) (voiceEnabled s) v (distanceAlertFrequency s).

Definition setDistanceAlertFrequency (v : Frequency) (s : Session) : Session :=
  mkSession (isNavigating s) (activeRoute s) (origin s) (destination s)
    (currentPosition s) (currentStep s) (nextStep s) (remainingDistance s)
    (remainingTime s) (progress s) (voiceEnabled s) (is3DMode s) v.

(** The values of the [useState] initialisers. *)
Definition initialSession : Session :=
  mkSession false None None None None None None "" "" (XFin 0) true false Medium.

(** ** The world around the session: refs, timers, effects *)

(** The call site of [speak], kept with the message. *)
Inductive SpeakSite : Type :=
  | SayStart | SayStop | SayStep | SayDistance | SayTurn
  | SayArrived | SayOffRoute | SayRecalculated | SayVoice.

(** What the provider sends to its collaborators.  Event payloads and the
    "Recalculate" button of the off-route toast are left out. *)
Inductive Output : Type :=
  | Speak (site : SpeakSite) (message : string)
  | Toast (title description : string)
  | Notification (type title message : string)
  | Dispatch (event : string)
  | ClearWatch (id : Z).

(** What a pending [setTimeout] runs when it fires. *)
Inductive TimerAction : Type :=
  | TStop                                         (* stopNavigation() *)
  | TRecalculate                                  (* recalculateRoute() *)
  | TResume (newOrigin destination : Location).   (* rest of recalculateRoute after its await *)

(** A pending timer: when it is due, and the render whose functions its
    callback closed over. *)
Record Timer : Type := mkTimer {
  due : Z;
  closure : Session;
  action : TimerAction
}.

(** The live React state, the three refs, the geolocation watch, the
    pending timers and the log of effects (newest first, each with the
    time of the handler that produced it). *)
Record World : Type := mkWorld {
  state : Session;
  watchId : option Z;
  watchClosure : option Session;
  lastVoiceAlert : string;
  lastDistanceAlert : Z;
  geolocation : bool;
  watchCounter : Z;
  timers : list Timer;
  outputs : list (Z * Output)
}.

Definition initialWorld (geo : bool) : World :=
  mkWorld initialSession None None "" 0 geo 1 [] [].

(** A React setter applied to the live state. *)
Definition upd (f : Session -> Session) (w : World) : World :=
  mkWorld (f (state w)) (watchId w) (watchClosure w) (lastVoiceAlert w)
    (lastDistanceAlert w) (geolocation w) (watchCounter w) (timers w) (outputs w).

Definition setWatch (id : option Z) (cb : option Session) (w : World) : World :=
  mkWorld (state w) id cb (lastVoiceAlert w)
    (lastDistanceAlert w) (geolocation w) (watchCounter w) (timers w) (outputs w).

Definition setWatchCounter (n : Z) (w : World) : World :=
  mkWorld (state w) (watchId w) (watchClosure w) (lastVoiceAlert w)
    (lastDistanceAlert w) (geolocation w) n (timers w) (outputs w).

Definition setLastVoiceAlert (key : string) (w : World) : World :=
  mkWorld (state w) (watchId w) (watchClosure w) key
    (lastDistanceAlert w) (geolocation w) (watchCounter w) (timers w) (outputs w).

Definition setLastDistanceAlert (t : Z) (w : World) : World :=
  mkWorld (state w) (watchId w) (watchClosure w) (lastVoiceAlert w)
    t (geolocation w) (watchCounter w) (timers w) (outputs w).

Definition setTimers (ts : list Timer) (w : World) : World :=
  mkWorld (state w) (watchId w) (watchClosure w) (lastVoiceAlert w)
    (lastDistanceAlert w) (geolocation w) (watchCounter w) ts (outputs w).

Definition emit (now : Z) (o : Output) (w : World) : World :=
  mkWorld (state w) (watchId w) (watchClosure w) (lastVoiceAlert w)
    (lastDistanceAlert w) (geolocation w) (watchCounter w) (timers w)
    ((now, o) :: outputs w).

(** [setTimeout(callback, delay)]: no handle is kept by the source. *)
Definition setTimeout (now delay : Z) (c : Session) (a : TimerAction)
    (w : World) : World :=
  setTimers (timers w ++ [mkTimer (now + delay) c a]) w.

Definition when (b : bool) (f : World -> World) (w : World) : World :=
  if b then f w else w.

Notation "w |> f" := (f w) (at level 45, left associativity, only parsing).

(** ** The navigation provider's functions *)

Definition speak (now : Z) (site : SpeakSite) (message : string) : World -> World :=
  emit now (Speak site message).

Definition toast (now : Z) (title description : string) : World -> World :=
  emit now (Toast title description).

Definition addNotification (now : Z) (type title message : string)
    : World -> World :=
  emit now (Notification type title message).

Definition dispatchEvent (now : Z) (event : string) : World -> World :=
  emit now (Dispatch event).

Definition generateNavigationSteps (path : list Coord) : list Step :=
  map (fun step =>
         mkStep (instruction step) (distance step) (coordinates step)
                (bearing step) (maneuver step))
      (generateDetailedNavigationSteps path).

(** [watchPosition] registers a callback created in render [c] and
    returns a fresh id. *)
Definition startPositionTracking (c : Session) (now : Z) (w : World) : World :=
  if negb (geolocation w) then
    w |> toast now "Error" "Geolocation is not supported by your browser"
  else
    let w := match watchId w with
             | Some id => w |> emit now (ClearWatch id)
             | None => w
             end in
    w |> setWatch (Some (watchCounter w)) (Some c)
      |> setWatchCounter (watchCounter w + 1).

Definition stopNavigation (c : Session) (now : Z) (w : World) : World :=
  let w := match watchId w with
           | Some id => w |> emit now (ClearWatch id) |> setWatch None None
           | None => w
           end in
  w |> upd (setIsNavigating false)
    |> upd (setActiveRoute None)
    |> upd (setCurrentStep None)
    |> upd (setNextStep None)
    |> when (voiceEnabled c) (speak now SayStop "Navigation stopped.")
    |> toast now "Navigation Stopped" "You can start a new route anytime."
    |> addNotification now "info" "Navigation Stopped"
         "You can start a new route anytime."
    |> dispatchEvent now "navigationStopped".

Definition startNavigation (c : Session) (route : Route)
    (originLoc destLoc : Location) (now : Z) (w : World) : World :=
  let w := w |> upd (setActiveRoute (Some route))
             |> upd (setOrigin (Some originLoc))
             |> upd (setDestination (Some destLoc))
             |> upd (setIsNavigating true)
             |> upd (setRemainingDistance (r_distance route))
             |> upd (setRemainingTime (r_duration route))
             |> upd (setProgress (XFin 0)) in
  let steps := generateNavigationSteps (r_path route) in
  let w := match steps with
           | [] => w
           | first :: rest =>
               w |> upd (setCurrentStep (Some first))
                 |> upd (setNextStep (hd_error rest))
           end in
  w |> startPositionTracking c now
    |> when (voiceEnabled c)
         (speak now SayStart
            ("Starting navigation. " ++ r_distance route ++
             " to destination. Estimated arrival time: " ++
             r_duration route ++ "."))
    |> toast now "Navigation Started"
         ("Following " ++ r_name route ++ ". " ++ r_distance route ++
          " to destination.")
    |> addNotification now "info" "Navigation Started"
         ("Following " ++ r_name route ++ ". " ++ r_distance route ++
          " to destination.")
    |> dispatchEvent now "navigationStarted".

(** [distance < minDistance], where [None] is [Number.POSITIVE_INFINITY]. *)
Definition belowMin (distance : R) (minDistance : option R) : bool :=
  match minDistance with
  | None => true
  | Some m => Js.ltb distance m
  end.

(** The loop of [updateNavigationStep], from index [i] on: the minimum
    distance and the first index that attains it. *)
Fixpoint closestPoint (position : Coord) (routePath : list Coord) (i : nat)
    (minDistance : option R) (closestPointIndex : nat) : option R * nat :=
  match routePath with
  | [] => (minDistance, closestPointIndex)
  | point :: rest =>
      let distance := calculateDistance position point in
      if belowMin distance minDistance
      then closestPoint position rest (S i) (Some distance) i
      else closestPoint position rest (S i) minDistance closestPointIndex
  end.

Definition isTurn (m : Maneuver) : bool :=
  negb (Maneuver_eqb m Straight) && negb (Maneuver_eqb m Arrive).

Definition updateNavigationStep (c : Session) (position : Coord) (now : Z)
    (w : World) : World :=
  match activeRoute c, currentStep c with
  | Some route, Some current =>
      let routePath := r_path route in
      let '(_, closestPointIndex) := closestPoint position routePath 0 None 0 in
      let previous :=
        if (0 <? closestPointIndex)%nat
        then nth_error routePath (closestPointIndex - 1) else None in
      match previous with
      | Some previous =>
          if Js.eqb (fst (coordinates current)) (fst previous) &&
             Js.eqb (snd (coordinates current)) (snd previous)
          then
            let remainingSteps :=
              generateNavigationSteps (skipn closestPointIndex routePath) in
            match remainingSteps with
            | [] => w
            | newCurrentStep :: rest =>
                let newNextStep := hd_error rest in
                w |> upd (setCurrentStep (Some newCurrentStep))
                  |> upd (setNextStep newNextStep)
                  |> when (voiceEnabled c &&
                           negb (String.eqb (instruction newCurrentStep)
                                            (instruction current)))
                       (fun w =>
                          w |> (if isTurn (maneuver newCurrentStep)
                                then speak now SayStep
                                       ("In " ++ distance newCurrentStep ++ ", " ++
                                        instruction newCurrentStep)
                                else speak now SayStep (instruction newCurrentStep))
                            |> setLastVoiceAlert (instruction newCurrentStep))
            end
          else w
      | None => w
      end
  | _, _ => w
  end.

Definition nearHalfMile (d : R) : bool :=
  Js.ltb (Js.abs (IZR (Js.round (d * 2)) / 2 - d)) 0.05.

Definition nearWholeMile (d : R) : bool :=
  Js.ltb (Js.abs (IZR (Js.round d) - d)) 0.05.

(** The milestones of the "low" setting, each with the text the template
    literal prints for it. *)
Definition milestones : list (R * string) :=
  [(10, "10"); (5, "5"); (3, "3"); (2, "2"); (1, "1"); (0.5, "0.5"); (0.2, "0.2")]%string.

Fixpoint firstMilestone (d : R) (ms : list (R * string)) : option string :=
  match ms with
  | [] => None
  | (milestone, text) :: rest =>
      if Js.ltb (Js.abs (d - milestone)) 0.05
      then Some (text ++ " " ++ (if Js.eqb milestone 1 then "mile" else "miles") ++
                 " remaining to your destination.")%string
      else firstMilestone d rest
  end.

(** [shouldAnnounce] and [message] of [checkDistanceAnnouncement]:
    [Some message] when an announcement is due for the frequency. *)
Definition distanceAnnouncement (frequency : Frequency) (d : R) : option string :=
  match frequency with
  | High =>
      if nearHalfMile d || (Js.leb d 5 && nearWholeMile d)
      then Some (Js.toFixed1 d ++ " miles remaining to your destination.")%string
      else None
  | Medium =>
      if nearWholeMile d || (Js.leb d 3 && nearHalfMile d)
      then Some (Js.toFixed1 d ++ " miles remaining to your destination.")%string
      else None
  | Low => firstMilestone d milestones
  | Off => None
  end.

Definition isOff (f : Frequency) : bool :=
  match f with Off => true | _ => false end.

Definition checkDistanceAnnouncement (c : Session) (distanceToDestination : R)
    (now : Z) (w : World) : World :=
  if negb (voiceEnabled c) || isOff (distanceAlertFrequency c) then w
  else
    let timeSinceLastAlert := (now - lastDistanceAlert w)%Z in
    if (timeSinceLastAlert <? 30000)%Z then w
    else
      match distanceAnnouncement (distanceAlertFrequency c) distanceToDestination with
      | Some message =>
          w |> speak now SayDistance message
            |> setLastDistanceAlert now
            |> setLastVoiceAlert "distance"
      | None => w
      end.

Definition checkUpcomingTurn (c : Session) (position : Coord) (now : Z)
    (w : World) : World :=
  match currentStep c, nextStep c with
  | Some _, Some next =>
      if negb (voiceEnabled c) || negb (isTurn (maneuver next)) then w
      else
        let distanceToTurn := calculateDistance position (coordinates next) in
        let upcoming := ("upcoming_" ++ maneuver_string (maneuver next))%string in
        let prepare := ("prepare_" ++ maneuver_string (maneuver next))%string in
        if Js.ltb distanceToTurn 0.2 && negb (String.eqb (lastVoiceAlert w) upcoming)
        then w |> speak now SayTurn ("In 0.2 miles, " ++ instruction next)
               |> setLastVoiceAlert upcoming
        else if Js.ltb distanceToTurn 0.5 &&
                negb (String.eqb (lastVoiceAlert w) prepare)
        then w |> speak now SayTurn ("In half a mile, " ++ instruction next)
               |> setLastVoiceAlert prepare
        else w
  | _, _ => w
  end.

(** The loop of [checkIfOffRoute]; [None] is [Number.POSITIVE_INFINITY]. *)
Fixpoint minDistanceTo (position : Coord) (routePath : list Coord)
    (minDistance : option R) : option R :=
  match routePath with
  | [] => minDistance
  | point :: rest =>
      let distance := calculateDistance position point in
      if belowMin distance minDistance
      then minDistanceTo position rest (Some distance)
      else minDistanceTo position rest minDistance
  end.

(** [minDistance > 0.1]. *)
Definition offRoute (position : Coord) (routePath : list Coord) : bool :=
  match minDistanceTo position routePath None with
  | None => true
  | Some m => Js.ltb 0.1 m
  end.

Definition checkIfOffRoute (c : Session) (position : Coord) (now : Z)
    (w : World) : World :=
  match activeRoute c with
  | None => w
  | Some route =>
      if offRoute position (r_path route) then
        w |> when (voiceEnabled c && negb (String.eqb (lastVoiceAlert w) "off-route"))
               (fun w =>
                  w |> speak now SayOffRoute "You appear to be off route. Recalculating."
                    |> setLastVoiceAlert "off-route")
          |> toast now "Off Route" "You appear to be off route. Recalculating..."
          |> addNotification now "warning" "Off Route"
               "You appear to be off route. Recalculating..."
          |> setTimeout now 3000 c TRecalculate
      else w
  end.

Definition updateNavigationProgress (c : Session) (position : Coord) (now : Z)
    (w : World) : World :=
  match activeRoute c, destination c with
  | Some route, Some dest =>
      let totalDistance := parseFloat (replace_first " miles" (r_distance route)) in
      let distanceToDestination := calculateDistance position (l_coordinates dest) in
      let newRemainingDistance :=
        (Js.toFixed1 distanceToDestination ++ " miles")%string in
      let totalTime := parseInt (replace_first " mins" (r_duration route)) in
      let ratio := xdiv (XFin distanceToDestination) totalDistance in
      let newRemainingTime :=
        (xstring (xmax (XFin 1) (xround (xmul totalTime ratio))) ++ " mins")%string in
      let newProgress :=
        xmin (XFin 100) (xmax (XFin 0) (xsub (XFin 100) (xmul ratio (XFin 100)))) in
      w |> upd (setRemainingDistance newRemainingDistance)
        |> upd (setRemainingTime newRemainingTime)
        |> upd (setProgress newProgress)
        |> updateNavigationStep c position now
        |> checkDistanceAnnouncement c distanceToDestination now
        |> checkUpcomingTurn c position now
        |> when (Js.ltb distanceToDestination 0.05)
             (fun w =>
                w |> when (voiceEnabled c &&
                           negb (String.eqb (lastVoiceAlert w) "arrived"))
                       (fun w =>
                          w |> speak now SayArrived
                                 "You have arrived at your destination."
                            |> setLastVoiceAlert "arrived")
                  |> toast now "Arrived!" "You have reached your destination."
                  |> addNotification now "success" "Arrived!"
                       "You have reached your destination."
                  |> setTimeout now 5000 c TStop)
        |> checkIfOffRoute c position now
        |> dispatchEvent now "navigationUpdated"
  | _, _ => w
  end.

(** How a call of the async [recalculateRoute] leaves its promise. *)
Inductive Promise : Type := Pending | Fulfilled | Rejected.

Definition simulateNewRoute (origin destination : Location) (random : Z) : Route :=
  let midLng := fst (l_coordinates origin) +
                (fst (l_coordinates destination) - fst (l_coordinates origin)) * 0.4 in
  let midLat := snd (l_coordinates origin) +
                (snd (l_coordinates destination) - snd (l_coordinates origin)) * 0.4 in
  let distance := calculateDistance (l_coordinates origin) (l_coordinates destination) in
  mkRoute random "Recalculated Route"
    (Js.string_of_Z (Js.round (distance * 2)) ++ " mins")
    (Js.toFixed1 distance ++ " miles")
    "moderate" 0
    [l_coordinates origin; (midLng, midLat); l_coordinates destination].

(** [recalculateRoute] up to its [await]: the guard, then the 1500 ms
    timer the awaited promise waits for.  A guard that fails returns from
    the async function, which fulfils its promise. *)
Definition recalculateRoute (c : Session) (now : Z) (w : World) : World * Promise :=
  match currentPosition c, destination c with
  | Some position, Some dest =>
      let newOrigin := mkLocation "Current Location" position in
      (w |> setTimeout now 1500 c (TResume newOrigin dest), Pending)
  | _, _ => (w, Fulfilled)
  end.

(** [recalculateRoute] after its [await]; [random] is the value of
    [Math.floor(Math.random() * 1000)].  Nothing in the [try] block
    throws in this model, so the [catch] branch, which rejects, is not
    taken. *)
Definition recalculateResume (c : Session) (newOrigin dest : Location)
    (random : Z) (now : Z) (w : World) : World * Promise :=
  let newRoute := simulateNewRoute newOrigin dest random in
  let w := w |> upd (setActiveRoute (Some newRoute))
             |> upd (setOrigin (Some newOrigin)) in
  let steps := generateNavigationSteps (r_path newRoute) in
  let w := match steps with
           | [] => w
           | first :: rest =>
               w |> upd (setCurrentStep (Some first))
                 |> upd (setNextStep (hd_error rest))
           end in
  (w |> upd (setRemainingDistance (r_distance newRoute))
     |> upd (setRemainingTime (r_duration newRoute))
     |> upd (setProgress (XFin 0))
     |> when (voiceEnabled c)
          (fun w =>
             w |> speak now SayRecalculated
                    ("Route recalculated. " ++ r_distance newRoute ++
                     " remaining. Estimated arrival in " ++
                     r_duration newRoute ++ ".")
               |> setLastVoiceAlert "recalculated")
     |> toast now "Route Recalculated"
          ("New route found. " ++ r_distance newRoute ++ " remaining.")
     |> addNotification now "info" "Route Recalculated"
          ("New route found. " ++ r_distance newRoute ++ " remaining.")
     |> dispatchEvent now "routeRecalculated",
   Fulfilled).

Definition isSome {A : Type} (o : option A) : bool :=
  match o with Some _ => true | None => false end.

Definition updateUserPosition (c : Session) (position : Coord) (now : Z)
    (w : World) : World :=
  w |> upd (setCurrentPosition (Some position))
    |> when (isNavigating c && isSome (activeRoute c))
         (updateNavigationProgress c position now)
    |> dispatchEvent now "userPositionUpdated".

(** The success callback given to [watchPosition]. *)
Definition watchCallback (c : Session) (newPosition : Coord) (now : Z)
    (w : World) : World :=
  w |> upd (setCurrentPosition (Some newPosition))
    |> when (isNavigating c && isSome (activeRoute c))
         (updateNavigationProgress c newPosition now).

Definition toggleVoice (c : Session) (now : Z) (w : World) : World :=
  w |> upd (fun s => setVoiceEnabled (negb (voiceEnabled s)) s)
    |> when (negb (voiceEnabled c)) (speak now SayVoice "Voice guidance enabled.").

Definition toggle3DMode (c : Session) (now : Z) (w : World) : World :=
  w |> upd (fun s => setIs3DMode (negb (is3DMode s)) s)
    |> dispatchEvent now "toggle3DMode"
    |> toast now
         (if negb (is3DMode c) then "3D Mode Enabled" else "3D Mode Disabled")
         (if negb (is3DMode c) then "Viewing map in 3D perspective"
          else "Switched back to 2D view").

(** ** Events *)

(** What can happen to the provider.  A call from the user interface
    runs the functions of the current render; a timer and the geolocation
    watch run the functions of the render that created them. *)
Inductive Event : Type :=
  | EStart (route : Route) (originLoc destLoc : Location)
  | EStop
  | ERecalculate
  | EPosition (position : Coord)
  | EGeoPosition (position : Coord)
  | EToggleVoice
  | EToggle3D
  | ESetFrequency (frequency : Frequency)
  | EFire (n : nat) (random : Z).

Definition runTimer (t : Timer) (random : Z) (now : Z) (w : World) : World :=
  match action t with
  | TStop => stopNavigation (closure t) now w
  | TRecalculate => fst (recalculateRoute (closure t) now w)
  | TResume newOrigin dest =>
      fst (recalculateResume (closure t) newOrigin dest random now w)
  end.

Definition removeNth {A : Type} (n : nat) (l : list A) : list A :=
  firstn n l ++ skipn (S n) l.

(** One event at time [now].  [EFire n] fires the [n]-th pending timer
    when it is due, and does nothing otherwise. *)
Definition step (now : Z) (e : Event) (w : World) : World :=
  match e with
  | EStart route originLoc destLoc =>
      startNavigation (state w) route originLoc destLoc now w
  | EStop => stopNavigation (state w) now w
  | ERecalculate => fst (recalculateRoute (state w) now w)
  | EPosition position => updateUserPosition (state w) position now w
  | EGeoPosition position =>
      match watchClosure w with
      | Some c => watchCallback c position now w
      | None => w
      end
  | EToggleVoice => toggleVoice (state w) now w
  | EToggle3D => toggle3DMode (state w) now w
  | ESetFrequency frequency => w |> upd (setDistanceAlertFrequency frequency)
  | EFire n random =>
      match nth_error (timers w) n with
      | Some t =>
          if (due t <=? now)%Z
          then runTimer t random now (setTimers (removeNth n (timers w)) w)
          else w
      | None => w
      end
  end.

(** A run: timed events, first event first. *)
Fixpoint run (events : list (Z * Event)) (w : World) : World :=
  match events with
  | [] => w
  | (now, e) :: rest => run rest (step now e w)
  end.

(** ** Predicates used by the properties *)

Definition isDistanceAlert (o : Output) : bool :=
  match o with
  | Speak SayDistance _ => true
  | _ => false
  end.

(** The times at which a distance alert was spoken, newest first. *)
Definition alertTimes (w : World) : list Z :=
  map fst (filter (fun entry => isDistanceAlert (snd entry)) (outputs w)).

Definition isOffRouteSpeech (o : Output) : bool :=
  match o with
  | Speak SayOffRoute _ => true
  | _ => false
  end.

Definition isOffRouteToast (o : Output) : bool :=
  match o with
  | Toast title _ => String.eqb title "Off Route"
  | _ => false
  end.

(** How many entries of the effect log satisfy [p]. *)
Definition countOutputs (p : Output -> bool) (w : World) : nat :=
  List.length (filter (fun entry => p (snd entry)) (outputs w)).

(** [l'] is [l] with further elements appended. *)
Definition extends {A : Type} (l l' : list A) : Prop :=
  exists more, l' = l ++ more.

(** What the handlers that neither recompute the progress nor announce a
    distance leave alone: the progress, the distance-alert bookkeeping,
    and every timer already pending. *)
Record quiet (w w' : World) : Prop := mkQuiet {
  quiet_progress : progress (state w') = progress (state w);
  quiet_last : lastDistanceAlert w' = lastDistanceAlert w;
  quiet_alerts : alertTimes w' = alertTimes w;
  quiet_timers : extends (timers w) (timers w')
}.

(** Every two distance alerts of the list (newest first) are at least
    30 seconds apart. *)
Definition gapsOk (times : list Z) : Prop :=
  ForallOrdPairs (fun newer older => (30000 <= newer - older)%Z) times.

(** The bookkeeping of distance alerts: the ref holds the time of the
    newest alert, and the alerts are 30 seconds apart. *)
Definition alertInv (w : World) : Prop :=
  gapsOk (alertTimes w) /\
  Forall (fun t => (t <= lastDistanceAlert w)%Z) (alertTimes w).

(** "Within 0.05 miles of a half-mile (whole-mile) boundary". *)
Definition nearHalfMileBoundary (d : R) : Prop :=
  exists k : Z, Rabs (d - IZR k / 2) < 0.05.

Definition nearWholeMileBoundary (d : R) : Prop :=
  exists k : Z, Rabs (d - IZR k) < 0.05.

Definition progressInRange (w : World) : Prop :=
  exists p, progress (state w) = XFin p /\ 0 <= p <= 100.

(** The total-distance string of the closure's route is well-formed and
    positive. *)
Definition wellFormedTotal (c : Session) : Prop :=
  forall route, activeRoute c = Some route ->
    exists total,
      parseFloat (replace_first " miles" (r_distance route)) = XFin total /\
      0 < total.

(** The precondition of a position update: the route it reads has a
    well-formed positive total. *)
Definition eventOk (e : Event) (w : World) : Prop :=
  match e with
  | EPosition _ => wellFormedTotal (state w)
  | EGeoPosition _ =>
      forall c, watchClosure w = Some c -> wellFormedTotal c
  | _ => True
  end.

(** The worlds reachable from the initial one by events that satisfy the
    precondition. *)
Inductive reachable (geo : bool) : World -> Prop :=
  | reachable_init : reachable geo (initialWorld geo)
  | reachable_step (now : Z) (e : Event) (w : World) :
      reachable geo w -> eventOk e w -> reachable geo (step now e w).

(** The progress [updateNavigationProgress] computes. *)
Definition newProgress (route : Route) (dest : Location) (position : Coord) : xnum :=
  let totalDistance := parseFloat (replace_first " miles" (r_distance route)) in
  let distanceToDestination := calculateDistance position (l_coordinates dest) in
  let ratio := xdiv (XFin distanceToDestination) totalDistance in
  xmin (XFin 100) (xmax (XFin 0) (xsub (XFin 100) (xmul ratio (XFin 100)))).

(** The maneuvers the classification chain can return. *)
Definition mildManeuvers : list Maneuver :=
  [Straight; SlightRight; SlightLeft; Right; Left; Arrive].

(** ** Sample data for the concrete runs *)

(** Three points of the equator: the route goes from [pointA] a quarter of
    the way round to [pointB]; [pointP] is opposite [pointA]. *)
Definition pointA : Coord := (0, 0).
Definition pointB : Coord := (90, 0).
Definition pointP : Coord := (180, 0).

Definition sampleOrigin : Location := mkLocation "A" pointA.
Definition sampleDestination : Location := mkLocation "B" pointB.

Definition sampleRoute : Route :=
  mkRoute 1 "Route 1" "12428 mins" "6214.1 miles" "light" 0 [pointA; pointB].

Definition otherRoute : Route :=
  mkRoute 2 "Route 2" "12428 mins" "6214.1 miles" "light" 0 [pointB; pointA].

(** A session that follows the sample route with voice on and distance
    alerts off, the arrival step being next. *)
Definition onSampleRoute (w : World) : Prop :=
  isNavigating (state w) = true /\
  activeRoute (state w) = Some sampleRoute /\
  destination (state w) = Some sampleDestination /\
  voiceEnabled (state w) = true /\
  distanceAlertFrequency (state w) = Off /\
  exists s, nextStep (state w) = Some s /\ maneuver s = Arrive.

(** ** Further predicates used by the properties *)

Definition isSpeech (o : Output) : bool :=
  match o with
  | Speak _ _ => true
  | _ => false
  end.

(** A closure that follows a route, as a position update needs it. *)
Definition navigatingOn (route : Route) (dest : Location) (c : Session) : Prop :=
  isNavigating c = true /\ activeRoute c = Some route /\ destination c = Some dest.

(** A session for the witnesses: the sample route is followed and the
    next step is a right turn at [pointA]. *)
Definition turnStep : Step :=
  mkStep "Turn right and continue for 1.0 miles" "1.0 miles" pointA 90 Right.

Definition sampleSession : Session :=
  setNextStep (Some turnStep)
    (setCurrentStep (Some turnStep)
       (setDestination (Some sampleDestination)
          (setActiveRoute (Some sampleRoute)
             (setIsNavigating true initialSession)))).

(** Nothing was spoken and the alert bookkeeping is as before. *)
Definition hush (w w' : World) : Prop :=
  countOutputs isSpeech w' = countOutputs isSpeech w /\
  lastVoiceAlert w' = lastVoiceAlert w /\
  lastDistanceAlert w' = lastDistanceAlert w.

(** ** The notification provider *)

Module Notifications.

(** What a caller hands to [addNotification]; the optional action
    function and location are left out. *)
Record Draft : Type := mkDraft {
  d_type : string;
  d_title : string;
  d_message : string;
  d_actionLabel : option string
}.

Record Notification : Type := mkNotification {
  id : string;
  type : string;
  title : string;
  message : string;
  timestamp : Z;
  read : bool;
  actionLabel : option string
}.

Definition setRead (n : Notification) : Notification :=
  mkNotification (id n) (type n) (title n) (message n) (timestamp n) true
                 (actionLabel n).

(** The count the effect stores in [unreadCount] after each change of
    the list. *)
Definition unreadCount (notifications : list Notification) : nat :=
  List.length (filter (fun notification => negb (read notification)) notifications).

(** [uuid] is the value of [uuidv4()], [now] that of [new Date()]. *)
Definition addNotification (uuid : string) (now : Z) (draft : Draft)
    (prev : list Notification) : list Notification :=
  mkNotification uuid (d_type draft) (d_title draft) (d_message draft) now false
                 (d_actionLabel draft) :: prev.

(** Whether [addNotification] plays the notification sound. *)
Definition playsSound (draft : Draft) : bool :=
  String.eqb (d_type draft) "incident" || String.eqb (d_type draft) "error".

Definition markAsRead (i : string) (prev : list Notification) : list Notification :=
  map (fun notification =>
         if String.eqb (id notification) i then setRead notification
         else notification) prev.

Definition markAllAsRead (prev : list Notification) : list Notification :=
  map setRead prev.

Definition removeNotification (i : string) (prev : list Notification)
    : list Notification :=
  filter (fun notification => negb (String.eqb (id notification) i)) prev.

Definition clearAllNotifications (prev : list Notification) : list Notification := [].

End Notifications.

(** ** The routes endpoint *)

Module RoutesApi.

(** The three simulated routes.  The endpoint's own [calculateDistance]
    is the same text as the helper's, which is used here. *)
Definition generateRoutes (origin destination : Coord) : list Route :=
  let midLng1 := fst origin + (fst destination - fst origin) * 0.4 in
  let midLat1 := snd origin + (snd destination - snd origin) * 0.4 in
  let midLng2 := fst origin + (fst destination - fst origin) * 0.3 in
  let midLat2 := snd origin + (snd destination - snd origin) * 0.6 in
  let midLng3 := fst origin + (fst destination - fst origin) * 0.6 in
  let midLat3 := snd origin + (snd destination - snd origin) * 0.3 in
  let directDistance := calculateDistance origin destination in
  [ mkRoute 1 "Fastest Route"
      (Js.string_of_Z (Js.round (directDistance * 2)) ++ " mins")
      (Js.toFixed1 directDistance ++ " miles")
      "moderate" 0 [origin; (midLng1, midLat1); destination];
    mkRoute 2 "Alternative Route"
      (Js.string_of_Z (Js.round (directDistance * 2.2)) ++ " mins")
      (Js.toFixed1 (directDistance * 0.95) ++ " miles")
      "light" 0 [origin; (midLng2, midLat2); destination];
    mkRoute 3 "Avoid Highways"
      (Js.string_of_Z (Js.round (directDistance * 2.5)) ++ " mins")
      (Js.toFixed1 (directDistance * 0.9) ++ " miles")
      "light" 1 [origin; (midLng3, midLat3); destination] ].

(** A place of the request body: [None] when its [coordinates] are
    missing. *)
Definition Place : Type := option Coord.

(** The request body: [None] for a missing (or falsy) [origin] or
    [destination]. *)
Record Body : Type := mkBody {
  b_origin : option Place;
  b_destination : option Place
}.

Inductive Response : Type :=
  | Ok (routes : list Route)
  | Failure (status : Z) (error : string).

(** [POST]; [token] is [MAPBOX_TOKEN], and [body] is [None] when
    [request.json()] throws, which the [catch] turns into a 500. *)
Definition POST (token : string) (body : option Body) : Response :=
  match body with
  | None => Failure 500 "Failed to calculate routes"
  | Some body =>
      match b_origin body, b_destination body with
      | Some origin, Some destination =>
          if String.eqb token "" then Failure 500 "Mapbox token not configured"
          else
            let originCoords :=
              match origin with Some c => c | None => (-74.5, 40) end in
            let destCoords :=
              match destination with Some c => c | None => (-74.35, 40.15) end in
            Ok (generateRoutes originCoords destCoords)
      | _, _ => Failure 400 "Origin and destination are required"
      end
  end.

End RoutesApi.

(** ** The traffic-reports endpoint *)

Module TrafficReports.

Record Report : Type := mkReport {
  id : Z;
  type : string;
  severity : string;
  location : Coord;
  description : string;
  reportedAt : Z;
  reportedBy : string;
  verified : bool
}.


(** The fields of a request body; [None] is a missing field, and an empty
    string is falsy as well. *)
Record Request : Type := mkRequest {
  q_type : option string;
  q_severity : option string;
  q_location : option Coord;
  q_description : option string
}.

Definition truthy (field : option string) : bool :=
  match field with
  | Some s => negb (String.eqb s "")
  | None => false
  end.

Inductive Response : Type :=
  | Created (report : Report)
  | Failure (status : Z) (error : string).

(** [POST]: the response and the new value of [trafficReports]. *)
Definition POST (now : Z) (request : Request) (trafficReports : list Report)
    : Response * list Report :=
  match q_type request, q_severity request, q_location request,
        q_description request with
  | Some type, Some severity, Some location, Some description =>
      if truthy (q_type request) && truthy (q_severity request) &&
         truthy (q_description request)
      then
        let newReport :=
          mkReport (Z.of_nat (List.length trafficReports) + 1) type severity
                   location description now "currentUser" false in
        (Created newReport, trafficReports ++ [newReport])
      else (Failure 400 "Missing required fields", trafficReports)
  | _, _, _, _ => (Failure 400 "Missing required fields", trafficReports)
  end.


End TrafficReports.

(** ** The movement simulator *)

Module Simulator.

(** The variables of [startSimulation] that the interval callback
    updates; [running] is false once [clearInterval] was called. *)
Record Sim : Type := mkSim {
  currentIndex : nat;
  progress : R;
  currentPos : Coord;
  running : bool
}.

Definition speed : R := 0.00005.

(** [startSimulation] on a route that is present. *)
Definition startSimulation (path : list Coord) (currentPosition : option Coord) : Sim :=
  mkSim 0 0
        (match currentPosition with
         | Some p => p
         | None => nth 0 path (0, 0)
         end)
        true.

(** One run of the interval callback: the new variables and the position
    passed to [updateUserPosition], if any. *)
Definition tick (path : list Coord) (sim : Sim) : Sim * option Coord :=
  if (List.length path - 1 <=? currentIndex sim)%nat then
    (mkSim (currentIndex sim) (progress sim) (currentPos sim) false, None)
  else
    let start := nth (currentIndex sim) path (0, 0) in
    let finish := nth (currentIndex sim + 1) path (0, 0) in
    let dx := fst finish - fst start in
    let dy := snd finish - snd start in
    let segmentLength := calculateDistance start finish in
    let progress := progress sim + speed in
    if Js.leb segmentLength progress then
      let currentIndex := S (currentIndex sim) in
      (mkSim currentIndex 0 (currentPos sim)
             (negb (List.length path - 1 <=? currentIndex)%nat),
       None)
    else
      let ratio := progress / segmentLength in
      let newPos := (fst start + dx * ratio, snd start + dy * ratio) in
      (mkSim (currentIndex sim) progress newPos true, Some newPos).

(** The interval fires only while it has not been cleared. *)
Fixpoint ticks (n : nat) (path : list Coord) (sim : Sim) : Sim :=
  match n with
  | O => sim
  | S n' => if running sim then ticks n' path (fst (tick path sim)) else sim
  end.

End Simulator.

(** ** Distance and duration strings read back *)

(** Every character of the string satisfies the test. *)
Fixpoint string_forallb (p : ascii -> bool) (s : string) : bool :=
  match s with
  | EmptyString => true
  | String c s' => p c && string_forallb p s'
  end.

Definition not_space (c : ascii) : bool := negb (Ascii.eqb c " ").

(** The number [x.toFixed(1)] denotes: [x] rounded to one decimal, ties
    away from zero. *)
Definition roundedTenth (x : R) : R :=
  let v := IZR (Zfloor (Rabs x * 10 + / 2)) / 10 in
  if Rlt_dec x 0 then - v else v.

(** ** Facts about the numeric primitives *)

Section NumericFacts.

Lemma atan2_range (y x : R) : - PI < Js.atan2 y x <= PI.
Proof.
  unfold Js.atan2.
  pose proof PI_RGT_0 as Hpi.
  pose proof (atan_bound (y / x)) as Hb.
  destruct (Rlt_dec 0 x) as [Hx | Hx]; [lra |].
  destruct (Rlt_dec x 0) as [Hx' | Hx'].
  - destruct (Rle_dec 0 y) as [Hy | Hy].
    + assert (Hq : y / x <= 0).
      { unfold Rdiv. pose proof (Rinv_lt_0_compat x Hx') as Hi. nra. }
      assert (Ha : atan (y / x) <= 0).
      { rewrite <- atan_0. destruct Hq as [Hq | Hq].
        - left. now apply atan_increasing.
        - rewrite Hq. right. reflexivity. }
      lra.
    + assert (Hq : 0 < y / x).
      { unfold Rdiv. pose proof (Rinv_lt_0_compat x Hx') as Hi. nra. }
      assert (Ha : 0 < atan (y / x)).
      { rewrite <- atan_0. now apply atan_increasing. }
      lra.
  - destruct (Rlt_dec 0 y); [lra |].
    destruct (Rlt_dec y 0); lra.
Qed.

Lemma trunc_one (x : R) : 1 <= x < 2 -> Js.trunc x = 1%Z.
Proof.
  intros H. unfold Js.trunc.
  destruct (Rle_dec 0 x) as [_ | Hn]; [| lra].
  apply Zfloor_eq. simpl. lra.
Qed.

Lemma trunc_zero (x : R) : 0 <= x < 1 -> Js.trunc x = 0%Z.
Proof.
  intros H. unfold Js.trunc.
  destruct (Rle_dec 0 x) as [_ | Hn]; [| lra].
  apply Zfloor_eq. simpl. lra.
Qed.

(** On [0, 720) the remainder by 360 subtracts at most one turn. *)
Lemma fmod_360_low (x : R) : 0 <= x < 360 -> Js.fmod x 360 = x.
Proof.
  intros H. unfold Js.fmod. rewrite trunc_zero; [simpl; lra |].
  split.
  - apply Rmult_le_pos; [lra |]. left. apply Rinv_0_lt_compat. lra.
  - apply Rmult_lt_reg_r with 360; [lra |]. field_simplify; lra.
Qed.

Lemma fmod_360_high (x : R) : 360 <= x < 720 -> Js.fmod x 360 = x - 360.
Proof.
  intros H. unfold Js.fmod. rewrite trunc_one; [simpl; lra |].
  split.
  - apply Rmult_le_reg_r with 360; [lra |]. field_simplify; lra.
  - apply Rmult_lt_reg_r with 360; [lra |]. field_simplify; lra.
Qed.

Lemma round_nonneg (x : R) : 0 <= x -> (0 <= Js.round x)%Z.
Proof.
  intros H. unfold Js.round. apply Zfloor_lub. simpl. lra.
Qed.

End NumericFacts.

(** ** Geo-math properties *)

Lemma calculateBearing_range (a b : Coord) :
  0 <= calculateBearing a b < 360.
Proof.
  unfold calculateBearing. cbv zeta.
  set (t := Js.atan2 _ _).
  pose proof (atan2_range
    (sin (fst b * PI / 180 - fst a * PI / 180) * cos (snd b * PI / 180))
    (cos (snd a * PI / 180) * sin (snd b * PI / 180) -
     sin (snd a * PI / 180) * cos (snd b * PI / 180) *
     cos (fst b * PI / 180 - fst a * PI / 180))) as Ht.
  fold t in Ht.
  pose proof PI_RGT_0 as Hpi.
  assert (Hd : -180 < t * 180 / PI <= 180).
  { split.
    - apply Rmult_lt_reg_r with PI; [lra |]. field_simplify; lra.
    - apply Rmult_le_reg_r with PI; [lra |]. field_simplify; lra. }
  destruct (Rlt_dec (t * 180 / PI + 360) 360) as [Hlow | Hhigh].
  - rewrite fmod_360_low; lra.
  - rewrite fmod_360_high; lra.
Qed.

Lemma direction_index_valid (bearing : R) :
  0 <= bearing -> (0 <= direction_index bearing < 8)%Z.
Proof.
  intros H. unfold direction_index.
  assert (Hr : (0 <= Js.round (bearing / 45))%Z).
  { apply round_nonneg. apply Rmult_le_pos; [exact H |].
    left. apply Rinv_0_lt_compat. lra. }
  pose proof (Z.rem_bound_pos (Js.round (bearing / 45)) 8 Hr) as Hb.
  lia.
Qed.

Lemma lookup_directions (i : Z) :
  (0 <= i < 8)%Z ->
  exists label, lookup_index directions i = Some label /\ In label directions.
Proof.
  intros H. unfold lookup_index.
  destruct (Z.ltb_spec i 0) as [Hneg | _]; [lia |].
  destruct (nth_error directions (Z.to_nat i)) as [label |] eqn:E.
  - exists label. split; [reflexivity |]. eapply nth_error_In. exact E.
  - apply nth_error_None in E. simpl in E. lia.
Qed.

(** C9. The bearing between any two coordinates lies in [0, 360), and for
    every bearing (any non-negative number, so in particular every value
    [calculateBearing] returns) the index [round(bearing / 45) mod 8] is
    within the table: [getDirectionFromBearing] returns one of the eight
    compass labels. *)
Theorem bearing_range_and_direction_label :
  (forall a b : Coord, 0 <= calculateBearing a b < 360) /\
  (forall bearing : R, 0 <= bearing ->
     (0 <= direction_index bearing < 8)%Z /\
     exists label, getDirectionFromBearing bearing = Some label /\
                   In label directions) /\
  (forall a b : Coord,
     exists label, getDirectionFromBearing (calculateBearing a b) = Some label /\
                   In label directions).
Proof.
  split; [exact calculateBearing_range |].
  assert (Hdir : forall bearing : R, 0 <= bearing ->
     (0 <= direction_index bearing < 8)%Z /\
     exists label, getDirectionFromBearing bearing = Some label /\
                   In label directions).
  { intros bearing H. split; [now apply direction_index_valid |].
    apply lookup_directions. now apply direction_index_valid. }
  split; [exact Hdir |].
  intros a b. apply Hdir. apply calculateBearing_range.
Qed.

(** The theorem above at the bearing 90 (due east). *)
Lemma bearing_range_and_direction_label_witness :
  0 <= 90 /\ (0 <= direction_index 90 < 8)%Z.
Proof.
  split; [lra |].
  apply (proj1 (proj2 bearing_range_and_direction_label) 90). lra.
Defined.

(** ** The instruction generator *)

Section Generator.

Lemma segmentSteps_cons (prev : option R) (a b : Coord) (rest : list Coord) :
  segmentSteps prev (a :: b :: rest) =
  (segmentStep prev a b ::
     fst (segmentSteps (Some (calculateBearing a b)) (b :: rest)),
   snd (segmentSteps (Some (calculateBearing a b)) (b :: rest))).
Proof.
  change (segmentSteps prev (a :: b :: rest)) with
    (let '(steps, lastBearing) :=
       segmentSteps (Some (bearing (segmentStep prev a b))) (b :: rest) in
     (segmentStep prev a b :: steps, lastBearing)).
  change (bearing (segmentStep prev a b)) with (calculateBearing a b).
  destruct (segmentSteps (Some (calculateBearing a b)) (b :: rest)) as [steps lastB].
  reflexivity.
Qed.

Lemma segmentSteps_length (path : list Coord) :
  forall prev, List.length (fst (segmentSteps prev path)) = (List.length path - 1)%nat.
Proof.
  induction path as [| a rest IH]; intros prev; [reflexivity |].
  destruct rest as [| b rest]; [reflexivity |].
  rewrite segmentSteps_cons. cbn [fst List.length].
  rewrite IH. cbn [List.length]. lia.
Qed.

Lemma segmentSteps_coordinates (path : list Coord) :
  forall prev, map coordinates (fst (segmentSteps prev path)) = removelast path.
Proof.
  induction path as [| a rest IH]; intros prev; [reflexivity |].
  destruct rest as [| b rest]; [reflexivity |].
  rewrite segmentSteps_cons. cbn [fst map].
  rewrite IH. reflexivity.
Qed.

Lemma generate_short (path : list Coord) :
  (List.length path < 2)%nat -> generateDetailedNavigationSteps path = [].
Proof.
  intros H. unfold generateDetailedNavigationSteps.
  destruct (Nat.ltb_spec (List.length path) 2) as [_ | Hge]; [reflexivity | lia].
Qed.

Lemma generate_long (path : list Coord) :
  (2 <= List.length path)%nat ->
  generateDetailedNavigationSteps path =
  fst (segmentSteps None path) ++
  [arrivalStep (last path (0, 0)) (snd (segmentSteps None path))].
Proof.
  intros H. unfold generateDetailedNavigationSteps.
  destruct (Nat.ltb_spec (List.length path) 2) as [Hlt | _]; [lia |].
  destruct (segmentSteps None path) as [steps lastB]. reflexivity.
Qed.

End Generator.

(** C6. A path with fewer than two points gives no step.  A path with two
    points or more gives exactly one step per point: the travel steps, one
    for each consecutive pair and anchored at the pair's first point
    ([length - 1] of them), then the arrival step, with the instruction
    "Arrive at your destination", the distance "0 miles", the maneuver
    arrive and the last point of the path as its anchor. *)
Theorem generateSteps_length_and_arrival (path : list Coord) :
  ((List.length path < 2)%nat -> generateDetailedNavigationSteps path = []) /\
  ((2 <= List.length path)%nat ->
   List.length (generateDetailedNavigationSteps path) = List.length path /\
   exists travel arrival,
     generateDetailedNavigationSteps path = travel ++ [arrival] /\
     List.length travel = (List.length path - 1)%nat /\
     map coordinates travel = removelast path /\
     instruction arrival = "Arrive at your destination"%string /\
     distance arrival = "0 miles"%string /\
     maneuver arrival = Arrive /\
     coordinates arrival = last path (0, 0)).
Proof.
  split; [apply generate_short |].
  intros H. rewrite (generate_long path H). split.
  - rewrite length_app, segmentSteps_length. cbn [List.length]. lia.
  - exists (fst (segmentSteps None path)).
    exists (arrivalStep (last path (0, 0)) (snd (segmentSteps None path))).
    split; [reflexivity |].
    split; [apply segmentSteps_length |].
    split; [apply segmentSteps_coordinates |].
    repeat split.
Qed.

(** The theorem above on the two-point path of the specification's
    scenario: two steps, the second one the arrival at (-74.4, 40.1). *)
Lemma generateSteps_length_and_arrival_witness :
  List.length (generateDetailedNavigationSteps [(-74.5, 40); (-74.4, 40.1)]) = 2%nat.
Proof.
  apply (proj2 (generateSteps_length_and_arrival [(-74.5, 40); (-74.4, 40.1)])).
  cbn [List.length]. lia.
Defined.

(** ** Maneuver classification *)

Section Classification.

Lemma maneuverOfAngle_mild (x : R) : In (maneuverOfAngle x) mildManeuvers.
Proof.
  unfold maneuverOfAngle, mildManeuvers.
  destruct (Rlt_dec 30 x); [cbn; tauto |].
  destruct (Rlt_dec x (-30)); [cbn; tauto |].
  destruct (Rlt_dec 10 x); [cbn; tauto |].
  destruct (Rlt_dec x (-10)); [cbn; tauto |].
  destruct (Rlt_dec 100 x); [lra |].
  destruct (Rlt_dec x (-100)); [lra |].
  destruct (Rlt_dec 170 (Js.abs x)) as [Habs | _]; [| cbn; tauto].
  unfold Js.abs, Rabs in Habs. destruct (Rcase_abs x); lra.
Qed.

Lemma maneuverOf_mild (prev : option R) (b : R) :
  In (maneuverOf prev b) mildManeuvers.
Proof.
  destruct prev as [p |]; cbn [maneuverOf].
  - apply maneuverOfAngle_mild.
  - cbn; tauto.
Qed.

Lemma segmentSteps_mild (path : list Coord) :
  forall prev,
    Forall (fun step => In (maneuver step) mildManeuvers)
           (fst (segmentSteps prev path)).
Proof.
  induction path as [| a rest IH]; intros prev; [constructor |].
  destruct rest as [| b rest]; [constructor |].
  rewrite segmentSteps_cons. cbn [fst]. constructor.
  - apply maneuverOf_mild.
  - apply IH.
Qed.

Lemma normalizedAngle_small (prev b : R) :
  -180 <= b - prev < 180 -> normalizedAngle prev b = b - prev.
Proof.
  intros H. unfold normalizedAngle. rewrite fmod_360_low; lra.
Qed.

Lemma normalizedAngle_half_turn (prev b : R) :
  b - prev = 180 -> normalizedAngle prev b = -180.
Proof.
  intros H. unfold normalizedAngle. rewrite fmod_360_high; lra.
Qed.

Lemma maneuverOfAngle_right (x : R) : 30 < x -> maneuverOfAngle x = Right.
Proof.
  intros H. unfold maneuverOfAngle. destruct (Rlt_dec 30 x); [reflexivity | lra].
Qed.

Lemma maneuverOfAngle_left (x : R) : x < -30 -> maneuverOfAngle x = Left.
Proof.
  intros H. unfold maneuverOfAngle.
  destruct (Rlt_dec 30 x); [lra |].
  destruct (Rlt_dec x (-30)); [reflexivity | lra].
Qed.

Lemma maneuverOfAngle_slight_right (x : R) :
  10 < x <= 30 -> maneuverOfAngle x = SlightRight.
Proof.
  intros H. unfold maneuverOfAngle.
  destruct (Rlt_dec 30 x); [lra |].
  destruct (Rlt_dec x (-30)); [lra |].
  destruct (Rlt_dec 10 x); [reflexivity | lra].
Qed.

(** Bearings of the out-and-back path (0,0), (0,1), (0,0): due north,
    then due south. *)
Lemma sin_one_degree_pos : 0 < sin (PI / 180).
Proof.
  pose proof PI_RGT_0 as Hpi. apply sin_gt_0; lra.
Qed.

Lemma atan2_zero_pos (x : R) : 0 < x -> Js.atan2 0 x = 0.
Proof.
  intros H. unfold Js.atan2. destruct (Rlt_dec 0 x); [| lra].
  replace (0 / x) with 0 by (unfold Rdiv; lra). apply atan_0.
Qed.

Lemma atan2_zero_neg (x : R) : x < 0 -> Js.atan2 0 x = PI.
Proof.
  intros H. unfold Js.atan2.
  destruct (Rlt_dec 0 x); [lra |].
  destruct (Rlt_dec x 0); [| lra].
  destruct (Rle_dec 0 0); [| lra].
  replace (0 / x) with 0 by (unfold Rdiv; lra). rewrite atan_0. lra.
Qed.

Ltac simplify_degrees :=
  cbn [fst snd];
  replace (0 * PI / 180) with 0 by lra;
  replace (1 * PI / 180) with (PI / 180) by lra;
  replace (0 - 0) with 0 by lra;
  rewrite ?sin_0, ?cos_0.

Lemma bearing_north : calculateBearing (0, 0) (0, 1) = 0.
Proof.
  unfold calculateBearing. simplify_degrees.
  replace (0 * cos (PI / 180)) with 0 by lra.
  replace (1 * sin (PI / 180) - 0 * 1) with (sin (PI / 180)) by lra.
  rewrite atan2_zero_pos by apply sin_one_degree_pos.
  replace (0 * 180 / PI + 360) with 360 by (unfold Rdiv; lra).
  rewrite fmod_360_high; lra.
Qed.

Lemma bearing_south : calculateBearing (0, 1) (0, 0) = 180.
Proof.
  unfold calculateBearing. simplify_degrees.
  replace (0 * 1) with 0 by lra.
  replace (cos (PI / 180) * 0 - sin (PI / 180) * 1 * 1)
    with (- sin (PI / 180)) by lra.
  pose proof sin_one_degree_pos as Hs.
  pose proof PI_RGT_0 as Hpi.
  rewrite atan2_zero_neg by lra.
  replace (PI * 180 / PI + 360) with 540 by (field; lra).
  rewrite fmod_360_high; lra.
Qed.

End Classification.

(** C10. No step of [generateDetailedNavigationSteps] is a sharp turn or a
    U-turn: the branches for "right" and "left" (beyond 30 degrees) come
    first in the chain, so every maneuver is one of straight,
    slight-right, slight-left, right, left and arrive. *)
Theorem generated_maneuvers_never_sharp (path : list Coord) :
  Forall (fun step =>
            In (maneuver step) [Straight; SlightRight; SlightLeft; Right; Left; Arrive] /\
            maneuver step <> SharpRight /\
            maneuver step <> SharpLeft /\
            maneuver step <> Uturn)
         (generateDetailedNavigationSteps path).
Proof.
  assert (Hmild : Forall (fun step => In (maneuver step) mildManeuvers)
                         (generateDetailedNavigationSteps path)).
  { destruct (Nat.ltb_spec (List.length path) 2) as [Hlt | Hge].
    - rewrite generate_short by exact Hlt. constructor.
    - rewrite generate_long by exact Hge. apply Forall_app. split.
      + apply segmentSteps_mild.
      + constructor; [| constructor]. cbn. tauto. }
  eapply Forall_impl; [| exact Hmild].
  intros step Hin. split; [exact Hin |].
  unfold mildManeuvers in Hin. cbn in Hin.
  repeat split; intros Heq; rewrite Heq in Hin;
    repeat (destruct Hin as [Hin | Hin]; [discriminate |]); exact Hin.
Qed.

(** C1, evaluated on the code.  Turns of +45 and +15 degrees are
    classified as the table says ("right", "slight-right"); a turn of
    +175 degrees, which the table makes a U-turn, and one of +120 degrees,
    which it makes "sharp-right", are both classified "right"; the
    bearings 350 then 10, a turn of +20 degrees, are not normalised (the
    remainder keeps the sign of -160) and are classified "left"; on the
    out-and-back path (0,0), (0,1), (0,0) the reversal is normalised to
    -180 and classified "left". *)
Theorem maneuver_classification_evaluated :
  maneuverOf (Some 0) 45 = Right /\
  maneuverOf (Some 0) 15 = SlightRight /\
  maneuverOf (Some 0) 175 = Right /\
  maneuverOf (Some 0) 120 = Right /\
  normalizedAngle 350 10 = -340 /\
  maneuverOf (Some 350) 10 = Left /\
  map maneuver (generateDetailedNavigationSteps [(0, 0); (0, 1); (0, 0)]) =
    [Straight; Left; Arrive].
Proof.
  assert (H350 : normalizedAngle 350 10 = -340).
  { unfold normalizedAngle, Js.fmod, Js.trunc.
    destruct (Rle_dec 0 ((10 - 350 + 180) / 360)) as [Hpos | _]; [lra |].
    replace (Zceil ((10 - 350 + 180) / 360)) with 0%Z; [simpl; lra |].
    symmetry. unfold Zceil. 
    replace (Zfloor (- ((10 - 350 + 180) / 360))) with 0%Z; [reflexivity |].
    symmetry. apply Zfloor_eq. simpl. lra. }
  repeat split.
  - cbn [maneuverOf]. rewrite normalizedAngle_small by lra.
    apply maneuverOfAngle_right. lra.
  - cbn [maneuverOf]. rewrite normalizedAngle_small by lra.
    apply maneuverOfAngle_slight_right. lra.
  - cbn [maneuverOf]. rewrite normalizedAngle_small by lra.
    apply maneuverOfAngle_right. lra.
  - cbn [maneuverOf]. rewrite normalizedAngle_small by lra.
    apply maneuverOfAngle_right. lra.
  - exact H350.
  - cbn [maneuverOf]. rewrite H350. apply maneuverOfAngle_left. lra.
  - rewrite generate_long by (cbn [List.length]; lia).
    rewrite map_app. rewrite !segmentSteps_cons. cbn [fst snd map].
    change (maneuver (segmentStep None (0, 0) (0, 1))) with Straight.
    change (maneuver (segmentStep (Some (calculateBearing (0, 0) (0, 1))) (0, 1) (0, 0)))
      with (maneuverOf (Some (calculateBearing (0, 0) (0, 1)))
                       (calculateBearing (0, 1) (0, 0))).
    rewrite bearing_north, bearing_south.
    cbn [maneuverOf]. rewrite normalizedAngle_half_turn by lra.
    rewrite maneuverOfAngle_left by lra. reflexivity.
Qed.

(** ** Frame properties of the handlers *)

Section Frames.

Lemma extends_refl {A : Type} (l : list A) : extends l l.
Proof. exists []. now rewrite app_nil_r. Qed.

Lemma extends_snoc {A : Type} (l : list A) (x : A) : extends l (l ++ [x]).
Proof. now exists [x]. Qed.

Lemma extends_trans {A : Type} (l1 l2 l3 : list A) :
  extends l1 l2 -> extends l2 l3 -> extends l1 l3.
Proof.
  intros [m1 H1] [m2 H2]. exists (m1 ++ m2). subst. now rewrite app_assoc.
Qed.

Lemma quiet_refl (w : World) : quiet w w.
Proof. constructor; try reflexivity. apply extends_refl. Qed.

Lemma quiet_trans (w1 w2 w3 : World) : quiet w1 w2 -> quiet w2 w3 -> quiet w1 w3.
Proof.
  intros [P1 L1 A1 T1] [P2 L2 A2 T2]. constructor.
  - now rewrite P2.
  - now rewrite L2.
  - now rewrite A2.
  - eapply extends_trans; eassumption.
Qed.

End Frames.

Ltac break_match :=
  match goal with
  | |- context [match ?x with _ => _ end] =>
      lazymatch x with
      | context [match _ with _ => _ end] => fail
      | _ => destruct x eqn:?
      end
  end.

Ltac world_simpl :=
  cbn [state watchId watchClosure lastVoiceAlert lastDistanceAlert geolocation
       watchCounter timers outputs alertTimes
       upd emit setWatch setWatchCounter setLastVoiceAlert setLastDistanceAlert
       setTimers setTimeout speak toast addNotification dispatchEvent
       filter map fst snd isDistanceAlert
       isNavigating activeRoute origin destination currentPosition currentStep
       nextStep remainingDistance remainingTime progress voiceEnabled is3DMode
       distanceAlertFrequency
       setIsNavigating setActiveRoute setOrigin setDestination
       setCurrentPosition setCurrentStep setNextStep setRemainingDistance
       setRemainingTime setProgress setVoiceEnabled setIs3DMode
       setDistanceAlertFrequency].

Ltac quiet_tac :=
  unfold when; repeat break_match;
  constructor; world_simpl;
  first [reflexivity | apply extends_refl | apply extends_snoc].

Section QuietHandlers.

Variables (c : Session) (now : Z).

Lemma quiet_updateNavigationStep (p : Coord) (w : World) :
  quiet w (updateNavigationStep c p now w).
Proof. unfold updateNavigationStep. quiet_tac. Qed.

Lemma quiet_checkUpcomingTurn (p : Coord) (w : World) :
  quiet w (checkUpcomingTurn c p now w).
Proof. unfold checkUpcomingTurn. quiet_tac. Qed.

Lemma quiet_checkIfOffRoute (p : Coord) (w : World) :
  quiet w (checkIfOffRoute c p now w).
Proof. unfold checkIfOffRoute. quiet_tac. Qed.

Lemma quiet_stopNavigation (w : World) : quiet w (stopNavigation c now w).
Proof. unfold stopNavigation. quiet_tac. Qed.

Lemma quiet_startPositionTracking (w : World) :
  quiet w (startPositionTracking c now w).
Proof. unfold startPositionTracking. quiet_tac. Qed.

Lemma quiet_recalculateRoute (w : World) :
  quiet w (fst (recalculateRoute c now w)).
Proof. unfold recalculateRoute. quiet_tac. Qed.

Lemma quiet_toggleVoice (w : World) : quiet w (toggleVoice c now w).
Proof. unfold toggleVoice. quiet_tac. Qed.

Lemma quiet_toggle3DMode (w : World) : quiet w (toggle3DMode c now w).
Proof. unfold toggle3DMode. quiet_tac. Qed.

(** The arrival block of [updateNavigationProgress]. *)
Lemma quiet_arrival (b : bool) (w : World) :
  quiet w
    (when b
       (fun w =>
          w |> when (voiceEnabled c &&
                     negb (String.eqb (lastVoiceAlert w) "arrived"))
                 (fun w =>
                    w |> speak now SayArrived
                           "You have arrived at your destination."
                      |> setLastVoiceAlert "arrived")
            |> toast now "Arrived!" "You have reached your destination."
            |> addNotification now "success" "Arrived!"
                 "You have reached your destination."
            |> setTimeout now 5000 c TStop) w).
Proof. quiet_tac. Qed.

End QuietHandlers.

(** The primitives of a pipeline, one by one. *)
Lemma progress_upd_setProgress (v : xnum) (w : World) :
  progress (state (upd (setProgress v) w)) = v.
Proof. reflexivity. Qed.

Lemma quiet_emit (now : Z) (o : Output) (w : World) :
  isDistanceAlert o = false -> quiet w (emit now o w).
Proof.
  intros H. constructor; try reflexivity.
  - unfold alertTimes. cbn [outputs emit filter snd]. rewrite H. reflexivity.
  - apply extends_refl.
Qed.

Lemma quiet_upd (f : Session -> Session) (w : World) :
  (forall s, progress (f s) = progress s) -> quiet w (upd f w).
Proof.
  intros H. constructor; try reflexivity.
  - apply H.
  - apply extends_refl.
Qed.

Lemma quiet_setLastVoiceAlert (key : string) (w : World) :
  quiet w (setLastVoiceAlert key w).
Proof. constructor; try reflexivity. apply extends_refl. Qed.

Lemma quiet_when (b : bool) (f : World -> World) (w : World) :
  (forall x, quiet x (f x)) -> quiet w (when b f w).
Proof. intros H. unfold when. destruct b; [apply H | apply quiet_refl]. Qed.

(** Peels the outermost call of a pipeline off a [quiet] goal. *)
Ltac quiet_peel :=
  repeat
    match goal with
    | |- quiet ?w ?w => apply quiet_refl
    | |- quiet ?w (?g ?x) =>
        apply (quiet_trans w x (g x));
        [ | first
              [ apply quiet_emit; reflexivity
              | apply quiet_upd; intros; reflexivity
              | apply quiet_setLastVoiceAlert
              | apply quiet_stopNavigation
              | apply quiet_startPositionTracking
              | apply quiet_updateNavigationStep
              | apply quiet_checkUpcomingTurn
              | apply quiet_checkIfOffRoute
              | apply quiet_arrival
              | apply quiet_when; intros; cbv beta ] ]
    end.


(** ** The progress invariant *)

Section Progress.

Lemma progress_checkDistanceAnnouncement (c : Session) (d : R) (now : Z) (w : World) :
  progress (state (checkDistanceAnnouncement c d now w)) = progress (state w).
Proof.
  unfold checkDistanceAnnouncement. repeat break_match; reflexivity.
Qed.

Lemma timers_checkDistanceAnnouncement (c : Session) (d : R) (now : Z) (w : World) :
  timers (checkDistanceAnnouncement c d now w) = timers w.
Proof.
  unfold checkDistanceAnnouncement. repeat break_match; reflexivity.
Qed.

Lemma progress_updateNavigationProgress
    (c : Session) (p : Coord) (now : Z) (w : World) (route : Route) (dest : Location) :
  activeRoute c = Some route -> destination c = Some dest ->
  progress (state (updateNavigationProgress c p now w)) = newProgress route dest p.
Proof.
  intros Hr Hd. unfold updateNavigationProgress. rewrite Hr, Hd.
  world_simpl.
  rewrite (quiet_progress _ _ (quiet_checkIfOffRoute c now p _)).
  rewrite (quiet_progress _ _ (quiet_arrival c now _ _)).
  rewrite (quiet_progress _ _ (quiet_checkUpcomingTurn c now p _)).
  rewrite progress_checkDistanceAnnouncement.
  rewrite (quiet_progress _ _ (quiet_updateNavigationStep c now p _)).
  reflexivity.
Qed.

Lemma progress_updateNavigationProgress_idle
    (c : Session) (p : Coord) (now : Z) (w : World) :
  activeRoute c = None \/ destination c = None ->
  updateNavigationProgress c p now w = w.
Proof.
  intros [H | H]; unfold updateNavigationProgress; rewrite H;
    [| destruct (activeRoute c)]; reflexivity.
Qed.

(** With a total that is a non-zero number the recomputed progress is the
    clamped percentage. *)
Lemma newProgress_clamped (route : Route) (dest : Location) (p : Coord) (total : R) :
  parseFloat (replace_first " miles" (r_distance route)) = XFin total ->
  total <> 0 ->
  newProgress route dest p =
  XFin (Rmin 100 (Rmax 0
          (100 - calculateDistance p (l_coordinates dest) / total * 100))).
Proof.
  intros Hparse Hnz. unfold newProgress. rewrite Hparse.
  cbn [xdiv]. destruct (Req_dec_T total 0) as [Hz | _]; [contradiction |].
  reflexivity.
Qed.

Lemma clamp_range (x : R) : 0 <= Rmin 100 (Rmax 0 x) <= 100.
Proof.
  split.
  - apply Rmin_glb; [lra | apply Rmax_l].
  - apply Rmin_l.
Qed.

Lemma progressInRange_same (w w' : World) :
  progress (state w') = progress (state w) ->
  progressInRange w -> progressInRange w'.
Proof.
  intros H [p [Hp Hr]]. exists p. rewrite H. split; assumption.
Qed.

Lemma progressInRange_zero (w : World) :
  progress (state w) = XFin 0 -> progressInRange w.
Proof. intros H. exists 0. split; [exact H | lra]. Qed.

Lemma progress_startNavigation
    (c : Session) (route : Route) (o d : Location) (now : Z) (w : World) :
  progress (state (startNavigation c route o d now w)) = XFin 0.
Proof.
  unfold startNavigation.
  set (w1 := upd (setProgress (XFin 0)) _).
  assert (H1 : progress (state w1) = XFin 0) by apply progress_upd_setProgress.
  clearbody w1.
  match goal with
  | |- progress (state ?final) = _ =>
      assert (Q : quiet w1 final)
  end.
  { unfold speak, toast, addNotification, dispatchEvent.
    destruct (generateNavigationSteps (r_path route)); quiet_peel. }
  rewrite (quiet_progress _ _ Q). exact H1.
Qed.

Lemma progress_recalculateResume
    (c : Session) (o d : Location) (random now : Z) (w : World) :
  progress (state (fst (recalculateResume c o d random now w))) = XFin 0.
Proof.
  unfold recalculateResume. cbn [fst].
  set (w1 := upd (setProgress (XFin 0)) _).
  assert (H1 : progress (state w1) = XFin 0) by apply progress_upd_setProgress.
  clearbody w1.
  match goal with
  | |- progress (state ?final) = _ =>
      assert (Q : quiet w1 final)
  end.
  { unfold speak, toast, addNotification, dispatchEvent. quiet_peel. }
  rewrite (quiet_progress _ _ Q). exact H1.
Qed.

Lemma progress_updateUserPosition (c : Session) (p : Coord) (now : Z) (w : World) :
  wellFormedTotal c -> progressInRange w ->
  progressInRange (updateUserPosition c p now w).
Proof.
  intros Hwf Hin. unfold updateUserPosition, when.
  destruct (isNavigating c && isSome (activeRoute c)) eqn:Hnav.
  - destruct (activeRoute c) as [route |] eqn:Hr;
      [| rewrite andb_false_r in Hnav; discriminate].
    destruct (destination c) as [dest |] eqn:Hd.
    + destruct (Hwf route Hr) as [total [Hparse Hpos]].
      unfold progressInRange. world_simpl.
      rewrite (progress_updateNavigationProgress c p now _ route dest Hr Hd).
      rewrite (newProgress_clamped route dest p total Hparse) by lra.
      eexists. split; [reflexivity | apply clamp_range].
    + rewrite progress_updateNavigationProgress_idle by (right; exact Hd).
      exact Hin.
  - exact Hin.
Qed.

Lemma progress_watchCallback (c : Session) (p : Coord) (now : Z) (w : World) :
  wellFormedTotal c -> progressInRange w ->
  progressInRange (watchCallback c p now w).
Proof.
  intros Hwf Hin.
  pose proof (progress_updateUserPosition c p now w Hwf Hin) as H.
  unfold updateUserPosition in H. exact H.
Qed.

Lemma progress_runTimer (t : Timer) (random now : Z) (w : World) :
  progressInRange w -> progressInRange (runTimer t random now w).
Proof.
  intros Hin. unfold runTimer. destruct (action t).
  - eapply progressInRange_same; [| exact Hin].
    apply (quiet_progress _ _ (quiet_stopNavigation _ _ _)).
  - eapply progressInRange_same; [| exact Hin].
    apply (quiet_progress _ _ (quiet_recalculateRoute _ _ _)).
  - apply progressInRange_zero. apply progress_recalculateResume.
Qed.

Lemma progress_step (now : Z) (e : Event) (w : World) :
  eventOk e w -> progressInRange w -> progressInRange (step now e w).
Proof.
  intros Hok Hin. destruct e; cbn [step eventOk] in *.
  - apply progressInRange_zero. apply progress_startNavigation.
  - eapply progressInRange_same; [| exact Hin].
    apply (quiet_progress _ _ (quiet_stopNavigation _ _ _)).
  - eapply progressInRange_same; [| exact Hin].
    apply (quiet_progress _ _ (quiet_recalculateRoute _ _ _)).
  - now apply progress_updateUserPosition.
  - destruct (watchClosure w) as [c |]; [| exact Hin].
    apply progress_watchCallback; [now apply Hok | exact Hin].
  - eapply progressInRange_same; [| exact Hin].
    apply (quiet_progress _ _ (quiet_toggleVoice _ _ _)).
  - eapply progressInRange_same; [| exact Hin].
    apply (quiet_progress _ _ (quiet_toggle3DMode _ _ _)).
  - exact Hin.
  - destruct (nth_error (timers w) n) as [t |]; [| exact Hin].
    destruct (due t <=? now)%Z; [| exact Hin].
    apply progress_runTimer. exact Hin.
Qed.

End Progress.

(** C8. In every world reachable by events whose position updates read a
    route with a well-formed positive total-distance string, the progress
    is a number between 0 and 100.  [startNavigation] and the completion
    of a recalculation set it to 0, a position update sets it to the
    percentage clamped into [0, 100], and [stopNavigation] leaves it as it
    is. *)
Theorem progress_invariant (geo : bool) (w : World) :
  reachable geo w ->
  progressInRange w /\
  (forall c route o d now,
     progress (state (startNavigation c route o d now w)) = XFin 0) /\
  (forall c o d random now,
     progress (state (fst (recalculateResume c o d random now w))) = XFin 0) /\
  (forall c now,
     progress (state (stopNavigation c now w)) = progress (state w)) /\
  (forall p now route dest total,
     isNavigating (state w) = true ->
     activeRoute (state w) = Some route ->
     destination (state w) = Some dest ->
     parseFloat (replace_first " miles" (r_distance route)) = XFin total ->
     0 < total ->
     progress (state (updateUserPosition (state w) p now w)) =
     XFin (Rmin 100 (Rmax 0
             (100 - calculateDistance p (l_coordinates dest) / total * 100)))).
Proof.
  intros Hreach. split; [| split; [| split; [| split]]].
  - induction Hreach as [| now e w Hreach IH Hok].
    + apply progressInRange_zero. reflexivity.
    + now apply progress_step.
  - intros. apply progress_startNavigation.
  - intros. apply progress_recalculateResume.
  - intros. apply (quiet_progress _ _ (quiet_stopNavigation _ _ _)).
  - intros p now route dest total Hnav Hr Hd Hparse Hpos.
    unfold updateUserPosition, when. rewrite Hnav, Hr. cbn [isSome andb].
    world_simpl.
    rewrite (progress_updateNavigationProgress (state w) p now _ route dest Hr Hd).
    apply newProgress_clamped; [exact Hparse | lra].
Qed.

(** The theorem above after the sample route is started: progress 0. *)
Lemma progress_invariant_witness :
  progressInRange
    (step 1000 (EStart sampleRoute sampleOrigin sampleDestination)
       (initialWorld true)).
Proof.
  apply (proj1 (progress_invariant true _
                  (reachable_step true 1000
                     (EStart sampleRoute sampleOrigin sampleDestination)
                     (initialWorld true) (reachable_init true) I))).
Defined.

(** ** Starting and stopping *)

Section StartStop.

Lemma state_emit (now : Z) (o : Output) (w : World) :
  state (emit now o w) = state w.
Proof. reflexivity. Qed.

Lemma state_when_emit (b : bool) (now : Z) (o : Output) (w : World) :
  state (when b (emit now o) w) = state w.
Proof. destruct b; reflexivity. Qed.

Lemma state_startPositionTracking (c : Session) (now : Z) (w : World) :
  state (startPositionTracking c now w) = state w.
Proof.
  unfold startPositionTracking. repeat break_match; reflexivity.
Qed.

(** The session [startNavigation] leaves, field by field. *)
Lemma start_session
    (c : Session) (route : Route) (o d : Location) (now : Z) (w : World) :
  let s := state (startNavigation c route o d now w) in
  isNavigating s = true /\ activeRoute s = Some route /\
  origin s = Some o /\ destination s = Some d /\
  remainingDistance s = r_distance route /\
  remainingTime s = r_duration route /\
  currentPosition s = currentPosition (state w) /\
  voiceEnabled s = voiceEnabled (state w) /\
  distanceAlertFrequency s = distanceAlertFrequency (state w) /\
  match generateNavigationSteps (r_path route) with
  | [] => currentStep s = currentStep (state w) /\ nextStep s = nextStep (state w)
  | first :: rest => currentStep s = Some first /\ nextStep s = hd_error rest
  end.
Proof.
  unfold startNavigation, speak, toast, addNotification, dispatchEvent.
  cbv zeta.
  rewrite !state_emit, state_when_emit, state_startPositionTracking.
  destruct (generateNavigationSteps (r_path route)); cbn; repeat split.
Qed.

(** What [stopNavigation] writes. *)
Lemma stopNavigation_fields (c : Session) (now : Z) (w : World) :
  state (stopNavigation c now w) =
    setNextStep None (setCurrentStep None (setActiveRoute None
      (setIsNavigating false (state w)))) /\
  watchId (stopNavigation c now w) = None /\
  lastVoiceAlert (stopNavigation c now w) = lastVoiceAlert w /\
  lastDistanceAlert (stopNavigation c now w) = lastDistanceAlert w /\
  timers (stopNavigation c now w) = timers w.
Proof.
  unfold stopNavigation, when.
  destruct (watchId w) eqn:E, (voiceEnabled c); cbn; rewrite ?E; repeat split.
Qed.

End StartStop.

(** C3, as the code has it.  [stopNavigation] sets the session to idle
    (not navigating, no active route, no current or next step) and drops
    the geolocation watch; the origin, destination, current position,
    remaining distance, remaining time and progress keep their values.  A
    second [stopNavigation] changes neither the session nor the refs nor
    the timers.  A position update after it records the position, sends
    the "userPositionUpdated" event and recomputes nothing. *)
Theorem stop_resets_route_and_steps_only (c : Session) (now : Z) (w : World) :
  let w' := stopNavigation c now w in
  (isNavigating (state w') = false /\ activeRoute (state w') = None /\
   currentStep (state w') = None /\ nextStep (state w') = None /\
   watchId w' = None) /\
  (origin (state w') = origin (state w) /\
   destination (state w') = destination (state w) /\
   currentPosition (state w') = currentPosition (state w) /\
   remainingDistance (state w') = remainingDistance (state w) /\
   remainingTime (state w') = remainingTime (state w) /\
   progress (state w') = progress (state w)) /\
  (forall c2 now2,
     let w'' := stopNavigation c2 now2 w' in
     state w'' = state w' /\ watchId w'' = watchId w' /\
     lastVoiceAlert w'' = lastVoiceAlert w' /\
     lastDistanceAlert w'' = lastDistanceAlert w' /\
     timers w'' = timers w') /\
  (forall p now2,
     let w'' := updateUserPosition (state w') p now2 w' in
     state w'' = setCurrentPosition (Some p) (state w') /\
     outputs w'' = (now2, Dispatch "userPositionUpdated") :: outputs w' /\
     watchId w'' = watchId w' /\
     lastVoiceAlert w'' = lastVoiceAlert w' /\
     lastDistanceAlert w'' = lastDistanceAlert w' /\
     timers w'' = timers w').
Proof.
  cbv zeta.
  pose proof (stopNavigation_fields c now w) as (Hs & Hwatch & Hv & Hl & Ht).
  set (w' := stopNavigation c now w) in *. clearbody w'.
  split; [| split; [| split]].
  - rewrite Hs. cbn. repeat split. exact Hwatch.
  - rewrite Hs. cbn. repeat split.
  - intros c2 now2.
    pose proof (stopNavigation_fields c2 now2 w') as (Hs2 & Hw2 & Hv2 & Hl2 & Ht2).
    rewrite Hs2, Hw2, Hv2, Hl2, Ht2, Hwatch, Hs. cbn. repeat split.
  - intros p now2.
    assert (Hnav : isNavigating (state w') = false) by (rewrite Hs; reflexivity).
    unfold updateUserPosition, when. rewrite Hnav. cbn. repeat split.
Qed.

Lemma start_then_stop (w0 : World) :
  let w := step 2000 EStop
             (step 1000 (EStart sampleRoute sampleOrigin sampleDestination) w0) in
  destination (state w) = Some sampleDestination /\
  origin (state w) = Some sampleOrigin /\
  remainingDistance (state w) = r_distance sampleRoute /\
  currentPosition (state w) = currentPosition (state w0) /\
  currentPosition (state (step 3000 (EPosition pointP) w)) = Some pointP.
Proof.
  cbv zeta. cbn [step].
  pose proof (start_session (state w0) sampleRoute sampleOrigin sampleDestination
                1000 w0) as Hs.
  cbv zeta in Hs. destruct Hs as (_ & _ & Ho & Hd & Hrd & _ & Hp & _).
  revert Ho Hd Hrd Hp.
  generalize (startNavigation (state w0) sampleRoute sampleOrigin
                sampleDestination 1000 w0).
  intros w1 Ho Hd Hrd Hp.
  pose proof (stopNavigation_fields (state w1) 2000 w1) as (Hstop & _).
  revert Hstop. generalize (stopNavigation (state w1) 2000 w1).
  intros w2 Hstop.
  assert (Hnav : isNavigating (state w2) = false) by (rewrite Hstop; reflexivity).
  unfold updateUserPosition, when. rewrite Hnav. cbn [andb].
  cbn [state dispatchEvent emit upd currentPosition setCurrentPosition].
  rewrite Hstop.
  cbn [destination origin remainingDistance currentPosition
       setNextStep setCurrentStep setActiveRoute setIsNavigating].
  rewrite Hd, Ho, Hrd, Hp. repeat split.
Qed.

(** C3 as stated fails: after [startNavigation] and [stopNavigation] on
    the sample route the destination, the origin and the remaining
    distance are still those of the stopped session, and the next
    position update changes the current position. *)
Lemma stop_keeps_fields_counterexample :
  let w := run [(1000, EStart sampleRoute sampleOrigin sampleDestination);
                (2000, EStop)]%Z (initialWorld true) in
  destination (state w) = Some sampleDestination /\
  origin (state w) = Some sampleOrigin /\
  remainingDistance (state w) = "6214.1 miles"%string /\
  currentPosition (state w) = None /\
  currentPosition (state (step 3000 (EPosition pointP) w)) = Some pointP.
Proof.
  exact (start_then_stop (initialWorld true)).
Qed.

(** ** Recalculation *)

(** C4, as the code has it.  With no current position or no destination
    [recalculateRoute] changes nothing, schedules nothing and returns from
    the async function: its promise is fulfilled, not rejected. *)
Theorem recalculate_guard_is_noop (c : Session) (now : Z) (w : World) :
  currentPosition c = None \/ destination c = None ->
  recalculateRoute c now w = (w, Fulfilled).
Proof.
  intros [H | H]; unfold recalculateRoute; rewrite H;
    [| destruct (currentPosition c)]; reflexivity.
Qed.

Lemma recalculate_guard_is_noop_witness :
  recalculateRoute initialSession 0 (initialWorld true) =
  (initialWorld true, Fulfilled).
Proof.
  apply recalculate_guard_is_noop. left. reflexivity.
Defined.

(** C4 as stated fails: in the initial session (no position, no
    destination) the promise of [recalculateRoute] is not rejected. *)
Lemma recalculate_guard_counterexample :
  snd (recalculateRoute initialSession 0 (initialWorld true)) <> Rejected /\
  snd (recalculateRoute initialSession 0 (initialWorld true)) = Fulfilled.
Proof.
  split; [discriminate | reflexivity].
Qed.

(** ** The distance-alert policy *)

Section DistanceAlerts.

Lemma ltb_true (x y : R) : Js.ltb x y = true <-> x < y.
Proof.
  unfold Js.ltb. destruct (Rlt_dec x y); split; intros H;
    try reflexivity; try assumption; try discriminate; contradiction.
Qed.

Lemma leb_true (x y : R) : Js.leb x y = true <-> x <= y.
Proof.
  unfold Js.leb. destruct (Rle_dec x y); split; intros H;
    try reflexivity; try assumption; try discriminate; contradiction.
Qed.

Lemma round_near (x : R) (k : Z) : Rabs (x - IZR k) < / 2 -> Js.round x = k.
Proof.
  intros H. apply Rabs_def2 in H. unfold Js.round.
  apply Zfloor_eq. lra.
Qed.

Lemma nearHalfMile_spec (d : R) :
  nearHalfMile d = true <-> nearHalfMileBoundary d.
Proof.
  unfold nearHalfMile, nearHalfMileBoundary, Js.abs. rewrite ltb_true. split.
  - intros H. exists (Js.round (d * 2)). now rewrite Rabs_minus_sym.
  - intros [k Hk].
    assert (Hr : Js.round (d * 2) = k).
    { apply round_near. apply Rabs_def2 in Hk. apply Rabs_def1; lra. }
    rewrite Hr. now rewrite Rabs_minus_sym.
Qed.

Lemma nearWholeMile_spec (d : R) :
  nearWholeMile d = true <-> nearWholeMileBoundary d.
Proof.
  unfold nearWholeMile, nearWholeMileBoundary, Js.abs. rewrite ltb_true. split.
  - intros H. exists (Js.round d). now rewrite Rabs_minus_sym.
  - intros [k Hk].
    assert (Hr : Js.round d = k).
    { apply round_near. apply Rabs_def2 in Hk. apply Rabs_def1; lra. }
    rewrite Hr. now rewrite Rabs_minus_sym.
Qed.

(** A whole mile is a half-mile boundary too. *)
Lemma whole_is_half (d : R) : nearWholeMileBoundary d -> nearHalfMileBoundary d.
Proof.
  intros [k Hk]. exists (2 * k)%Z. rewrite mult_IZR.
  replace (2 * IZR k / 2) with (IZR k) by lra. exact Hk.
Qed.

Lemma high_announces (d : R) :
  (nearHalfMile d || (Js.leb d 5 && nearWholeMile d) = true) <->
  (nearHalfMileBoundary d \/ (5 < d /\ nearWholeMileBoundary d)).
Proof.
  rewrite orb_true_iff, andb_true_iff, nearHalfMile_spec, nearWholeMile_spec.
  split.
  - intros [H | [_ H]]; left; [exact H | now apply whole_is_half].
  - intros [H | [_ H]]; left; [exact H | now apply whole_is_half].
Qed.

Lemma alertTimes_emit (now : Z) (o : Output) (w : World) :
  alertTimes (emit now o w) =
  if isDistanceAlert o then now :: alertTimes w else alertTimes w.
Proof.
  unfold alertTimes. cbn [outputs emit filter snd].
  destruct (isDistanceAlert o); reflexivity.
Qed.

Lemma alertInv_quiet (w w' : World) : quiet w w' -> alertInv w -> alertInv w'.
Proof.
  intros [_ Hl Ha _] [Hg Hf]. unfold alertInv. rewrite Hl, Ha. now split.
Qed.

Lemma alertInv_upd (f : Session -> Session) (w : World) :
  alertInv w -> alertInv (upd f w).
Proof. intros H. exact H. Qed.

Lemma alertInv_checkDistanceAnnouncement (c : Session) (d : R) (now : Z) (w : World) :
  alertInv w -> alertInv (checkDistanceAnnouncement c d now w).
Proof.
  intros [Hg Hf]. unfold checkDistanceAnnouncement.
  destruct (negb (voiceEnabled c) || isOff (distanceAlertFrequency c));
    [now split |].
  destruct (Z.ltb_spec (now - lastDistanceAlert w) 30000) as [Hlt | Hge];
    [now split |].
  destruct (distanceAnnouncement (distanceAlertFrequency c) d) as [message |];
    [| now split].
  unfold alertInv, gapsOk, alertTimes.
  cbn [outputs speak emit setLastDistanceAlert setLastVoiceAlert filter snd
       isDistanceAlert map fst lastDistanceAlert].
  fold (alertTimes w). split.
  - constructor; [| exact Hg].
    eapply Forall_impl; [| exact Hf]. cbv beta. intros t Ht. lia.
  - constructor; [lia |].
    eapply Forall_impl; [| exact Hf]. cbv beta. intros t Ht. lia.
Qed.

Lemma alertInv_updateNavigationProgress (c : Session) (p : Coord) (now : Z) (w : World) :
  alertInv w -> alertInv (updateNavigationProgress c p now w).
Proof.
  intros H. unfold updateNavigationProgress.
  destruct (activeRoute c) as [route |]; [| exact H].
  destruct (destination c) as [dest |]; [| exact H].
  unfold dispatchEvent.
  eapply alertInv_quiet; [apply quiet_emit; reflexivity |].
  eapply alertInv_quiet; [apply quiet_checkIfOffRoute |].
  eapply alertInv_quiet; [apply quiet_arrival |].
  eapply alertInv_quiet; [apply quiet_checkUpcomingTurn |].
  apply alertInv_checkDistanceAnnouncement.
  eapply alertInv_quiet; [apply quiet_updateNavigationStep |].
  do 3 apply alertInv_upd. exact H.
Qed.

Lemma alertInv_startNavigation
    (c : Session) (route : Route) (o d : Location) (now : Z) (w : World) :
  alertInv w -> alertInv (startNavigation c route o d now w).
Proof.
  intros H. unfold startNavigation.
  set (w1 := upd (setProgress (XFin 0)) _).
  assert (H1 : alertInv w1) by (unfold w1; do 7 apply alertInv_upd; exact H).
  clearbody w1.
  eapply alertInv_quiet; [| exact H1].
  unfold speak, toast, addNotification, dispatchEvent.
  destruct (generateNavigationSteps (r_path route)); quiet_peel.
Qed.

Lemma alertInv_recalculateResume
    (c : Session) (o d : Location) (random now : Z) (w : World) :
  alertInv w -> alertInv (fst (recalculateResume c o d random now w)).
Proof.
  intros H. unfold recalculateResume. cbn [fst].
  set (w1 := upd (setProgress (XFin 0)) _).
  assert (H1 : alertInv w1).
  { unfold w1. do 2 apply alertInv_upd.
    destruct (generateNavigationSteps _); repeat apply alertInv_upd; exact H. }
  clearbody w1.
  eapply alertInv_quiet; [| exact H1].
  unfold speak, toast, addNotification, dispatchEvent. quiet_peel.
Qed.

Lemma alertInv_step (now : Z) (e : Event) (w : World) :
  alertInv w -> alertInv (step now e w).
Proof.
  intros H. destruct e; cbn [step].
  - now apply alertInv_startNavigation.
  - eapply alertInv_quiet; [apply quiet_stopNavigation | exact H].
  - eapply alertInv_quiet; [apply quiet_recalculateRoute | exact H].
  - unfold updateUserPosition, dispatchEvent.
    eapply alertInv_quiet; [apply quiet_emit; reflexivity |].
    unfold when. destruct (isNavigating (state w) && isSome (activeRoute (state w))).
    + apply alertInv_updateNavigationProgress. now apply alertInv_upd.
    + now apply alertInv_upd.
  - destruct (watchClosure w) as [c |]; [| exact H].
    unfold watchCallback, when.
    destruct (isNavigating c && isSome (activeRoute c)).
    + apply alertInv_updateNavigationProgress. now apply alertInv_upd.
    + now apply alertInv_upd.
  - eapply alertInv_quiet; [apply quiet_toggleVoice | exact H].
  - eapply alertInv_quiet; [apply quiet_toggle3DMode | exact H].
  - now apply alertInv_upd.
  - destruct (nth_error (timers w) n) as [t |]; [| exact H].
    destruct (due t <=? now)%Z; [| exact H].
    assert (H' : alertInv (setTimers (removeNth n (timers w)) w)) by exact H.
    revert H'. generalize (setTimers (removeNth n (timers w)) w). intros w' H'.
    unfold runTimer. destruct (action t).
    + eapply alertInv_quiet; [apply quiet_stopNavigation | exact H'].
    + eapply alertInv_quiet; [apply quiet_recalculateRoute | exact H'].
    + now apply alertInv_recalculateResume.
Qed.

Lemma alertInv_run (events : list (Z * Event)) :
  forall w, alertInv w -> alertInv (run events w).
Proof.
  induction events as [| [now e] rest IH]; intros w H; [exact H |].
  cbn [run]. apply IH. now apply alertInv_step.
Qed.

End DistanceAlerts.

(** C7.  With the frequency "high", voice enabled and 30 seconds or more
    since the last distance alert, [checkDistanceAnnouncement] speaks (and
    records the time and the key "distance") exactly when the remaining
    distance is less than 0.05 miles from a half-mile boundary, or less
    than 0.05 miles from a whole-mile boundary with more than 5 miles
    left; otherwise it does nothing.  And in every run, whatever the
    frequency, any two distance alerts are 30 seconds or more apart. *)
Theorem distance_alert_policy :
  (forall (c : Session) (d : R) (now : Z) (w : World),
     voiceEnabled c = true ->
     distanceAlertFrequency c = High ->
     (30000 <= now - lastDistanceAlert w)%Z ->
     ((nearHalfMileBoundary d \/ (5 < d /\ nearWholeMileBoundary d)) ->
      checkDistanceAnnouncement c d now w =
      (w |> speak now SayDistance
              (Js.toFixed1 d ++ " miles remaining to your destination.")
         |> setLastDistanceAlert now
         |> setLastVoiceAlert "distance")) /\
     (~ (nearHalfMileBoundary d \/ (5 < d /\ nearWholeMileBoundary d)) ->
      checkDistanceAnnouncement c d now w = w)) /\
  (forall (geo : bool) (events : list (Z * Event)),
     gapsOk (alertTimes (run events (initialWorld geo)))).
Proof.
  split.
  - intros c d now w Hv Hf Ht.
    unfold checkDistanceAnnouncement. rewrite Hv, Hf. cbn [negb isOff orb].
    destruct (Z.ltb_spec (now - lastDistanceAlert w) 30000) as [Hlt | _]; [lia |].
    cbn [distanceAnnouncement].
    pose proof (high_announces d) as Hiff.
    destruct (nearHalfMile d || (Js.leb d 5 && nearWholeMile d)).
    + split; [reflexivity |]. intros Hn. exfalso. apply Hn. now apply Hiff.
    + split; [| reflexivity]. intros Hy. apply Hiff in Hy. discriminate.
  - intros geo events.
    apply (alertInv_run events (initialWorld geo)).
    split; constructor.
Qed.

(** The theorem above at 2 miles left, a whole minute after the epoch:
    the alert is spoken. *)
Lemma distance_alert_policy_witness :
  checkDistanceAnnouncement
    (setDistanceAlertFrequency High initialSession) 2 60000 (initialWorld true) =
  (initialWorld true
     |> speak 60000 SayDistance
          (Js.toFixed1 2 ++ " miles remaining to your destination.")
     |> setLastDistanceAlert 60000
     |> setLastVoiceAlert "distance").
Proof.
  apply (proj1 (proj1 distance_alert_policy
                  (setDistanceAlertFrequency High initialSession) 2 60000%Z
                  (initialWorld true) eq_refl eq_refl
                  ltac:(cbn; lia))).
  left. exists 4%Z. replace (2 - 4 / 2) with 0 by lra. rewrite Rabs_R0. lra.
Defined.

(** ** Distances between the sample points *)

Section SampleDistances.

Lemma atan2_pos_zero (y : R) : 0 < y -> Js.atan2 y 0 = PI / 2.
Proof.
  intros H. unfold Js.atan2.
  destruct (Rlt_dec 0 0); [lra |].
  destruct (Rlt_dec 0 y); [reflexivity | lra].
Qed.

Lemma atan2_diagonal (s : R) : 0 < s -> Js.atan2 s s = PI / 4.
Proof.
  intros H. unfold Js.atan2. destruct (Rlt_dec 0 s); [| lra].
  replace (s / s) with 1 by (field; lra). apply atan_1.
Qed.

Lemma calculateDistance_self (p : Coord) : calculateDistance p p = 0.
Proof.
  unfold calculateDistance. cbv zeta.
  replace (snd p * PI / 180 - snd p * PI / 180) with 0 by lra.
  replace (fst p * PI / 180 - fst p * PI / 180) with 0 by lra.
  replace (0 / 2) with 0 by lra. rewrite sin_0.
  replace (0 ^ 2 + cos (snd p * PI / 180) * cos (snd p * PI / 180) * 0 ^ 2)
    with 0 by lra.
  rewrite sqrt_0. replace (1 - 0) with 1 by lra. rewrite sqrt_1.
  rewrite atan2_zero_pos by lra. lra.
Qed.

(** Along the equator only the difference of longitudes counts. *)
Lemma calculateDistance_equator (x1 x2 : R) :
  calculateDistance (x1, 0) (x2, 0) =
  3956 * (2 * Js.atan2 (sqrt ((sin ((x2 - x1) * PI / 360)) ^ 2))
                       (sqrt (1 - (sin ((x2 - x1) * PI / 360)) ^ 2))).
Proof.
  unfold calculateDistance. cbn [fst snd]. cbv zeta.
  replace (0 * PI / 180) with 0 by lra.
  replace (0 - 0) with 0 by lra.
  replace (0 / 2) with 0 by lra.
  rewrite sin_0, cos_0.
  replace ((x2 * PI / 180 - x1 * PI / 180) / 2) with ((x2 - x1) * PI / 360) by lra.
  replace (0 ^ 2 + 1 * 1 * sin ((x2 - x1) * PI / 360) ^ 2)
    with (sin ((x2 - x1) * PI / 360) ^ 2) by lra.
  reflexivity.
Qed.

Lemma sin_quarter_sq : (sin (PI / 4)) ^ 2 = / 2.
Proof.
  rewrite sin_PI4.
  assert (Hs : sqrt 2 * sqrt 2 = 2) by (apply sqrt_sqrt; lra).
  assert (Hp : 0 < sqrt 2) by (apply sqrt_lt_R0; lra).
  field_simplify; [| lra]. replace (sqrt 2 ^ 2) with (sqrt 2 * sqrt 2) by ring.
  rewrite Hs. lra.
Qed.

Lemma half_turn_distance (x1 x2 : R) :
  x2 - x1 = 180 \/ x2 - x1 = -180 ->
  calculateDistance (x1, 0) (x2, 0) = 3956 * PI.
Proof.
  intros H. rewrite calculateDistance_equator.
  assert (Hsq : (sin ((x2 - x1) * PI / 360)) ^ 2 = 1).
  { destruct H as [H | H]; rewrite H.
    - replace (180 * PI / 360) with (PI / 2) by lra. rewrite sin_PI2. lra.
    - replace (-180 * PI / 360) with (- (PI / 2)) by lra.
      rewrite sin_neg, sin_PI2. lra. }
  rewrite Hsq. replace (1 - 1) with 0 by lra.
  rewrite sqrt_1, sqrt_0. rewrite atan2_pos_zero by lra. lra.
Qed.

Lemma quarter_turn_distance (x1 x2 : R) :
  x2 - x1 = 90 \/ x2 - x1 = -90 ->
  calculateDistance (x1, 0) (x2, 0) = 3956 * (PI / 2).
Proof.
  intros H. rewrite calculateDistance_equator.
  assert (Hsq : (sin ((x2 - x1) * PI / 360)) ^ 2 = / 2).
  { destruct H as [H | H]; rewrite H.
    - replace (90 * PI / 360) with (PI / 4) by lra. apply sin_quarter_sq.
    - replace (-90 * PI / 360) with (- (PI / 4)) by lra.
      rewrite sin_neg. rewrite <- sin_quarter_sq. ring. }
  rewrite Hsq. replace (1 - / 2) with (/ 2) by lra.
  rewrite atan2_diagonal by (apply sqrt_lt_R0; lra). lra.
Qed.

Lemma distance_P_A : calculateDistance pointP pointA = 3956 * PI.
Proof. apply half_turn_distance. right. lra. Qed.

Lemma distance_P_B : calculateDistance pointP pointB = 3956 * (PI / 2).
Proof. apply quarter_turn_distance. right. lra. Qed.

Lemma distance_A_B : calculateDistance pointA pointB = 3956 * (PI / 2).
Proof. apply quarter_turn_distance. left. lra. Qed.

Lemma distance_B_A : calculateDistance pointB pointA = 3956 * (PI / 2).
Proof. apply quarter_turn_distance. right. lra. Qed.

End SampleDistances.

(** ** What one position update does *)

Section UpdateEvaluation.

Lemma belowMin_true (d m : R) : d < m -> belowMin d (Some m) = true.
Proof. intros H. cbn [belowMin]. now apply ltb_true. Qed.

Lemma belowMin_false (d m : R) : m <= d -> belowMin d (Some m) = false.
Proof.
  intros H. cbn [belowMin]. unfold Js.ltb.
  destruct (Rlt_dec d m); [lra | reflexivity].
Qed.

(** The minimum found by the loop of [checkIfOffRoute] is below the
    distance to every point of the path. *)
Lemma minDistanceTo_acc (p : Coord) (path : list Coord) :
  forall a, exists m, minDistanceTo p path (Some a) = Some m /\ m <= a.
Proof.
  induction path as [| q rest IH]; intros a; cbn [minDistanceTo].
  - exists a. split; [reflexivity | lra].
  - cbn [belowMin]. unfold Js.ltb.
    destruct (Rlt_dec (calculateDistance p q) a) as [Hlt | Hge].
    + destruct (IH (calculateDistance p q)) as [m [Hm Hle]].
      exists m. split; [exact Hm | lra].
    + apply IH.
Qed.

Lemma minDistanceTo_le (p : Coord) (path : list Coord) (q : Coord) :
  In q path ->
  forall acc, exists m,
    minDistanceTo p path acc = Some m /\ m <= calculateDistance p q.
Proof.
  induction path as [| q' rest IH]; intros Hin acc; [destruct Hin |].
  cbn [minDistanceTo].
  destruct Hin as [Heq | Hin].
  - subst q'. destruct acc as [a |]; cbn [belowMin].
    + unfold Js.ltb. destruct (Rlt_dec (calculateDistance p q) a) as [Hlt | Hge].
      * apply minDistanceTo_acc.
      * destruct (minDistanceTo_acc p rest a) as [m [Hm Hle]].
        exists m. split; [exact Hm | lra].
    + apply minDistanceTo_acc.
  - destruct (belowMin (calculateDistance p q') acc); now apply IH.
Qed.

(** A position within 0.1 miles of some point of the path is on route. *)
Lemma offRoute_false (p : Coord) (path : list Coord) (q : Coord) :
  In q path -> calculateDistance p q <= 0.1 -> offRoute p path = false.
Proof.
  intros Hin Hd. unfold offRoute.
  destruct (minDistanceTo_le p path q Hin None) as [m [Hm Hle]].
  rewrite Hm. unfold Js.ltb. destruct (Rlt_dec 0.1 m); [lra | reflexivity].
Qed.

Lemma generateNavigationSteps_two (a b : Coord) :
  exists first arrival,
    generateNavigationSteps [a; b] = [first; arrival] /\
    coordinates first = a /\ maneuver arrival = Arrive.
Proof.
  unfold generateNavigationSteps.
  rewrite generate_long by (cbn [List.length]; lia).
  rewrite segmentSteps_cons. cbn [segmentSteps fst snd app map].
  eexists. eexists. split; [reflexivity |]. split; reflexivity.
Qed.

Lemma generateNavigationSteps_one (a : Coord) : generateNavigationSteps [a] = [].
Proof. reflexivity. Qed.

(** On a path of two points the step never advances: the points after
    the closest one are too few to generate a step. *)
Lemma updateNavigationStep_two_points
    (c : Session) (p : Coord) (now : Z) (w : World) (route : Route) (a b : Coord) :
  activeRoute c = Some route -> r_path route = [a; b] ->
  updateNavigationStep c p now w = w.
Proof.
  intros Hr Hp. unfold updateNavigationStep. rewrite Hr, Hp.
  destruct (currentStep c) as [current |]; [| reflexivity].
  cbn [closestPoint belowMin].
  destruct (Js.ltb (calculateDistance p b) (calculateDistance p a)).
  - cbn [Nat.ltb Nat.leb Nat.sub nth_error skipn].
    rewrite generateNavigationSteps_one.
    destruct (Js.eqb (fst (coordinates current)) (fst a) &&
              Js.eqb (snd (coordinates current)) (snd a)); reflexivity.
  - reflexivity.
Qed.

Lemma checkUpcomingTurn_no_turn (c : Session) (p : Coord) (now : Z) (w : World) (s : Step) :
  nextStep c = Some s -> isTurn (maneuver s) = false ->
  checkUpcomingTurn c p now w = w.
Proof.
  intros Hn Ht. unfold checkUpcomingTurn. rewrite Hn, Ht.
  destruct (currentStep c); [| reflexivity].
  rewrite orb_true_r. reflexivity.
Qed.

Lemma checkDistanceAnnouncement_off (c : Session) (d : R) (now : Z) (w : World) :
  distanceAlertFrequency c = Off -> checkDistanceAnnouncement c d now w = w.
Proof.
  intros H. unfold checkDistanceAnnouncement. rewrite H.
  cbn [isOff]. rewrite orb_true_r. reflexivity.
Qed.

(** What [checkIfOffRoute] does off the route. *)
Lemma checkIfOffRoute_off
    (c : Session) (p : Coord) (now : Z) (w : World) (route : Route) :
  activeRoute c = Some route -> offRoute p (r_path route) = true ->
  checkIfOffRoute c p now w =
  (w |> when (voiceEnabled c && negb (String.eqb (lastVoiceAlert w) "off-route"))
          (fun w =>
             w |> speak now SayOffRoute "You appear to be off route. Recalculating."
               |> setLastVoiceAlert "off-route")
     |> toast now "Off Route" "You appear to be off route. Recalculating..."
     |> addNotification now "warning" "Off Route"
          "You appear to be off route. Recalculating..."
     |> setTimeout now 3000 c TRecalculate).
Proof.
  intros Hr Hoff. unfold checkIfOffRoute. rewrite Hr, Hoff. reflexivity.
Qed.

Lemma checkIfOffRoute_on
    (c : Session) (p : Coord) (now : Z) (w : World) (route : Route) :
  activeRoute c = Some route -> offRoute p (r_path route) = false ->
  checkIfOffRoute c p now w = w.
Proof.
  intros Hr Hoff. unfold checkIfOffRoute. rewrite Hr, Hoff. reflexivity.
Qed.

Lemma offRoute_P : offRoute pointP (r_path sampleRoute) = true.
Proof.
  unfold offRoute. cbn [r_path sampleRoute minDistanceTo belowMin].
  pose proof PI_RGT_0 as Hpi.
  rewrite distance_P_A, distance_P_B.
  unfold Js.ltb.
  destruct (Rlt_dec (3956 * (PI / 2)) (3956 * PI)); [| lra].
  destruct (Rlt_dec 0.1 (3956 * (PI / 2))) as [_ | Hn]; [reflexivity |].
  pose proof PI_4 as H4. pose proof PI2_3_2 as H2. lra.
Qed.

Lemma offRoute_A : offRoute pointA (r_path sampleRoute) = false.
Proof.
  apply (offRoute_false pointA _ pointA).
  - cbn. left. reflexivity.
  - rewrite calculateDistance_self. lra.
Qed.

Lemma offRoute_B : offRoute pointB (r_path sampleRoute) = false.
Proof.
  apply (offRoute_false pointB _ pointB).
  - cbn. right. left. reflexivity.
  - rewrite calculateDistance_self. lra.
Qed.

Lemma far_from_B (p : Coord) :
  calculateDistance p pointB = 3956 * (PI / 2) ->
  Js.ltb (calculateDistance p pointB) 0.05 = false.
Proof.
  intros H. rewrite H. unfold Js.ltb.
  destruct (Rlt_dec (3956 * (PI / 2)) 0.05) as [Hlt | _]; [| reflexivity].
  pose proof PI2_3_2 as H2. lra.
Qed.

End UpdateEvaluation.

(** ** Pending timers *)

Section Timers.

Lemma timers_updateNavigationStep (c : Session) (p : Coord) (now : Z) (w : World) :
  timers (updateNavigationStep c p now w) = timers w.
Proof.
  unfold updateNavigationStep, when. repeat break_match; reflexivity.
Qed.

Lemma timers_checkUpcomingTurn (c : Session) (p : Coord) (now : Z) (w : World) :
  timers (checkUpcomingTurn c p now w) = timers w.
Proof.
  unfold checkUpcomingTurn. repeat break_match; reflexivity.
Qed.

Lemma timers_checkIfOffRoute (c : Session) (p : Coord) (now : Z) (w : World) (route : Route) :
  activeRoute c = Some route ->
  timers (checkIfOffRoute c p now w) =
  timers w ++ (if offRoute p (r_path route)
               then [mkTimer (now + 3000) c TRecalculate] else []).
Proof.
  intros Hr. unfold checkIfOffRoute, when. rewrite Hr.
  destruct (offRoute p (r_path route)).
  - destruct (voiceEnabled c && negb (String.eqb (lastVoiceAlert w) "off-route"));
      reflexivity.
  - now rewrite app_nil_r.
Qed.

(** The timers a position update adds: the stop after an arrival, the
    recalculation off the route. *)
Lemma timers_updateNavigationProgress
    (c : Session) (p : Coord) (now : Z) (w : World) (route : Route) (dest : Location) :
  activeRoute c = Some route -> destination c = Some dest ->
  timers (updateNavigationProgress c p now w) =
  timers w ++
  (if Js.ltb (calculateDistance p (l_coordinates dest)) 0.05
   then [mkTimer (now + 5000) c TStop] else []) ++
  (if offRoute p (r_path route)
   then [mkTimer (now + 3000) c TRecalculate] else []).
Proof.
  intros Hr Hd. unfold updateNavigationProgress. rewrite Hr, Hd.
  unfold dispatchEvent at 1. cbn [timers emit].
  rewrite (timers_checkIfOffRoute c p now _ route Hr).
  rewrite app_assoc. f_equal.
  unfold when at 1.
  destruct (Js.ltb (calculateDistance p (l_coordinates dest)) 0.05).
  - unfold setTimeout at 1. cbn [timers setTimers]. f_equal.
    unfold addNotification, toast. cbn [timers emit].
    unfold when.
    match goal with
    | |- timers (if ?b then _ else _) = _ => destruct b
    end; cbn [timers speak emit setLastVoiceAlert];
      rewrite timers_checkUpcomingTurn, timers_checkDistanceAnnouncement,
        timers_updateNavigationStep; reflexivity.
  - rewrite app_nil_r.
    rewrite timers_checkUpcomingTurn, timers_checkDistanceAnnouncement,
      timers_updateNavigationStep. reflexivity.
Qed.

Lemma extends_updateNavigationProgress (c : Session) (p : Coord) (now : Z) (w : World) :
  extends (timers w) (timers (updateNavigationProgress c p now w)).
Proof.
  destruct (activeRoute c) as [route |] eqn:Hr.
  - destruct (destination c) as [dest |] eqn:Hd.
    + rewrite (timers_updateNavigationProgress c p now w route dest Hr Hd).
      eexists. reflexivity.
    + rewrite progress_updateNavigationProgress_idle by (now right).
      apply extends_refl.
  - rewrite progress_updateNavigationProgress_idle by (now left).
    apply extends_refl.
Qed.

Lemma extends_startNavigation
    (c : Session) (route : Route) (o d : Location) (now : Z) (w : World) :
  extends (timers w) (timers (startNavigation c route o d now w)).
Proof.
  unfold startNavigation.
  set (w1 := upd (setProgress (XFin 0)) _).
  assert (H1 : timers w1 = timers w) by reflexivity.
  clearbody w1. rewrite <- H1.
  apply quiet_timers.
  unfold speak, toast, addNotification, dispatchEvent.
  destruct (generateNavigationSteps (r_path route)); quiet_peel.
Qed.

Lemma timers_startPositionTracking (c : Session) (now : Z) (w : World) :
  timers (startPositionTracking c now w) = timers w.
Proof.
  unfold startPositionTracking. repeat break_match; reflexivity.
Qed.

Lemma timers_emit (now : Z) (o : Output) (w : World) :
  timers (emit now o w) = timers w.
Proof. reflexivity. Qed.

Lemma timers_when_emit (b : bool) (now : Z) (o : Output) (w : World) :
  timers (when b (emit now o) w) = timers w.
Proof. destruct b; reflexivity. Qed.

Lemma timers_startNavigation
    (c : Session) (route : Route) (o d : Location) (now : Z) (w : World) :
  timers (startNavigation c route o d now w) = timers w.
Proof.
  unfold startNavigation, speak, toast, addNotification, dispatchEvent.
  cbv zeta.
  rewrite !timers_emit, timers_when_emit, timers_startPositionTracking.
  destruct (generateNavigationSteps (r_path route)); reflexivity.
Qed.

Lemma extends_step (now : Z) (e : Event) (w : World) :
  (forall n random, e <> EFire n random) ->
  extends (timers w) (timers (step now e w)).
Proof.
  intros Hne. destruct e; cbn [step].
  - apply extends_startNavigation.
  - apply quiet_timers, quiet_stopNavigation.
  - apply quiet_timers, quiet_recalculateRoute.
  - unfold updateUserPosition, dispatchEvent, when. cbn [timers emit].
    destruct (isNavigating (state w) && isSome (activeRoute (state w))).
    + apply (extends_updateNavigationProgress (state w) position now
               (upd (setCurrentPosition (Some position)) w)).
    + apply extends_refl.
  - destruct (watchClosure w) as [c |]; [| apply extends_refl].
    unfold watchCallback, when.
    destruct (isNavigating c && isSome (activeRoute c)).
    + apply (extends_updateNavigationProgress c position now
               (upd (setCurrentPosition (Some position)) w)).
    + apply extends_refl.
  - apply quiet_timers, quiet_toggleVoice.
  - apply quiet_timers, quiet_toggle3DMode.
  - apply extends_refl.
  - exfalso. now apply (Hne n random).
Qed.

Lemma extends_nth_error {A : Type} (l l' : list A) (n : nat) (x : A) :
  extends l l' -> nth_error l n = Some x -> nth_error l' n = Some x.
Proof.
  intros [more Hm] Hn. subst l'. rewrite nth_error_app1; [exact Hn |].
  apply nth_error_Some. rewrite Hn. discriminate.
Qed.

(** A due stop timer that fires stops whatever session is current. *)
Lemma fire_stop (now : Z) (n : nat) (random : Z) (w : World) (t : Timer) :
  nth_error (timers w) n = Some t -> (due t <= now)%Z -> action t = TStop ->
  isNavigating (state (step now (EFire n random) w)) = false /\
  activeRoute (state (step now (EFire n random) w)) = None /\
  currentStep (state (step now (EFire n random) w)) = None.
Proof.
  intros Hn Hdue Ha. cbn [step]. rewrite Hn.
  destruct (Z.leb_spec (due t) now) as [_ | Hgt]; [| lia].
  unfold runTimer. rewrite Ha.
  destruct (stopNavigation_fields (closure t) now
              (setTimers (removeNth n (timers w)) w)) as (Hs & _).
  rewrite Hs. repeat split.
Qed.

End Timers.

(** C2, as the code has it.  No timeout is ever cancelled: the source
    keeps no timer handle.  [stopNavigation] leaves the pending timers as
    they are, [recalculateRoute] and every other event but the firing of a
    timer only add to them, a timer fires once it is due, and a stop timer
    that fires then stops the session that is current at that moment. *)
Theorem timers_survive_stop_and_recalculate :
  (forall (c : Session) (now : Z) (w : World),
     timers (stopNavigation c now w) = timers w) /\
  (forall (c : Session) (now : Z) (w : World),
     extends (timers w) (timers (fst (recalculateRoute c now w)))) /\
  (forall (now : Z) (e : Event) (w : World),
     (forall n random, e <> EFire n random) ->
     extends (timers w) (timers (step now e w))) /\
  (forall (now : Z) (n : nat) (random : Z) (w : World) (t : Timer),
     nth_error (timers w) n = Some t -> (due t <= now)%Z -> action t = TStop ->
     isNavigating (state (step now (EFire n random) w)) = false /\
     activeRoute (state (step now (EFire n random) w)) = None /\
     currentStep (state (step now (EFire n random) w)) = None).
Proof.
  split; [| split; [| split]].
  - intros c now w. apply stopNavigation_fields.
  - intros c now w. apply quiet_timers, quiet_recalculateRoute.
  - exact extends_step.
  - exact fire_stop.
Qed.

(** The theorem above on a world with one due stop timer. *)
Lemma timers_survive_stop_and_recalculate_witness :
  isNavigating
    (state (step 5000 (EFire 0 0)
              (setTimers [mkTimer 5000 initialSession TStop] (initialWorld true))))
  = false.
Proof.
  apply (proj1 (proj2 (proj2 (proj2 timers_survive_stop_and_recalculate))
                 5000%Z 0%nat 0%Z
                 (setTimers [mkTimer 5000 initialSession TStop] (initialWorld true))
                 (mkTimer 5000 initialSession TStop)
                 eq_refl ltac:(cbn; lia) eq_refl)).
Defined.

(** At the destination of the sample route a position update schedules
    the stop, and nothing else. *)
Lemma arrival_schedules_stop (w : World) (now : Z) :
  isNavigating (state w) = true ->
  activeRoute (state w) = Some sampleRoute ->
  destination (state w) = Some sampleDestination ->
  timers (step now (EPosition pointB) w) =
  timers w ++ [mkTimer (now + 5000) (state w) TStop].
Proof.
  intros Hn Hr Hd.
  cbn [step]. unfold updateUserPosition, when, dispatchEvent.
  rewrite Hn, Hr. cbn [isSome andb]. rewrite timers_emit.
  rewrite (timers_updateNavigationProgress (state w) pointB now _
             sampleRoute sampleDestination Hr Hd).
  cbn [timers upd l_coordinates sampleDestination].
  rewrite calculateDistance_self, offRoute_B.
  unfold Js.ltb. destruct (Rlt_dec 0 0.05); [| lra].
  now rewrite app_nil_r.
Qed.

Section StaleTimer.

Variable w0 : World.
Hypothesis timers_w0 : timers w0 = [].

Let w1 := step 1000 (EStart sampleRoute sampleOrigin sampleDestination) w0.
Let w2 := step 2000 (EPosition pointB) w1.
Let w3 := step 3000 EStop w2.
Let w4 := step 4000 (EStart otherRoute sampleDestination sampleOrigin) w3.

Lemma stale_w1 :
  isNavigating (state w1) = true /\ activeRoute (state w1) = Some sampleRoute /\
  destination (state w1) = Some sampleDestination /\ timers w1 = [].
Proof.
  destruct (start_session (state w0) sampleRoute sampleOrigin
              sampleDestination 1000 w0) as (Hn & Hr & _ & Hd & _).
  repeat split; try assumption.
  unfold w1. cbn [step]. rewrite timers_startNavigation. exact timers_w0.
Qed.

Lemma stale_w2 : timers w2 = [mkTimer 7000 (state w1) TStop].
Proof.
  destruct stale_w1 as (Hn1 & Hr1 & Hd1 & Ht1).
  unfold w2. rewrite (arrival_schedules_stop w1 2000 Hn1 Hr1 Hd1).
  rewrite Ht1. reflexivity.
Qed.

Lemma stale_w4 :
  nth_error (timers w4) 0 = Some (mkTimer 7000 (state w1) TStop) /\
  isNavigating (state w4) = true /\ activeRoute (state w4) = Some otherRoute.
Proof.
  split.
  - apply (extends_nth_error (timers w3)).
    + unfold w4. apply extends_step. discriminate.
    + unfold w3. cbn [step].
      rewrite (proj2 (proj2 (proj2 (proj2 (stopNavigation_fields _ _ _))))).
      rewrite stale_w2. reflexivity.
  - destruct (start_session (state w3) otherRoute sampleDestination
                sampleOrigin 4000 w3) as (Hn & Hr & _).
    split; assumption.
Qed.

Lemma stale_fired :
  isNavigating (state (step 7000 (EFire 0 0) w4)) = false /\
  activeRoute (state (step 7000 (EFire 0 0) w4)) = None.
Proof.
  destruct stale_w4 as (Ht4 & _).
  assert (Hdue : (due (mkTimer 7000 (state w1) TStop) <= 7000)%Z)
    by (cbn [due]; lia).
  destruct (fire_stop 7000 0 0 w4 _ Ht4 Hdue eq_refl) as (Hf1 & Hf2 & _).
  split; assumption.
Qed.

End StaleTimer.

(** C2 as stated fails.  The sample route is started and the position
    reaches its destination, which schedules the stop 5000 ms later; the
    user stops at once and starts another route; when the old timer fires
    it is still pending, and it stops the new session. *)
Lemma stale_stop_timer_counterexample :
  let w := run [(1000, EStart sampleRoute sampleOrigin sampleDestination);
                (2000, EPosition pointB);
                (3000, EStop);
                (4000, EStart otherRoute sampleDestination sampleOrigin)]%Z
               (initialWorld true) in
  nth_error (timers w) 0 = Some (mkTimer 7000
     (state (step 1000 (EStart sampleRoute sampleOrigin sampleDestination)
               (initialWorld true))) TStop) /\
  isNavigating (state w) = true /\
  activeRoute (state w) = Some otherRoute /\
  isNavigating (state (step 7000 (EFire 0 0) w)) = false /\
  activeRoute (state (step 7000 (EFire 0 0) w)) = None.
Proof.
  pose proof (stale_w4 (initialWorld true) eq_refl) as (H1 & H2 & H3).
  pose proof (stale_fired (initialWorld true) eq_refl) as (H4 & H5).
  exact (conj H1 (conj H2 (conj H3 (conj H4 H5)))).
Qed.

(** ** Off-route handling *)

Section OffRoute.

Lemma minDistanceTo_attained (p : Coord) (path : list Coord) :
  forall acc,
    minDistanceTo p path acc = acc \/
    exists q, In q path /\ minDistanceTo p path acc = Some (calculateDistance p q).
Proof.
  induction path as [| q rest IH]; intros acc; cbn [minDistanceTo]; [now left |].
  destruct (belowMin (calculateDistance p q) acc).
  - right. destruct (IH (Some (calculateDistance p q))) as [H | [q' [Hin H]]].
    + exists q. split; [now left | exact H].
    + exists q'. split; [now right | exact H].
  - destruct (IH acc) as [H | [q' [Hin H]]]; [now left |].
    right. exists q'. split; [now right | exact H].
Qed.

(** [offRoute] holds exactly when every point of the path is more than
    0.1 miles away. *)
Lemma offRoute_spec (p : Coord) (path : list Coord) :
  offRoute p path = true <->
  Forall (fun q => 0.1 < calculateDistance p q) path.
Proof.
  unfold offRoute. split.
  - intros H. apply Forall_forall. intros q Hin.
    destruct (minDistanceTo_le p path q Hin None) as [m [Hm Hle]].
    rewrite Hm in H. apply ltb_true in H. lra.
  - intros Hall.
    destruct (minDistanceTo_attained p path None) as [H | [q [Hin H]]];
      rewrite H; [reflexivity |].
    apply ltb_true. rewrite Forall_forall in Hall. now apply Hall.
Qed.

Lemma countOutputs_emit (f : Output -> bool) (now : Z) (o : Output) (w : World) :
  countOutputs f (emit now o w) =
  if f o then S (countOutputs f w) else countOutputs f w.
Proof.
  unfold countOutputs. cbn [outputs emit filter snd].
  destruct (f o); reflexivity.
Qed.

Lemma checkIfOffRoute_observed
    (c : Session) (p : Coord) (now : Z) (w : World) (route : Route) :
  activeRoute c = Some route -> offRoute p (r_path route) = true ->
  let w' := checkIfOffRoute c p now w in
  state w' = state w /\
  timers w' = timers w ++ [mkTimer (now + 3000) c TRecalculate] /\
  countOutputs isOffRouteToast w' = S (countOutputs isOffRouteToast w) /\
  (voiceEnabled c = true /\ lastVoiceAlert w <> "off-route"%string ->
   countOutputs isOffRouteSpeech w' = S (countOutputs isOffRouteSpeech w) /\
   lastVoiceAlert w' = "off-route"%string) /\
  (voiceEnabled c = false \/ lastVoiceAlert w = "off-route"%string ->
   countOutputs isOffRouteSpeech w' = countOutputs isOffRouteSpeech w /\
   lastVoiceAlert w' = lastVoiceAlert w).
Proof.
  intros Hr Hoff. cbv zeta.
  rewrite (checkIfOffRoute_off c p now w route Hr Hoff).
  unfold when, setTimeout, addNotification, toast, speak, countOutputs.
  destruct (String.eqb_spec (lastVoiceAlert w) "off-route") as [Heq | Hne];
    destruct (voiceEnabled c); cbn;
    repeat split; try reflexivity;
    match goal with
    | H : _ /\ _ |- _ =>
        destruct H as [Hv Hl]; first [discriminate Hv | contradiction]
    | H : _ \/ _ |- _ =>
        destruct H as [Hv | Hl];
        first [discriminate Hv | contradiction | congruence]
    end.
Qed.

End OffRoute.

(** C5, as the code has it.  A position is off the route when every point
    of the path is more than 0.1 miles away.  Each update off the route
    shows the "Off Route" toast and schedules a recalculation 3000 ms
    later.  The spoken alert is made only with voice enabled and when the
    key of the last spoken alert is not "off-route", and then sets that
    key; otherwise nothing is spoken and the key stays.  An update on the
    route does nothing here, so it does not reset the key. *)
Theorem off_route_alert_policy
    (c : Session) (p : Coord) (now : Z) (w : World) (route : Route) :
  activeRoute c = Some route ->
  (offRoute p (r_path route) = true <->
   Forall (fun q => 0.1 < calculateDistance p q) (r_path route)) /\
  (offRoute p (r_path route) = true ->
   let w' := checkIfOffRoute c p now w in
   timers w' = timers w ++ [mkTimer (now + 3000) c TRecalculate] /\
   countOutputs isOffRouteToast w' = S (countOutputs isOffRouteToast w) /\
   (voiceEnabled c = true /\ lastVoiceAlert w <> "off-route"%string ->
    countOutputs isOffRouteSpeech w' = S (countOutputs isOffRouteSpeech w) /\
    lastVoiceAlert w' = "off-route"%string) /\
   (voiceEnabled c = false \/ lastVoiceAlert w = "off-route"%string ->
    countOutputs isOffRouteSpeech w' = countOutputs isOffRouteSpeech w /\
    lastVoiceAlert w' = lastVoiceAlert w)) /\
  (offRoute p (r_path route) = false -> checkIfOffRoute c p now w = w).
Proof.
  intros Hr. split; [apply offRoute_spec |]. split.
  - intros Hoff. apply (checkIfOffRoute_observed c p now w route Hr Hoff).
  - intros Hon. now apply (checkIfOffRoute_on c p now w route).
Qed.

(** The theorem above at [pointP], off the sample route: the
    recalculation is scheduled. *)
Lemma off_route_alert_policy_witness :
  timers (checkIfOffRoute (setActiveRoute (Some sampleRoute) initialSession)
            pointP 1000 (initialWorld true)) =
  [mkTimer 4000 (setActiveRoute (Some sampleRoute) initialSession) TRecalculate].
Proof.
  apply (proj1 (proj1 (proj2 (off_route_alert_policy
           (setActiveRoute (Some sampleRoute) initialSession)
           pointP 1000 (initialWorld true) sampleRoute eq_refl)) offRoute_P)).
Defined.

(** ** A run that leaves the route, returns and leaves again *)

Section OffRouteRun.

Lemma isTurn_arrive (s : Step) : maneuver s = Arrive -> isTurn (maneuver s) = false.
Proof. intros H. rewrite H. reflexivity. Qed.

(** Away from its destination, a position update on the sample route
    comes down to the session fields it recomputes, the off-route check
    and the two events. *)
Lemma update_on_sample (w : World) (p : Coord) (now : Z) :
  onSampleRoute w ->
  Js.ltb (calculateDistance p pointB) 0.05 = false ->
  exists g : Session -> Session,
    step now (EPosition p) w =
    dispatchEvent now "userPositionUpdated"
      (dispatchEvent now "navigationUpdated"
         (checkIfOffRoute (state w) p now (upd g w))) /\
    (forall s,
       isNavigating (g s) = isNavigating s /\
       activeRoute (g s) = activeRoute s /\
       destination (g s) = destination s /\
       voiceEnabled (g s) = voiceEnabled s /\
       distanceAlertFrequency (g s) = distanceAlertFrequency s /\
       nextStep (g s) = nextStep s).
Proof.
  intros (Hn & Hr & Hd & Hv & Hf & s & Hnext & Hm) Hfar.
  cbn [step]. unfold updateUserPosition.
  rewrite Hn, Hr. cbn [isSome andb]. unfold when at 1.
  unfold updateNavigationProgress. rewrite Hr, Hd.
  cbn [l_coordinates sampleDestination]. rewrite Hfar. unfold when at 1.
  rewrite (checkUpcomingTurn_no_turn (state w) p now _ s Hnext (isTurn_arrive s Hm)).
  rewrite (checkDistanceAnnouncement_off (state w) _ now _ Hf).
  rewrite (updateNavigationStep_two_points (state w) p now _ sampleRoute
             pointA pointB Hr eq_refl).
  eexists (fun s0 =>
             setProgress _ (setRemainingTime _ (setRemainingDistance _
               (setCurrentPosition (Some p) s0)))).
  split; [reflexivity |].
  intros s0. cbn. repeat split.
Qed.

Lemma onSampleRoute_same (w w' : World) (g : Session -> Session) :
  state w' = g (state w) ->
  (forall s,
     isNavigating (g s) = isNavigating s /\
     activeRoute (g s) = activeRoute s /\
     destination (g s) = destination s /\
     voiceEnabled (g s) = voiceEnabled s /\
     distanceAlertFrequency (g s) = distanceAlertFrequency s /\
     nextStep (g s) = nextStep s) ->
  onSampleRoute w -> onSampleRoute w'.
Proof.
  intros Hs Hg (Hn & Hr & Hd & Hv & Hf & s & Hnext & Hm).
  destruct (Hg (state w)) as (G1 & G2 & G3 & G4 & G5 & G6).
  unfold onSampleRoute. rewrite Hs, G1, G2, G3, G4, G5, G6.
  repeat split; try assumption. exists s. now split.
Qed.

(** An update off the sample route. *)
Lemma update_off_route (w : World) (p : Coord) (now : Z) :
  onSampleRoute w ->
  Js.ltb (calculateDistance p pointB) 0.05 = false ->
  offRoute p (r_path sampleRoute) = true ->
  let w' := step now (EPosition p) w in
  onSampleRoute w' /\
  lastVoiceAlert w' = "off-route"%string /\
  countOutputs isOffRouteSpeech w' =
    (if String.eqb (lastVoiceAlert w) "off-route"
     then countOutputs isOffRouteSpeech w
     else S (countOutputs isOffRouteSpeech w)) /\
  countOutputs isOffRouteToast w' = S (countOutputs isOffRouteToast w) /\
  List.length (timers w') = S (List.length (timers w)).
Proof.
  intros Hon Hfar Hoff. cbv zeta.
  destruct (update_on_sample w p now Hon Hfar) as (g & Hstep & Hg).
  rewrite Hstep.
  pose proof Hon as (_ & Hr & _ & Hv & _).
  pose proof (checkIfOffRoute_observed (state w) p now (upd g w) sampleRoute
                Hr Hoff) as Hobs.
  cbv zeta in Hobs. destruct Hobs as (Hst & Ht & Htoast & Hspeak & Hsilent).
  revert Hst Ht Htoast Hspeak Hsilent.
  generalize (checkIfOffRoute (state w) p now (upd g w)).
  intros x Hst Ht Htoast Hspeak Hsilent.
  unfold dispatchEvent. rewrite !countOutputs_emit.
  cbn [isOffRouteSpeech isOffRouteToast lastVoiceAlert timers emit].
  split; [| split; [| split; [| split]]].
  - apply (onSampleRoute_same w _ g); [| exact Hg | exact Hon].
    cbn [state emit]. rewrite Hst. reflexivity.
  - destruct (String.eqb_spec (lastVoiceAlert w) "off-route") as [Heq | Hne].
    + destruct Hsilent as (_ & Hl); [now right |]. rewrite Hl. exact Heq.
    + destruct Hspeak as (_ & Hl); [now split |]. exact Hl.
  - destruct (String.eqb_spec (lastVoiceAlert w) "off-route") as [Heq | Hne].
    + destruct Hsilent as (Hc & _); [now right |]. exact Hc.
    + destruct Hspeak as (Hc & _); [now split |]. exact Hc.
  - exact Htoast.
  - rewrite Ht, length_app. cbn [List.length timers upd]. lia.
Qed.

(** An update back on the sample route: the key of the last spoken alert
    stays. *)
Lemma update_on_route (w : World) (p : Coord) (now : Z) :
  onSampleRoute w ->
  Js.ltb (calculateDistance p pointB) 0.05 = false ->
  offRoute p (r_path sampleRoute) = false ->
  let w' := step now (EPosition p) w in
  onSampleRoute w' /\
  lastVoiceAlert w' = lastVoiceAlert w /\
  countOutputs isOffRouteSpeech w' = countOutputs isOffRouteSpeech w /\
  countOutputs isOffRouteToast w' = countOutputs isOffRouteToast w /\
  List.length (timers w') = List.length (timers w).
Proof.
  intros Hon Hfar Hoff. cbv zeta.
  destruct (update_on_sample w p now Hon Hfar) as (g & Hstep & Hg).
  rewrite Hstep.
  pose proof Hon as (_ & Hr & _).
  rewrite (checkIfOffRoute_on (state w) p now _ sampleRoute Hr Hoff).
  unfold dispatchEvent. rewrite !countOutputs_emit.
  cbn [isOffRouteSpeech isOffRouteToast lastVoiceAlert timers emit upd].
  split; [| repeat split].
  apply (onSampleRoute_same w _ g); [reflexivity | exact Hg | exact Hon].
Qed.

Lemma offroute_startPositionTracking (c : Session) (now : Z) (w : World) :
  lastVoiceAlert (startPositionTracking c now w) = lastVoiceAlert w /\
  countOutputs isOffRouteSpeech (startPositionTracking c now w) =
    countOutputs isOffRouteSpeech w /\
  countOutputs isOffRouteToast (startPositionTracking c now w) =
    countOutputs isOffRouteToast w.
Proof.
  unfold startPositionTracking, toast, countOutputs.
  repeat break_match; cbn; repeat split.
Qed.

Lemma lastVoiceAlert_emit (now : Z) (o : Output) (w : World) :
  lastVoiceAlert (emit now o w) = lastVoiceAlert w.
Proof. reflexivity. Qed.

Lemma lastVoiceAlert_upd (f : Session -> Session) (w : World) :
  lastVoiceAlert (upd f w) = lastVoiceAlert w.
Proof. reflexivity. Qed.

Lemma countOutputs_upd (p : Output -> bool) (f : Session -> Session) (w : World) :
  countOutputs p (upd f w) = countOutputs p w.
Proof. reflexivity. Qed.

(** [startNavigation] speaks and shows its own toast, neither about the
    route being left, and keeps the key of the last spoken alert. *)
Lemma start_observed
    (c : Session) (route : Route) (o d : Location) (now : Z) (w : World) :
  lastVoiceAlert (startNavigation c route o d now w) = lastVoiceAlert w /\
  countOutputs isOffRouteSpeech (startNavigation c route o d now w) =
    countOutputs isOffRouteSpeech w /\
  countOutputs isOffRouteToast (startNavigation c route o d now w) =
    countOutputs isOffRouteToast w.
Proof.
  unfold startNavigation, speak, toast, addNotification, dispatchEvent, when.
  cbv zeta.
  split; [| split].
  - destruct (voiceEnabled c); rewrite !lastVoiceAlert_emit;
      rewrite (proj1 (offroute_startPositionTracking _ _ _));
      destruct (generateNavigationSteps (r_path route));
      rewrite !lastVoiceAlert_upd; reflexivity.
  - destruct (voiceEnabled c); rewrite !countOutputs_emit;
      cbn [isOffRouteSpeech];
      rewrite (proj1 (proj2 (offroute_startPositionTracking _ _ _)));
      destruct (generateNavigationSteps (r_path route));
      rewrite !countOutputs_upd; reflexivity.
  - destruct (voiceEnabled c); rewrite !countOutputs_emit;
      cbn [isOffRouteToast String.eqb Ascii.eqb Bool.eqb];
      rewrite (proj2 (proj2 (offroute_startPositionTracking _ _ _)));
      destruct (generateNavigationSteps (r_path route));
      rewrite !countOutputs_upd; reflexivity.
Qed.

(** Starting the sample route with voice on and distance alerts off. *)
Lemma start_on_sample (w : World) (now : Z) :
  voiceEnabled (state w) = true ->
  distanceAlertFrequency (state w) = Off ->
  let w' := step now (EStart sampleRoute sampleOrigin sampleDestination) w in
  onSampleRoute w' /\
  lastVoiceAlert w' = lastVoiceAlert w /\
  countOutputs isOffRouteSpeech w' = countOutputs isOffRouteSpeech w /\
  countOutputs isOffRouteToast w' = countOutputs isOffRouteToast w /\
  timers w' = timers w.
Proof.
  intros Hv Hf. cbv zeta. cbn [step].
  destruct (start_observed (state w) sampleRoute sampleOrigin sampleDestination
              now w) as (Hk & Hs & Ho).
  split; [| split; [exact Hk | split; [exact Hs | split; [exact Ho |]]]].
  - pose proof (start_session (state w) sampleRoute sampleOrigin
                  sampleDestination now w) as Hs'.
    cbv zeta in Hs'.
    destruct Hs' as (Hn & Hr & _ & Hd & _ & _ & _ & Hv' & Hf' & Hsteps).
    unfold onSampleRoute. rewrite Hn, Hr, Hd, Hv', Hf', Hv, Hf.
    do 5 (split; [reflexivity |]).
    destruct (generateNavigationSteps_two pointA pointB)
      as (first & arrival & Hgen & _ & Harr).
    change (r_path sampleRoute) with [pointA; pointB] in Hsteps.
    rewrite Hgen in Hsteps. destruct Hsteps as (_ & Hnext).
    exists arrival. split; [exact Hnext | exact Harr].
  - apply timers_startNavigation.
Qed.

Variable w0 : World.
Hypothesis voice_w0 : voiceEnabled (state w0) = true.
Hypothesis key_w0 : lastVoiceAlert w0 = ""%string.
Hypothesis outputs_w0 : outputs w0 = [].
Hypothesis timers_w0 : timers w0 = [].

(** Distance alerts off, the sample route started, then four position
    updates: off the route, back at its first point, off again twice. *)
Lemma off_on_off_run :
  let w := run [(1000, ESetFrequency Off);
                (2000, EStart sampleRoute sampleOrigin sampleDestination);
                (3000, EPosition pointP);
                (3100, EPosition pointA);
                (3200, EPosition pointP);
                (3300, EPosition pointP)]%Z w0 in
  countOutputs isOffRouteSpeech w = 1%nat /\
  countOutputs isOffRouteToast w = 3%nat /\
  List.length (timers w) = 3%nat /\
  lastVoiceAlert w = "off-route"%string.
Proof.
  cbv zeta. cbn [run].
  assert (H1 : voiceEnabled (state (step 1000 (ESetFrequency Off) w0)) = true /\
               distanceAlertFrequency (state (step 1000 (ESetFrequency Off) w0)) = Off /\
               lastVoiceAlert (step 1000 (ESetFrequency Off) w0) = ""%string /\
               countOutputs isOffRouteSpeech (step 1000 (ESetFrequency Off) w0) = 0%nat /\
               countOutputs isOffRouteToast (step 1000 (ESetFrequency Off) w0) = 0%nat /\
               timers (step 1000 (ESetFrequency Off) w0) = []).
  { cbn [step]. unfold countOutputs.
    cbn [state upd voiceEnabled distanceAlertFrequency setDistanceAlertFrequency
         lastVoiceAlert outputs timers].
    rewrite voice_w0, key_w0, outputs_w0, timers_w0. repeat split. }
  revert H1. generalize (step 1000 (ESetFrequency Off) w0).
  intros w1 (Hv1 & Hf1 & Hk1 & Hs1 & Ho1 & Ht1).
  pose proof (start_on_sample w1 2000 Hv1 Hf1) as H2. cbv zeta in H2.
  revert H2.
  generalize (step 2000 (EStart sampleRoute sampleOrigin sampleDestination) w1).
  intros w2 (Hon2 & Hk2 & Hs2 & Ho2 & Ht2).
  pose proof (update_off_route w2 pointP 3000 Hon2
                (far_from_B pointP distance_P_B) offRoute_P) as H3.
  cbv zeta in H3. revert H3. generalize (step 3000 (EPosition pointP) w2).
  intros w3 (Hon3 & Hk3 & Hs3 & Ho3 & Ht3).
  pose proof (update_on_route w3 pointA 3100 Hon3
                (far_from_B pointA distance_A_B) offRoute_A) as H4.
  cbv zeta in H4. revert H4. generalize (step 3100 (EPosition pointA) w3).
  intros w4 (Hon4 & Hk4 & Hs4 & Ho4 & Ht4).
  pose proof (update_off_route w4 pointP 3200 Hon4
                (far_from_B pointP distance_P_B) offRoute_P) as H5.
  cbv zeta in H5. revert H5. generalize (step 3200 (EPosition pointP) w4).
  intros w5 (Hon5 & Hk5 & Hs5 & Ho5 & Ht5).
  pose proof (update_off_route w5 pointP 3300 Hon5
                (far_from_B pointP distance_P_B) offRoute_P) as H6.
  cbv zeta in H6. revert H6. generalize (step 3300 (EPosition pointP) w5).
  intros w6 (Hon6 & Hk6 & Hs6 & Ho6 & Ht6).
  rewrite Hk5 in Hs6. rewrite Hk4, Hk3 in Hs5. rewrite Hk2, Hk1 in Hs3.
  cbn in Hs3, Hs5, Hs6.
  rewrite Ht2, Ht1 in Ht3. cbn [List.length] in Ht3.
  split; [lia |]. split; [lia |]. split; [lia | exact Hk6].
Qed.

End OffRouteRun.

(** C5 as stated fails.  In this run the position leaves the route,
    returns within range and leaves again, twice over; the alert is spoken
    once only, since nothing reset the key "off-route", while the toast is
    shown and a recalculation scheduled at each of the three updates off
    the route. *)
Lemma off_route_alert_counterexample :
  let w := run [(1000, ESetFrequency Off);
                (2000, EStart sampleRoute sampleOrigin sampleDestination);
                (3000, EPosition pointP);
                (3100, EPosition pointA);
                (3200, EPosition pointP);
                (3300, EPosition pointP)]%Z (initialWorld true) in
  countOutputs isOffRouteSpeech w = 1%nat /\
  countOutputs isOffRouteToast w = 3%nat /\
  List.length (timers w) = 3%nat /\
  lastVoiceAlert w = "off-route"%string.
Proof.
  exact (off_on_off_run (initialWorld true) eq_refl eq_refl eq_refl eq_refl).
Qed.

(** ** Further properties of the geo-math helpers *)

Section GeoMath.

(** The haversine term [a] of [calculateDistance]. *)
Lemma haversine_term_range (lat1 lat2 dlng : R) :
  0 <= (sin ((lat2 - lat1) / 2)) ^ 2 + cos lat1 * cos lat2 * (sin (dlng / 2)) ^ 2 <= 1.
Proof.
  assert (Hhalf : forall x, (sin (x / 2)) ^ 2 = (1 - cos x) / 2).
  { intros x. pose proof (cos_2a_sin (x / 2)) as H.
    replace (2 * (x / 2)) with x in H by lra.
    replace (sin (x / 2) ^ 2) with (sin (x / 2) * sin (x / 2)) by ring. lra. }
  assert (Hprod : cos lat1 * cos lat2 =
                  (cos (lat2 - lat1) + cos (lat2 + lat1)) / 2).
  { rewrite cos_minus, cos_plus. lra. }
  rewrite Hprod, !Hhalf.
  pose proof (COS_bound (lat2 - lat1)) as [Hu1 Hu2].
  pose proof (COS_bound (lat2 + lat1)) as [Hv1 Hv2].
  pose proof (COS_bound dlng) as [Hw1 Hw2].
  split; nra.
Qed.

Lemma atan2_quadrant (y x : R) : 0 <= y -> 0 <= x -> 0 <= Js.atan2 y x <= PI / 2.
Proof.
  intros Hy Hx. unfold Js.atan2. pose proof PI_RGT_0 as Hpi.
  destruct (Rlt_dec 0 x) as [Hpos | Hn].
  - pose proof (atan_bound (y / x)) as Hb.
    assert (Hq : 0 <= y / x).
    { unfold Rdiv. apply Rmult_le_pos; [exact Hy |].
      left. now apply Rinv_0_lt_compat. }
    split; [| lra].
    rewrite <- atan_0. destruct Hq as [Hq | Hq].
    + left. now apply atan_increasing.
    + rewrite <- Hq. lra.
  - destruct (Rlt_dec x 0); [lra |].
    destruct (Rlt_dec 0 y); [lra |].
    destruct (Rlt_dec y 0); lra.
Qed.

Lemma calculateDistance_range (p q : Coord) :
  0 <= calculateDistance p q <= 3956 * PI.
Proof.
  unfold calculateDistance. cbv zeta.
  match goal with
  | |- 0 <= 3956 * (2 * Js.atan2 ?y ?x) <= _ =>
      pose proof (atan2_quadrant y x (sqrt_pos _) (sqrt_pos _)) as H
  end.
  lra.
Qed.

Lemma calculateDistance_sym (p q : Coord) :
  calculateDistance p q = calculateDistance q p.
Proof.
  unfold calculateDistance. cbv zeta.
  assert (Hsq : forall x y, (sin ((y - x) / 2)) ^ 2 = (sin ((x - y) / 2)) ^ 2).
  { intros x y. replace ((x - y) / 2) with (- ((y - x) / 2)) by lra.
    rewrite sin_neg. ring. }
  rewrite (Hsq (snd p * PI / 180) (snd q * PI / 180)).
  rewrite (Hsq (fst p * PI / 180) (fst q * PI / 180)).
  rewrite (Rmult_comm (cos (snd p * PI / 180)) (cos (snd q * PI / 180))).
  reflexivity.
Qed.

Lemma round_mid (x : R) (k : Z) :
  IZR k - / 2 <= x < IZR k + / 2 -> Js.round x = k.
Proof.
  intros H. unfold Js.round. apply Zfloor_eq. lra.
Qed.

End GeoMath.

(** X1. The great-circle distance is a number between 0 and half the
    circumference 3956 pi, and the haversine term under its square roots
    lies between 0 and 1, so both roots are of non-negative numbers. *)
Theorem distance_bounds (p q : Coord) :
  0 <= calculateDistance p q <= 3956 * PI /\
  let a := (sin ((snd q * PI / 180 - snd p * PI / 180) / 2)) ^ 2 +
           cos (snd p * PI / 180) * cos (snd q * PI / 180) *
           (sin ((fst q * PI / 180 - fst p * PI / 180) / 2)) ^ 2 in
  0 <= a <= 1 /\
  calculateDistance p q = 3956 * (2 * Js.atan2 (sqrt a) (sqrt (1 - a))).
Proof.
  split; [apply calculateDistance_range |].
  cbv zeta. split; [apply haversine_term_range | reflexivity].
Qed.

(** X2. The distance is symmetric, and zero from a point to itself. *)
Theorem distance_symmetric_zero_on_diagonal (p q : Coord) :
  calculateDistance p q = calculateDistance q p /\ calculateDistance p p = 0.
Proof.
  split; [apply calculateDistance_sym | apply calculateDistance_self].
Qed.

(** X3. The compass label changes at the odd multiples of 22.5 degrees: a
    non-negative bearing in the sector [45 k - 22.5, 45 k + 22.5) gets the
    label number [k mod 8], so 360 wraps to north and a boundary bearing
    takes the label of the sector that starts there. *)
Theorem direction_sector (bearing : R) (k : Z) :
  (0 <= k)%Z ->
  45 * IZR k - 22.5 <= bearing < 45 * IZR k + 22.5 ->
  getDirectionFromBearing bearing = nth_error directions (Z.to_nat (k mod 8)).
Proof.
  intros Hk Hb. unfold getDirectionFromBearing, direction_index.
  rewrite (round_mid (bearing / 45) k) by (split; lra).
  rewrite Z.rem_mod_nonneg by lia.
  unfold lookup_index.
  pose proof (Z.mod_pos_bound k 8 ltac:(lia)) as Hm.
  destruct (Z.ltb_spec (k mod 8) 0) as [Hneg | _]; [lia | reflexivity].
Qed.

Lemma direction_sector_witness :
  getDirectionFromBearing 350 = nth_error directions (Z.to_nat (8 mod 8)).
Proof.
  apply (direction_sector 350 8); [lia | lra].
Defined.

(** X4. A bearing between -337.5 and -22.5 degrees has no label: the
    remainder keeps the sign of the rounded quotient, the index is
    negative and the lookup gives [undefined]. *)
Theorem direction_of_negative_bearing (bearing : R) :
  -337.5 <= bearing < -22.5 ->
  (-8 < direction_index bearing < 0)%Z /\
  getDirectionFromBearing bearing = None.
Proof.
  intros Hb.
  assert (Hr : (-8 < Js.round (bearing / 45) < 0)%Z).
  { unfold Js.round.
    pose proof (Zfloor_bound (bearing / 45 + / 2)) as [Hlo Hhi].
    split.
    - apply lt_IZR. lra.
    - apply lt_IZR. lra. }
  assert (Hi : (-8 < direction_index bearing < 0)%Z).
  { unfold direction_index.
    rewrite <- (Z.opp_involutive (Js.round (bearing / 45))).
    rewrite Z.rem_opp_l by lia.
    rewrite Z.rem_small by lia. lia. }
  split; [exact Hi |].
  unfold getDirectionFromBearing, lookup_index.
  destruct (Z.ltb_spec (direction_index bearing) 0) as [_ | Hge]; [reflexivity | lia].
Qed.

Lemma direction_of_negative_bearing_witness :
  getDirectionFromBearing (-45) = None.
Proof.
  apply (direction_of_negative_bearing (-45)). lra.
Defined.

(** ** Further properties of the instruction generator *)

Section GeneratorMore.

Lemma segmentSteps_bearings (path : list Coord) :
  forall prev,
    Forall (fun step => 0 <= bearing step < 360) (fst (segmentSteps prev path)).
Proof.
  induction path as [| a rest IH]; intros prev; [constructor |].
  destruct rest as [| b rest]; [constructor |].
  rewrite segmentSteps_cons. cbn [fst]. constructor.
  - apply calculateBearing_range.
  - apply IH.
Qed.

(** At loop exit [prevBearing] is the bearing of the last step pushed. *)
Lemma segmentSteps_last_bearing (path : list Coord) :
  forall prev step,
    (2 <= List.length path)%nat ->
    snd (segmentSteps prev path) =
    Some (bearing (last (fst (segmentSteps prev path)) step)).
Proof.
  induction path as [| a rest IH]; intros prev step Hlen;
    [cbn [List.length] in Hlen; lia |].
  destruct rest as [| b rest]; [cbn [List.length] in Hlen; lia |].
  rewrite segmentSteps_cons. cbn [fst snd].
  destruct rest as [| c rest].
  - reflexivity.
  - rewrite (IH (Some (calculateBearing a b)) step) by (cbn [List.length]; lia).
    rewrite (segmentSteps_cons _ b c rest). cbn [fst last].
    destruct (fst (segmentSteps (Some (calculateBearing b c)) (c :: rest)));
      reflexivity.
Qed.

Lemma turn_multiple (a0 delta : R) (k : Z) :
  -360 < a0 < 360 -> -180 < delta < 180 -> delta = a0 + 360 * IZR k ->
  (k = -1 \/ k = 0 \/ k = 1)%Z.
Proof.
  intros Ha Hd Hk.
  assert (H1 : (-2 < k)%Z) by (apply lt_IZR; lra).
  assert (H2 : (k < 2)%Z) by (apply lt_IZR; lra).
  lia.
Qed.

(** The two corrections of [generateTurnInstruction] bring the difference
    of two bearings to the turn measured the short way round. *)
Lemma turn_angle_normalised (prev cur delta : R) :
  0 <= prev < 360 -> 0 <= cur < 360 -> -180 < delta < 180 ->
  (exists k : Z, delta = cur - prev + 360 * IZR k) ->
  (let angle := cur - prev in
   let angle := if Rlt_dec angle (-180) then angle + 360 else angle in
   if Rlt_dec 180 angle then angle - 360 else angle) = delta.
Proof.
  intros Hp Hc Hd [k Hk]. cbv zeta.
  destruct (turn_multiple (cur - prev) delta k ltac:(lra) Hd Hk) as [K | [K | K]];
    subst k; cbn [IZR IPR] in Hk;
    destruct (Rlt_dec (cur - prev) (-180));
    match goal with
    | |- (if Rlt_dec 180 ?x then _ else _) = _ => destruct (Rlt_dec 180 x)
    end; lra.
Qed.

End GeneratorMore.

(** X5. The wording of a turn follows the turn angle measured the short
    way round (between -180 and 180 degrees) with the thresholds 20, 60
    and 120: below 20 degrees either way the instruction is "Continue
    straight", from 20 it is a slight turn, from 60 a turn, from 120 a
    sharp turn, to the right for a positive angle and to the left for a
    negative one. *)
Theorem turn_instruction_wording (prev cur d delta : R) :
  0 <= prev < 360 -> 0 <= cur < 360 -> -180 < delta < 180 ->
  (exists k : Z, delta = cur - prev + 360 * IZR k) ->
  let text direction :=
    ("Turn " ++ direction ++ " and continue for " ++ Js.toFixed1 d ++ " miles")%string in
  (Rabs delta < 20 ->
   generateTurnInstruction (Some prev) cur d =
   ("Continue straight for " ++ Js.toFixed1 d ++ " miles")%string) /\
  (20 <= delta < 60 ->
   generateTurnInstruction (Some prev) cur d = text "slight right"%string) /\
  (60 <= delta < 120 ->
   generateTurnInstruction (Some prev) cur d = text "right"%string) /\
  (120 <= delta ->
   generateTurnInstruction (Some prev) cur d = text "sharp right"%string) /\
  (-60 < delta <= -20 ->
   generateTurnInstruction (Some prev) cur d = text "slight left"%string) /\
  (-120 < delta <= -60 ->
   generateTurnInstruction (Some prev) cur d = text "left"%string) /\
  (delta <= -120 ->
   generateTurnInstruction (Some prev) cur d = text "sharp left"%string).
Proof.
  intros Hp Hc Hd Hk. cbv zeta.
  pose proof (turn_angle_normalised prev cur delta Hp Hc Hd Hk) as Hn.
  cbv zeta in Hn.
  unfold generateTurnInstruction. cbv zeta. rewrite Hn.
  unfold Js.abs, Js.leb, Js.ltb.
  repeat split; intros H;
    destruct (Rlt_dec (Rabs delta) 20) as [Ha | Ha];
    try (unfold Rabs in Ha; destruct (Rcase_abs delta); lra);
    try (unfold Rabs in H; destruct (Rcase_abs delta); lra);
    try reflexivity;
    repeat match goal with
           | |- context [Rle_dec ?x ?y] => destruct (Rle_dec x y); try lra
           | |- context [Rlt_dec ?x ?y] => destruct (Rlt_dec x y); try lra
           end;
    cbn [andb]; try reflexivity.
Qed.

(** The theorem above for the bearings 350 then 10: a turn of 20 degrees
    to the right, worded "slight right". *)
Lemma turn_instruction_wording_witness :
  generateTurnInstruction (Some 350) 10 1 =
  ("Turn slight right and continue for " ++ Js.toFixed1 1 ++ " miles")%string.
Proof.
  refine (proj1 (proj2 (turn_instruction_wording 350 10 1 20 _ _ _ _)) _);
    try lra.
  exists 1%Z. lra.
Defined.

(** X6. Every step carries a bearing in [0, 360), and the arrival step
    repeats the bearing of the last travel step. *)
Theorem generated_bearings (path : list Coord) :
  Forall (fun step => 0 <= bearing step < 360)
         (generateDetailedNavigationSteps path) /\
  ((2 <= List.length path)%nat ->
   forall default,
     bearing (last (generateDetailedNavigationSteps path) default) =
     bearing (last (removelast (generateDetailedNavigationSteps path)) default)).
Proof.
  destruct (Nat.ltb_spec (List.length path) 2) as [Hlt | Hge].
  - rewrite generate_short by exact Hlt. split; [constructor | lia].
  - rewrite generate_long by exact Hge.
    pose proof (segmentSteps_bearings path None) as Hall.
    assert (Hne : fst (segmentSteps None path) <> []).
    { intros Hnil. pose proof (segmentSteps_length path None) as Hl.
      rewrite Hnil in Hl. cbn [List.length] in Hl. lia. }
    split.
    + apply Forall_app. split; [exact Hall |].
      constructor; [| constructor].
      cbn [bearing arrivalStep].
      rewrite (segmentSteps_last_bearing path None
                 (arrivalStep (0, 0) None) Hge).
      rewrite Forall_forall in Hall. apply Hall.
      destruct (exists_last Hne) as (l & x & Hlx). rewrite Hlx.
      rewrite last_last. apply in_or_app. right. now left.
    + intros _ default. rewrite last_last, removelast_last.
      cbn [bearing arrivalStep].
      rewrite (segmentSteps_last_bearing path None default Hge).
      reflexivity.
Qed.

Lemma generated_bearings_witness :
  bearing (last (generateDetailedNavigationSteps [(0, 0); (0, 1)])
                (arrivalStep (0, 0) None)) =
  bearing (last (removelast (generateDetailedNavigationSteps [(0, 0); (0, 1)]))
                (arrivalStep (0, 0) None)).
Proof.
  apply (proj2 (generated_bearings [(0, 0); (0, 1)])).
  cbn [List.length]. lia.
Defined.

(** X7. With two points or more the first step starts at the first point,
    has the maneuver "straight" and reads "Head <label> for <d> miles",
    where the label is one of the eight compass labels (never
    "undefined") and d is the length of the first segment. *)
Theorem first_step_heads (a b : Coord) (rest : list Coord) :
  exists first others label,
    generateDetailedNavigationSteps (a :: b :: rest) = first :: others /\
    coordinates first = a /\
    maneuver first = Straight /\
    bearing first = calculateBearing a b /\
    In label directions /\
    instruction first =
      ("Head " ++ label ++ " for " ++
       Js.toFixed1 (calculateDistance a b) ++ " miles")%string /\
    distance first = (Js.toFixed1 (calculateDistance a b) ++ " miles")%string.
Proof.
  rewrite generate_long by (cbn [List.length]; lia).
  rewrite segmentSteps_cons. cbn [fst snd app].
  destruct (lookup_directions (direction_index (calculateBearing a b))
              (direction_index_valid _ (proj1 (calculateBearing_range a b))))
    as (label & Hlabel & Hin).
  eexists. eexists. exists label.
  split; [reflexivity |].
  split; [reflexivity |]. split; [reflexivity |]. split; [reflexivity |].
  split; [exact Hin |]. split; [| reflexivity].
  cbn [instruction segmentStep]. unfold generateTurnInstruction.
  unfold getDirectionFromBearing. rewrite Hlabel. reflexivity.
Qed.

(** ** The closest point of the path *)

Section ClosestPoint.

Variable position : Coord.

Local Abbreviation dist q := (calculateDistance position q).

(** The loop from index [i0] on, with the minimum [acc] found so far at
    index [idx]: either nothing on the rest of the path is below [acc],
    or the result is the first point of the rest that attains the
    minimum, which is below [acc]. *)
Lemma closestPoint_loop (path : list Coord) :
  forall i0 acc idx,
    (closestPoint position path i0 acc idx = (acc, idx) /\
     forall k q, nth_error path k = Some q -> belowMin (dist q) acc = false) \/
    (exists k q,
       nth_error path k = Some q /\
       closestPoint position path i0 acc idx = (Some (dist q), (i0 + k)%nat) /\
       belowMin (dist q) acc = true /\
       (forall k' q', nth_error path k' = Some q' -> dist q <= dist q') /\
       (forall k' q', (k' < k)%nat -> nth_error path k' = Some q' ->
                      dist q < dist q')).
Proof.
  induction path as [| q rest IH]; intros i0 acc idx.
  - left. split; [reflexivity |]. intros [| k] q' H; discriminate.
  - cbn [closestPoint].
    destruct (belowMin (dist q) acc) eqn:Hb.
    + right.
      destruct (IH (S i0) (Some (dist q)) i0)
        as [[Heq Hall] | (k & q' & Hn & Heq & Hlt & Hmin & Hfirst)].
      * exists 0%nat, q. rewrite Heq, Nat.add_0_r.
        split; [reflexivity |]. split; [reflexivity |]. split; [exact Hb |].
        split.
        -- intros [| k'] q' Hn; cbn [nth_error] in Hn.
           ++ injection Hn as <-. lra.
           ++ specialize (Hall k' q' Hn). cbn [belowMin] in Hall.
              unfold Js.ltb in Hall.
              destruct (Rlt_dec (dist q') (dist q)); [discriminate | lra].
        -- intros k' q' Hk. lia.
      * exists (S k), q'. rewrite Heq.
        cbn [belowMin] in Hlt. apply ltb_true in Hlt.
        split; [exact Hn |].
        split; [f_equal; lia |].
        split.
        -- destruct acc as [a |]; [| reflexivity].
           cbn [belowMin] in Hb |- *. apply ltb_true in Hb. apply ltb_true. lra.
        -- split.
           ++ intros [| k'] q'' Hn'; cbn [nth_error] in Hn'.
              ** injection Hn' as <-. lra.
              ** now apply (Hmin k').
           ++ intros [| k'] q'' Hk Hn'; cbn [nth_error] in Hn'.
              ** injection Hn' as <-. exact Hlt.
              ** apply (Hfirst k'); [lia | exact Hn'].
    + destruct (IH (S i0) acc idx)
        as [[Heq Hall] | (k & q' & Hn & Heq & Hlt & Hmin & Hfirst)].
      * left. split; [exact Heq |].
        intros [| k'] q' Hn; cbn [nth_error] in Hn.
        -- injection Hn as <-. exact Hb.
        -- now apply (Hall k').
      * right. exists (S k), q'. rewrite Heq.
        assert (Hq : dist q' < dist q).
        { destruct acc as [a |]; [| discriminate].
          cbn [belowMin] in Hb, Hlt. apply ltb_true in Hlt.
          unfold Js.ltb in Hb. destruct (Rlt_dec (dist q) a); [discriminate | lra]. }
        split; [exact Hn |].
        split; [f_equal; lia |].
        split; [exact Hlt |].
        split.
        -- intros [| k'] q'' Hn'; cbn [nth_error] in Hn'.
           ++ injection Hn' as <-. lra.
           ++ now apply (Hmin k').
        -- intros [| k'] q'' Hk Hn'; cbn [nth_error] in Hn'.
           ++ injection Hn' as <-. exact Hq.
           ++ apply (Hfirst k'); [lia | exact Hn'].
Qed.

End ClosestPoint.

(** X8. On a non-empty path the loop of [updateNavigationStep] returns a
    valid index: the first point of the path at the minimum distance from
    the position (an earlier point is strictly farther, no point is
    nearer). *)
Theorem closest_point_is_first_minimum (position : Coord) (path : list Coord) :
  path <> [] ->
  exists i q,
    closestPoint position path 0 None 0 = (Some (calculateDistance position q), i) /\
    nth_error path i = Some q /\
    (forall j q', nth_error path j = Some q' ->
                  calculateDistance position q <= calculateDistance position q') /\
    (forall j q', (j < i)%nat -> nth_error path j = Some q' ->
                  calculateDistance position q < calculateDistance position q').
Proof.
  intros Hne.
  destruct (closestPoint_loop position path 0 None 0)
    as [[_ Hall] | (k & q & Hn & Heq & _ & Hmin & Hfirst)].
  - destruct path as [| q rest]; [contradiction |].
    specialize (Hall 0%nat q eq_refl). discriminate.
  - exists k, q. rewrite Heq. cbn [Nat.add].
    split; [reflexivity |]. split; [exact Hn |]. split; assumption.
Qed.

Lemma closest_point_is_first_minimum_witness :
  exists i q,
    closestPoint pointP [pointA; pointB] 0 None 0 =
      (Some (calculateDistance pointP q), i) /\
    nth_error [pointA; pointB] i = Some q.
Proof.
  destruct (closest_point_is_first_minimum pointP [pointA; pointB])
    as (i & q & H1 & H2 & _); [discriminate |].
  exists i, q. split; assumption.
Defined.

(** ** Further properties of the tracker *)

Section TrackerMore.

(** The first step generated from any path is a "Head" step. *)
Lemma generateNavigationSteps_head (path : list Coord) (s : Step) (rest : list Step) :
  generateNavigationSteps path = s :: rest ->
  maneuver s = Straight /\ hd_error path = Some (coordinates s).
Proof.
  intros H. unfold generateNavigationSteps in H.
  destruct path as [| a [| b tl]]; [discriminate | discriminate |].
  rewrite generate_long in H by (cbn [List.length]; lia).
  rewrite segmentSteps_cons in H. cbn [fst snd app map] in H.
  injection H as <- _. split; reflexivity.
Qed.

Lemma isTurn_straight (s : Step) : maneuver s = Straight -> isTurn (maneuver s) = false.
Proof. intros H. rewrite H. reflexivity. Qed.

Lemma watch_startPositionTracking (c : Session) (now : Z) (w : World) :
  geolocation w = true ->
  watchClosure (startPositionTracking c now w) = Some c /\
  watchId (startPositionTracking c now w) = Some (watchCounter w) /\
  watchCounter (startPositionTracking c now w) = (watchCounter w + 1)%Z.
Proof.
  intros Hg. unfold startPositionTracking. rewrite Hg. cbn [negb].
  destruct (watchId w); repeat split.
Qed.

Lemma watchClosure_emit (now : Z) (o : Output) (w : World) :
  watchClosure (emit now o w) = watchClosure w.
Proof. reflexivity. Qed.

Lemma watchClosure_when_emit (b : bool) (now : Z) (o : Output) (w : World) :
  watchClosure (when b (emit now o) w) = watchClosure w.
Proof. destruct b; reflexivity. Qed.

Lemma geolocation_start_prefix (route : Route) (o d : Location) (w : World) :
  geolocation
    (match generateNavigationSteps (r_path route) with
     | [] =>
         w |> upd (setActiveRoute (Some route)) |> upd (setOrigin (Some o))
           |> upd (setDestination (Some d)) |> upd (setIsNavigating true)
           |> upd (setRemainingDistance (r_distance route))
           |> upd (setRemainingTime (r_duration route))
           |> upd (setProgress (XFin 0))
     | first :: rest =>
         w |> upd (setActiveRoute (Some route)) |> upd (setOrigin (Some o))
           |> upd (setDestination (Some d)) |> upd (setIsNavigating true)
           |> upd (setRemainingDistance (r_distance route))
           |> upd (setRemainingTime (r_duration route))
           |> upd (setProgress (XFin 0))
           |> upd (setCurrentStep (Some first))
           |> upd (setNextStep (hd_error rest))
     end) = geolocation w.
Proof. destruct (generateNavigationSteps (r_path route)); reflexivity. Qed.

Lemma watchClosure_startNavigation
    (c : Session) (route : Route) (o d : Location) (now : Z) (w : World) :
  geolocation w = true ->
  watchClosure (startNavigation c route o d now w) = Some c.
Proof.
  intros Hg. unfold startNavigation, speak, toast, addNotification, dispatchEvent.
  cbv zeta. rewrite !watchClosure_emit, watchClosure_when_emit.
  apply watch_startPositionTracking.
  rewrite geolocation_start_prefix. exact Hg.
Qed.

End TrackerMore.

(** X9. When [updateNavigationStep] changes anything, the new current
    step is the first step generated from the rest of the path: a "Head"
    step with the maneuver "straight".  So the announcement of a new step,
    when one is spoken, is its plain instruction, never the form that
    starts with "In <distance>,". *)
Theorem advanced_step_is_a_head_step (c : Session) (p : Coord) (now : Z) (w : World) :
  updateNavigationStep c p now w = w \/
  exists s next,
    maneuver s = Straight /\
    state (updateNavigationStep c p now w) =
      setNextStep next (setCurrentStep (Some s) (state w)) /\
    (updateNavigationStep c p now w =
       (w |> upd (setCurrentStep (Some s)) |> upd (setNextStep next)) \/
     updateNavigationStep c p now w =
       (w |> upd (setCurrentStep (Some s)) |> upd (setNextStep next)
          |> speak now SayStep (instruction s)
          |> setLastVoiceAlert (instruction s))).
Proof.
  unfold updateNavigationStep.
  destruct (activeRoute c) as [route |]; [| now left].
  destruct (currentStep c) as [current |]; [| now left].
  destruct (closestPoint p (r_path route) 0 None 0) as [m i].
  destruct (if (0 <? i)%nat then nth_error (r_path route) (i - 1) else None)
    as [previous |]; [| now left].
  destruct (Js.eqb (fst (coordinates current)) (fst previous) &&
            Js.eqb (snd (coordinates current)) (snd previous)); [| now left].
  destruct (generateNavigationSteps (skipn i (r_path route)))
    as [| s rest] eqn:Hgen; [now left |].
  right. exists s, (hd_error rest).
  destruct (generateNavigationSteps_head _ _ _ Hgen) as [Hm _].
  split; [exact Hm |].
  rewrite (isTurn_straight s Hm). unfold when.
  destruct (voiceEnabled c &&
            negb (String.eqb (instruction s) (instruction current)));
    (split; [reflexivity |]); [right | left]; reflexivity.
Qed.

(** X10. A position update adds a stop timer, due 5000 ms later, exactly
    when the position is less than 0.05 miles from the destination, and a
    recalculation timer, due 3000 ms later, exactly when it is off the
    route; it adds no other timer and removes none. *)
Theorem timers_added_by_position_update
    (c : Session) (p : Coord) (now : Z) (w : World) (route : Route) (dest : Location) :
  navigatingOn route dest c ->
  timers (updateUserPosition c p now w) =
  timers w ++
  (if Js.ltb (calculateDistance p (l_coordinates dest)) 0.05
   then [mkTimer (now + 5000) c TStop] else []) ++
  (if offRoute p (r_path route)
   then [mkTimer (now + 3000) c TRecalculate] else []).
Proof.
  intros (Hn & Hr & Hd). unfold updateUserPosition, when, dispatchEvent.
  rewrite Hn, Hr. cbn [isSome andb]. rewrite timers_emit.
  rewrite (timers_updateNavigationProgress c p now _ route dest Hr Hd).
  reflexivity.
Qed.

Lemma timers_added_by_position_update_witness :
  timers (updateUserPosition sampleSession pointP 1000 (initialWorld true)) =
  [] ++ (if Js.ltb (calculateDistance pointP (l_coordinates sampleDestination)) 0.05
         then [mkTimer (1000 + 5000) sampleSession TStop] else []) ++
  (if offRoute pointP (r_path sampleRoute)
   then [mkTimer (1000 + 3000) sampleSession TRecalculate] else []).
Proof.
  apply (timers_added_by_position_update sampleSession pointP 1000
           (initialWorld true) sampleRoute sampleDestination).
  repeat split.
Defined.

(** X11. Within 0.2 miles of a turn, with voice enabled, every call of
    [checkUpcomingTurn] speaks: "In 0.2 miles, ..." unless that was the
    last alert, and in that case "In half a mile, ...".  The two alerts
    alternate from one position update to the next instead of being
    spoken once each. *)
Theorem turn_alerts_alternate
    (c : Session) (p : Coord) (now : Z) (w : World) (current next : Step) :
  voiceEnabled c = true ->
  currentStep c = Some current -> nextStep c = Some next ->
  isTurn (maneuver next) = true ->
  calculateDistance p (coordinates next) < 0.2 ->
  let upcoming := ("upcoming_" ++ maneuver_string (maneuver next))%string in
  let prepare := ("prepare_" ++ maneuver_string (maneuver next))%string in
  (lastVoiceAlert w <> upcoming ->
   checkUpcomingTurn c p now w =
   (w |> speak now SayTurn ("In 0.2 miles, " ++ instruction next)
      |> setLastVoiceAlert upcoming)) /\
  (lastVoiceAlert w = upcoming ->
   checkUpcomingTurn c p now w =
   (w |> speak now SayTurn ("In half a mile, " ++ instruction next)
      |> setLastVoiceAlert prepare)).
Proof.
  intros Hv Hc Hn Ht Hd. cbv zeta.
  unfold checkUpcomingTurn. rewrite Hc, Hn, Hv, Ht. cbn [negb orb].
  assert (H2 : Js.ltb (calculateDistance p (coordinates next)) 0.2 = true)
    by (apply ltb_true; exact Hd).
  assert (H5 : Js.ltb (calculateDistance p (coordinates next)) 0.5 = true)
    by (apply ltb_true; lra).
  rewrite H2, H5. cbn [andb].
  split; intros Hk.
  - destruct (String.eqb_spec (lastVoiceAlert w)
                ("upcoming_" ++ maneuver_string (maneuver next))) as [Heq | _];
      [contradiction | reflexivity].
  - rewrite Hk. rewrite String.eqb_refl. cbn [negb].
    destruct (String.eqb_spec
                ("upcoming_" ++ maneuver_string (maneuver next))
                ("prepare_" ++ maneuver_string (maneuver next))) as [Heq | _];
      [discriminate | reflexivity].
Qed.

Lemma turn_alerts_alternate_witness :
  checkUpcomingTurn sampleSession pointA 1000 (initialWorld true) =
  (initialWorld true
     |> speak 1000 SayTurn ("In 0.2 miles, " ++ instruction turnStep)
     |> setLastVoiceAlert ("upcoming_" ++ maneuver_string (maneuver turnStep))).
Proof.
  refine (proj1 (turn_alerts_alternate sampleSession pointA 1000 (initialWorld true)
                   turnStep turnStep eq_refl eq_refl eq_refl eq_refl _) _).
  - change (coordinates turnStep) with pointA.
    rewrite calculateDistance_self. lra.
  - discriminate.
Defined.

(** ** Voice off, and the other alert frequencies *)

Section Silence.

Variables (c : Session) (now : Z).
Hypothesis voice_off : voiceEnabled c = false.

Lemma hush_refl (w : World) : hush w w.
Proof. repeat split. Qed.

Lemma hush_trans (w1 w2 w3 : World) : hush w1 w2 -> hush w2 w3 -> hush w1 w3.
Proof.
  intros (A1 & B1 & C1) (A2 & B2 & C2). unfold hush.
  rewrite A2, B2, C2. repeat split; assumption.
Qed.

Ltac hush_leaf :=
  unfold when; rewrite ?voice_off; cbn [andb negb orb];
  repeat break_match; unfold hush, countOutputs; cbn;
  (split; [reflexivity | split; reflexivity]).

Lemma hush_updateNavigationStep (p : Coord) (w : World) :
  hush w (updateNavigationStep c p now w).
Proof. unfold updateNavigationStep. hush_leaf. Qed.

Lemma hush_checkDistanceAnnouncement (d : R) (w : World) :
  hush w (checkDistanceAnnouncement c d now w).
Proof.
  unfold checkDistanceAnnouncement. rewrite voice_off. apply hush_refl.
Qed.

Lemma hush_checkUpcomingTurn (p : Coord) (w : World) :
  hush w (checkUpcomingTurn c p now w).
Proof.
  unfold checkUpcomingTurn. rewrite voice_off. cbn [negb orb].
  destruct (currentStep c), (nextStep c); apply hush_refl.
Qed.

Lemma hush_checkIfOffRoute (p : Coord) (w : World) :
  hush w (checkIfOffRoute c p now w).
Proof. unfold checkIfOffRoute. hush_leaf. Qed.

Lemma hush_arrival (b : bool) (w : World) :
  hush w
    (when b
       (fun w =>
          w |> when (voiceEnabled c &&
                     negb (String.eqb (lastVoiceAlert w) "arrived"))
                 (fun w =>
                    w |> speak now SayArrived
                           "You have arrived at your destination."
                      |> setLastVoiceAlert "arrived")
            |> toast now "Arrived!" "You have reached your destination."
            |> addNotification now "success" "Arrived!"
                 "You have reached your destination."
            |> setTimeout now 5000 c TStop) w).
Proof. hush_leaf. Qed.

Lemma hush_upd (f : Session -> Session) (w : World) : hush w (upd f w).
Proof. repeat split. Qed.

Lemma hush_dispatch (event : string) (w : World) :
  hush w (dispatchEvent now event w).
Proof. repeat split. Qed.

Lemma hush_updateNavigationProgress (p : Coord) (w : World) :
  hush w (updateNavigationProgress c p now w).
Proof.
  unfold updateNavigationProgress.
  destruct (activeRoute c) as [route |]; [| apply hush_refl].
  destruct (destination c) as [dest |]; [| apply hush_refl].
  eapply hush_trans; [| apply hush_dispatch].
  eapply hush_trans; [| apply hush_checkIfOffRoute].
  eapply hush_trans; [| apply hush_arrival].
  eapply hush_trans; [| apply hush_checkUpcomingTurn].
  eapply hush_trans; [| apply hush_checkDistanceAnnouncement].
  eapply hush_trans; [| apply hush_updateNavigationStep].
  eapply hush_trans; [| apply hush_upd].
  eapply hush_trans; [| apply hush_upd].
  apply hush_upd.
Qed.

End Silence.

(** X12. With voice disabled a position update speaks nothing and leaves
    the key of the last spoken alert and the time of the last distance
    alert as they were (toasts, notifications and timers are still
    produced). *)
Theorem voice_off_is_silent (c : Session) (p : Coord) (now : Z) (w : World) :
  voiceEnabled c = false ->
  countOutputs isSpeech (updateUserPosition c p now w) = countOutputs isSpeech w /\
  lastVoiceAlert (updateUserPosition c p now w) = lastVoiceAlert w /\
  lastDistanceAlert (updateUserPosition c p now w) = lastDistanceAlert w.
Proof.
  intros Hv. change (hush w (updateUserPosition c p now w)).
  unfold updateUserPosition.
  eapply hush_trans; [| apply hush_dispatch].
  unfold when. destruct (isNavigating c && isSome (activeRoute c)).
  - eapply hush_trans; [apply hush_upd |].
    now apply hush_updateNavigationProgress.
  - apply hush_upd.
Qed.

Lemma voice_off_is_silent_witness :
  countOutputs isSpeech
    (updateUserPosition (setVoiceEnabled false sampleSession) pointP 1000
       (initialWorld true)) =
  countOutputs isSpeech (initialWorld true).
Proof.
  apply (proj1 (voice_off_is_silent (setVoiceEnabled false sampleSession)
                  pointP 1000 (initialWorld true) eq_refl)).
Defined.

(** X13. With the frequency "medium", voice enabled and 30 seconds or
    more since the last distance alert, the alert is spoken exactly when
    the remaining distance is less than 0.05 miles from a whole-mile
    boundary, or at most 3 miles and less than 0.05 miles from a half-mile
    boundary. *)
Theorem medium_frequency_policy (c : Session) (d : R) (now : Z) (w : World) :
  voiceEnabled c = true ->
  distanceAlertFrequency c = Medium ->
  (30000 <= now - lastDistanceAlert w)%Z ->
  ((nearWholeMileBoundary d \/ (d <= 3 /\ nearHalfMileBoundary d)) ->
   checkDistanceAnnouncement c d now w =
   (w |> speak now SayDistance
           (Js.toFixed1 d ++ " miles remaining to your destination.")
      |> setLastDistanceAlert now
      |> setLastVoiceAlert "distance")) /\
  (~ (nearWholeMileBoundary d \/ (d <= 3 /\ nearHalfMileBoundary d)) ->
   checkDistanceAnnouncement c d now w = w).
Proof.
  intros Hv Hf Ht.
  unfold checkDistanceAnnouncement. rewrite Hv, Hf. cbn [negb isOff orb].
  destruct (Z.ltb_spec (now - lastDistanceAlert w) 30000) as [Hlt | _]; [lia |].
  cbn [distanceAnnouncement].
  assert (Hiff : nearWholeMile d || (Js.leb d 3 && nearHalfMile d) = true <->
                 (nearWholeMileBoundary d \/ (d <= 3 /\ nearHalfMileBoundary d))).
  { rewrite orb_true_iff, andb_true_iff, nearHalfMile_spec, nearWholeMile_spec,
      leb_true. reflexivity. }
  destruct (nearWholeMile d || (Js.leb d 3 && nearHalfMile d)).
  - split; [reflexivity |]. intros Hn. exfalso. apply Hn. now apply Hiff.
  - split; [| reflexivity]. intros Hy. apply Hiff in Hy. discriminate.
Qed.

Lemma medium_frequency_policy_witness :
  checkDistanceAnnouncement initialSession 2.5 60000 (initialWorld true) =
  (initialWorld true
     |> speak 60000 SayDistance
          (Js.toFixed1 2.5 ++ " miles remaining to your destination.")
     |> setLastDistanceAlert 60000
     |> setLastVoiceAlert "distance").
Proof.
  refine (proj1 (medium_frequency_policy initialSession 2.5 60000
                   (initialWorld true) eq_refl eq_refl _) _).
  - cbn. lia.
  - right. split; [lra |]. exists 5%Z.
    replace (2.5 - 5 / 2) with 0 by lra. rewrite Rabs_R0. lra.
Defined.

(** X14. With the frequency "low" the announcement is made exactly when
    the remaining distance is less than 0.05 miles from one of the
    milestones 10, 5, 3, 2, 1, 0.5 and 0.2, and it names that milestone
    ("mile" for 1, "miles" otherwise).  The milestones are too far apart
    for two of them to match, so their order never decides. *)
Theorem low_frequency_milestones (d : R) :
  (forall m text,
     In (m, text) milestones -> Rabs (d - m) < 0.05 ->
     distanceAnnouncement Low d =
     Some (text ++ " " ++ (if Js.eqb m 1 then "mile" else "miles") ++
           " remaining to your destination.")%string) /\
  ((forall m text, In (m, text) milestones -> 0.05 <= Rabs (d - m)) ->
   distanceAnnouncement Low d = None).
Proof.
  assert (Hcond : forall m, Js.ltb (Js.abs (d - m)) 0.05 = true <-> -0.05 < d - m < 0.05).
  { intros m. unfold Js.abs. rewrite ltb_true. split.
    - intros H. apply Rabs_def2 in H. lra.
    - intros H. apply Rabs_def1; lra. }
  assert (Hno : forall m, ~ (-0.05 < d - m < 0.05) -> Js.ltb (Js.abs (d - m)) 0.05 = false).
  { intros m H. destruct (Js.ltb (Js.abs (d - m)) 0.05) eqn:E; [| reflexivity].
    apply Hcond in E. contradiction. }
  split.
  - intros m text Hin Hnear. apply Rabs_def2 in Hnear.
    cbn [distanceAnnouncement firstMilestone milestones].
    cbn [In milestones] in Hin.
    repeat (destruct Hin as [Hin | Hin];
            [injection Hin as <- <-;
             rewrite ?Hno by lra;
             rewrite (proj2 (Hcond _)) by lra; reflexivity |]).
    destruct Hin.
  - intros Hfar.
    cbn [distanceAnnouncement firstMilestone milestones].
    assert (Hf : forall m text, In (m, text) milestones ->
                 Js.ltb (Js.abs (d - m)) 0.05 = false).
    { intros m text Hin. specialize (Hfar m text Hin).
      unfold Js.abs, Js.ltb. destruct (Rlt_dec (Rabs (d - m)) 0.05); [lra | reflexivity]. }
    rewrite (Hf 10 "10"%string), (Hf 5 "5"%string), (Hf 3 "3"%string),
      (Hf 2 "2"%string), (Hf 1 "1"%string), (Hf 0.5 "0.5"%string),
      (Hf 0.2 "0.2"%string); [reflexivity | | | | | | |];
      cbn [In milestones]; tauto.
Qed.

Lemma low_frequency_milestones_witness :
  distanceAnnouncement Low 1.02 =
  Some ("1" ++ " " ++ (if Js.eqb 1 1 then "mile" else "miles") ++
        " remaining to your destination.")%string.
Proof.
  apply (proj1 (low_frequency_milestones 1.02) 1 "1"%string).
  - cbn [In milestones]. tauto.
  - apply Rabs_def1; lra.
Defined.

(** ** Recalculation, the geolocation watch and short paths *)

Section RecalculationMore.

Lemma generateNavigationSteps_three (a b c : Coord) :
  exists s1 s2 s3,
    generateNavigationSteps [a; b; c] = [s1; s2; s3] /\
    coordinates s1 = a /\ maneuver s1 = Straight /\
    coordinates s2 = b /\
    coordinates s3 = c /\ maneuver s3 = Arrive.
Proof.
  unfold generateNavigationSteps.
  rewrite generate_long by (cbn [List.length]; lia).
  rewrite !segmentSteps_cons. cbn [segmentSteps fst snd app map last].
  do 3 eexists. split; [reflexivity |]. repeat split.
Qed.

Lemma state_upd (f : Session -> Session) (w : World) : state (upd f w) = f (state w).
Proof. reflexivity. Qed.

Lemma state_setLastVoiceAlert (key : string) (w : World) :
  state (setLastVoiceAlert key w) = state w.
Proof. reflexivity. Qed.

End RecalculationMore.

(** X15. When a recalculation completes, the active route is the
    simulated one: three points (the position the recalculation started
    from, the point 40% of the way, the destination); the origin becomes
    "Current Location"; the steps are regenerated, the current step
    starting at that position and the next one at the 40% point; the
    remaining distance and time are the new route's and the progress is 0.
    [isNavigating] is not touched: a recalculation that completes after a
    stop sets a route on a session that stays stopped. *)
Theorem recalculation_result
    (c : Session) (o d : Location) (random now : Z) (w : World) :
  let route := simulateNewRoute o d random in
  let s := state (fst (recalculateResume c o d random now w)) in
  r_path route =
    [l_coordinates o;
     (fst (l_coordinates o) + (fst (l_coordinates d) - fst (l_coordinates o)) * 0.4,
      snd (l_coordinates o) + (snd (l_coordinates d) - snd (l_coordinates o)) * 0.4);
     l_coordinates d] /\
  activeRoute s = Some route /\ origin s = Some o /\
  remainingDistance s = r_distance route /\
  remainingTime s = r_duration route /\
  progress s = XFin 0 /\
  isNavigating s = isNavigating (state w) /\
  destination s = destination (state w) /\
  snd (recalculateResume c o d random now w) = Fulfilled /\
  exists s1 s2 s3,
    generateNavigationSteps (r_path route) = [s1; s2; s3] /\
    currentStep s = Some s1 /\ nextStep s = Some s2 /\
    coordinates s1 = l_coordinates o /\
    coordinates s2 = nth 1 (r_path route) (0, 0) /\
    maneuver s3 = Arrive /\ coordinates s3 = l_coordinates d.
Proof.
  cbv zeta.
  split; [reflexivity |].
  destruct (generateNavigationSteps_three
              (l_coordinates o)
              (fst (l_coordinates o) + (fst (l_coordinates d) - fst (l_coordinates o)) * 0.4,
               snd (l_coordinates o) + (snd (l_coordinates d) - snd (l_coordinates o)) * 0.4)
              (l_coordinates d))
    as (s1 & s2 & s3 & Hgen & Hc1 & _ & Hc2 & Hc3 & Hm3).
  assert (Hgen' : generateNavigationSteps (r_path (simulateNewRoute o d random)) =
                  [s1; s2; s3]) by exact Hgen.
  assert (Hstate :
    state (fst (recalculateResume c o d random now w)) =
    setProgress (XFin 0)
      (setRemainingTime (r_duration (simulateNewRoute o d random))
         (setRemainingDistance (r_distance (simulateNewRoute o d random))
            (setNextStep (Some s2)
               (setCurrentStep (Some s1)
                  (setOrigin (Some o)
                     (setActiveRoute (Some (simulateNewRoute o d random))
                        (state w)))))))).
  { unfold recalculateResume. cbv zeta. cbn [fst]. rewrite Hgen'.
    unfold dispatchEvent, addNotification, toast, speak.
    rewrite !state_emit.
    unfold when. destruct (voiceEnabled c);
      rewrite ?state_setLastVoiceAlert, ?state_emit, !state_upd; reflexivity. }
  rewrite Hstate.
  cbn [activeRoute origin remainingDistance remainingTime progress isNavigating
       destination currentStep nextStep
       setProgress setRemainingTime setRemainingDistance setNextStep
       setCurrentStep setOrigin setActiveRoute].
  do 8 (split; [reflexivity |]).
  exists s1, s2, s3.
  split; [exact Hgen' |]. split; [reflexivity |]. split; [reflexivity |].
  split; [exact Hc1 |]. split; [exact Hc2 |]. split; assumption.
Qed.

(** X16. The callback given to [watchPosition] reads [isNavigating] and
    [activeRoute] of the render in which [startNavigation] was called.
    When navigation is started from a session that is not navigating, a
    geolocation fix therefore only records the current position: it
    recomputes no progress, speaks nothing and schedules nothing. *)
Theorem geolocation_fix_after_start_from_idle
    (w : World) (route : Route) (o d : Location) (now now' : Z) (p : Coord) :
  geolocation w = true ->
  isNavigating (state w) = false ->
  let w1 := step now (EStart route o d) w in
  isNavigating (state w1) = true /\
  step now' (EGeoPosition p) w1 = upd (setCurrentPosition (Some p)) w1.
Proof.
  intros Hg Hidle. cbv zeta. cbn [step].
  split.
  - apply (start_session (state w) route o d now w).
  - rewrite (watchClosure_startNavigation (state w) route o d now w Hg).
    unfold watchCallback, when. rewrite Hidle. reflexivity.
Qed.

Lemma geolocation_fix_after_start_from_idle_witness :
  step 2000 (EGeoPosition pointP)
    (step 1000 (EStart sampleRoute sampleOrigin sampleDestination)
       (initialWorld true)) =
  upd (setCurrentPosition (Some pointP))
    (step 1000 (EStart sampleRoute sampleOrigin sampleDestination)
       (initialWorld true)).
Proof.
  apply (proj2 (geolocation_fix_after_start_from_idle (initialWorld true)
                  sampleRoute sampleOrigin sampleDestination 1000 2000 pointP
                  eq_refl eq_refl)).
Defined.

(** X17. [startNavigation] on a route whose path has fewer than two
    points generates no step and leaves the current and next step as they
    were, while the session is navigating on the new route. *)
Theorem start_on_short_path_keeps_steps
    (c : Session) (route : Route) (o d : Location) (now : Z) (w : World) :
  (List.length (r_path route) < 2)%nat ->
  let s := state (startNavigation c route o d now w) in
  isNavigating s = true /\ activeRoute s = Some route /\
  currentStep s = currentStep (state w) /\ nextStep s = nextStep (state w).
Proof.
  intros Hshort. cbv zeta.
  pose proof (start_session c route o d now w) as Hs. cbv zeta in Hs.
  destruct Hs as (Hn & Hr & _ & _ & _ & _ & _ & _ & _ & Hsteps).
  assert (Hgen : generateNavigationSteps (r_path route) = []).
  { unfold generateNavigationSteps. now rewrite generate_short. }
  rewrite Hgen in Hsteps. destruct Hsteps as [Hc Hx].
  repeat split; assumption.
Qed.

Lemma start_on_short_path_keeps_steps_witness :
  currentStep
    (state (startNavigation sampleSession
              (mkRoute 3 "Point" "0 mins" "0.0 miles" "light" 0 [pointA])
              sampleOrigin sampleOrigin 1000
              (upd (fun _ => sampleSession) (initialWorld true)))) =
  Some turnStep.
Proof.
  apply (proj1 (proj2 (proj2 (start_on_short_path_keeps_steps sampleSession
           (mkRoute 3 "Point" "0 mins" "0.0 miles" "light" 0 [pointA])
           sampleOrigin sampleOrigin 1000
           (upd (fun _ => sampleSession) (initialWorld true))
           ltac:(cbn; lia))))).
Defined.

(** ** The notification list *)

Section NotificationList.

Import Notifications.

Lemma unreadCount_cons (n : Notification) (ns : list Notification) :
  unreadCount (n :: ns) =
  if read n then unreadCount ns else S (unreadCount ns).
Proof. unfold unreadCount. cbn [filter]. destruct (read n); reflexivity. Qed.

Lemma unreadCount_markAllAsRead (ns : list Notification) :
  unreadCount (markAllAsRead ns) = 0%nat.
Proof.
  induction ns as [| n ns IH]; [reflexivity |].
  cbn [markAllAsRead map]. rewrite unreadCount_cons. exact IH.
Qed.

Lemma markAsRead_idempotent (i : string) (ns : list Notification) :
  markAsRead i (markAsRead i ns) = markAsRead i ns.
Proof.
  unfold markAsRead. rewrite map_map. apply map_ext. intros n.
  destruct (String.eqb (id n) i) eqn:E; cbn [id setRead]; rewrite E; reflexivity.
Qed.

(** The unread notifications that carry the id [i]. *)
Lemma unreadCount_markAsRead (i : string) (ns : list Notification) :
  (unreadCount (markAsRead i ns) +
   List.length (filter (fun n => String.eqb (id n) i && negb (read n)) ns))%nat =
  unreadCount ns.
Proof.
  induction ns as [| n ns IH]; [reflexivity |].
  cbn [markAsRead map filter]. fold (markAsRead i ns).
  rewrite (unreadCount_cons n ns).
  destruct (String.eqb (id n) i) eqn:E.
  - rewrite unreadCount_cons. cbn [read setRead andb].
    destruct (read n); cbn [negb List.length]; lia.
  - rewrite unreadCount_cons. cbn [andb].
    destruct (read n); lia.
Qed.

Lemma markAsRead_others (i : string) (ns : list Notification) (n : Notification) :
  In n ns -> id n <> i -> In n (markAsRead i ns).
Proof.
  intros Hin Hne. unfold markAsRead. apply in_map_iff. exists n.
  split; [| exact Hin].
  destruct (String.eqb_spec (id n) i); [contradiction | reflexivity].
Qed.

Lemma removeNotification_fresh (i : string) (ns : list Notification) :
  ~ In i (map id ns) -> removeNotification i ns = ns.
Proof.
  induction ns as [| n ns IH]; intros Hfresh; [reflexivity |].
  cbn [removeNotification filter map In] in *.
  destruct (String.eqb_spec (id n) i) as [Heq | Hne]; cbn [negb].
  - exfalso. apply Hfresh. now left.
  - f_equal. apply IH. intros Hin. apply Hfresh. now right.
Qed.

Lemma markAsRead_fresh (i : string) (ns : list Notification) :
  ~ In i (map id ns) -> markAsRead i ns = ns.
Proof.
  induction ns as [| n ns IH]; intros Hfresh; [reflexivity |].
  cbn [markAsRead map In] in *. fold (markAsRead i ns).
  destruct (String.eqb_spec (id n) i) as [Heq | Hne].
  - exfalso. apply Hfresh. now left.
  - f_equal. apply IH. intros Hin. apply Hfresh. now right.
Qed.

End NotificationList.

(** X18. Marking notifications as read: [markAllAsRead] keeps every
    notification (same ids, in order) and leaves none unread;
    [markAsRead] lowers the unread count by the number of unread
    notifications with that id, changes no notification with another id,
    and marking twice is the same as marking once. *)
Theorem notifications_marked_read (i : string) (ns : list Notifications.Notification) :
  map Notifications.id (Notifications.markAllAsRead ns) = map Notifications.id ns /\
  Notifications.unreadCount (Notifications.markAllAsRead ns) = 0%nat /\
  (Notifications.unreadCount (Notifications.markAsRead i ns) +
   List.length (filter (fun n => String.eqb (Notifications.id n) i &&
                                 negb (Notifications.read n)) ns))%nat =
    Notifications.unreadCount ns /\
  (forall n, In n ns -> Notifications.id n <> i ->
             In n (Notifications.markAsRead i ns)) /\
  Notifications.markAsRead i (Notifications.markAsRead i ns) =
    Notifications.markAsRead i ns.
Proof.
  split; [| split; [| split; [| split]]].
  - unfold Notifications.markAllAsRead. rewrite map_map. reflexivity.
  - apply unreadCount_markAllAsRead.
  - apply unreadCount_markAsRead.
  - intros n. apply markAsRead_others.
  - apply markAsRead_idempotent.
Qed.

(** X19. [removeNotification] removes every notification with the given
    id and only those: what is left is the notifications with another id,
    in their order, and the unread count does not grow. *)
Theorem notification_removed (i : string) (ns : list Notifications.Notification) :
  ~ In i (map Notifications.id (Notifications.removeNotification i ns)) /\
  (forall n, In n (Notifications.removeNotification i ns) <->
             In n ns /\ Notifications.id n <> i) /\
  (Notifications.unreadCount (Notifications.removeNotification i ns) <=
   Notifications.unreadCount ns)%nat /\
  (List.length (Notifications.removeNotification i ns) +
   List.length (filter (fun n => String.eqb (Notifications.id n) i) ns))%nat =
  List.length ns.
Proof.
  unfold Notifications.removeNotification.
  split; [| split; [| split]].
  - intros Hin. apply in_map_iff in Hin. destruct Hin as (n & Hid & Hin).
    apply filter_In in Hin. destruct Hin as [_ Hne].
    rewrite Hid, String.eqb_refl in Hne. discriminate.
  - intros n. rewrite filter_In. split.
    + intros [Hin Hne]. split; [exact Hin |].
      intros Heq. rewrite Heq, String.eqb_refl in Hne. discriminate.
    + intros [Hin Hne]. split; [exact Hin |].
      destruct (String.eqb_spec (Notifications.id n) i); [contradiction | reflexivity].
  - induction ns as [| n ns IH]; [apply Nat.le_refl |].
    cbn [filter]. rewrite (unreadCount_cons n ns).
    destruct (negb (String.eqb (Notifications.id n) i)).
    + rewrite unreadCount_cons. destruct (Notifications.read n); lia.
    + destruct (Notifications.read n); lia.
  - induction ns as [| n ns IH]; [reflexivity |].
    cbn [filter]. destruct (String.eqb (Notifications.id n) i);
      cbn [negb List.length]; lia.
Qed.

(** X20. With a fresh id, adding a notification raises the unread count
    by one, and marking it as read or removing it undoes that: the unread
    count is back to what it was, and removal gives back the list. *)
Theorem notification_add_round_trip
    (uuid : string) (now : Z) (draft : Notifications.Draft)
    (prev : list Notifications.Notification) :
  ~ In uuid (map Notifications.id prev) ->
  Notifications.unreadCount (Notifications.addNotification uuid now draft prev) =
    S (Notifications.unreadCount prev) /\
  Notifications.unreadCount
    (Notifications.markAsRead uuid
       (Notifications.addNotification uuid now draft prev)) =
    Notifications.unreadCount prev /\
  Notifications.removeNotification uuid
    (Notifications.addNotification uuid now draft prev) = prev.
Proof.
  intros Hfresh. unfold Notifications.addNotification.
  split; [| split].
  - rewrite unreadCount_cons. reflexivity.
  - cbn [Notifications.markAsRead map Notifications.id].
    rewrite String.eqb_refl. fold (Notifications.markAsRead uuid prev).
    rewrite unreadCount_cons. cbn [Notifications.read Notifications.setRead].
    now rewrite markAsRead_fresh.
  - cbn [Notifications.removeNotification filter Notifications.id].
    rewrite String.eqb_refl. cbn [negb].
    now apply removeNotification_fresh.
Qed.

Lemma notification_add_round_trip_witness :
  Notifications.removeNotification "n1"
    (Notifications.addNotification "n1" 0
       (Notifications.mkDraft "info" "Navigation Started" "Following Route 1." None)
       []) = [].
Proof.
  apply (proj2 (proj2 (notification_add_round_trip "n1" 0
           (Notifications.mkDraft "info" "Navigation Started" "Following Route 1." None)
           [] (fun H => H)))).
Defined.

(** ** The routes and traffic-reports endpoints *)

Section Endpoints.

Lemma three_points_three_steps (a b c : Coord) :
  exists s1 s2 s3,
    generateDetailedNavigationSteps [a; b; c] = [s1; s2; s3] /\
    coordinates s1 = a /\ coordinates s3 = c /\ maneuver s3 = Arrive.
Proof.
  rewrite generate_long by (cbn [List.length]; lia).
  rewrite !segmentSteps_cons. cbn [segmentSteps fst snd app last].
  do 3 eexists. split; [reflexivity |]. repeat split.
Qed.


End Endpoints.

(** X21. The routes endpoint checks the body first and the token second:
    an unreadable body gives 500, a missing origin or destination gives
    400 whatever the token, an empty token then gives 500.  Otherwise it
    answers with three routes, numbered 1, 2, 3, each a path of three
    points from the origin to the destination (the defaults when the
    coordinates are missing), from which the instruction generator makes
    three steps, the last one the arrival at the destination. *)
Theorem routes_endpoint (token : string) (body : option RoutesApi.Body) :
  match RoutesApi.POST token body with
  | RoutesApi.Ok routes =>
      token <> ""%string /\
      exists b origin destination,
        body = Some b /\
        RoutesApi.b_origin b = Some origin /\
        RoutesApi.b_destination b = Some destination /\
        let o := match origin with Some c => c | None => (-74.5, 40) end in
        let d := match destination with Some c => c | None => (-74.35, 40.15) end in
        map r_id routes = [1; 2; 3]%Z /\
        Forall (fun route =>
                  exists mid s1 s2 s3,
                    r_path route = [o; mid; d] /\
                    generateDetailedNavigationSteps (r_path route) = [s1; s2; s3] /\
                    coordinates s1 = o /\ coordinates s3 = d /\
                    maneuver s3 = Arrive)
               routes
  | RoutesApi.Failure status _ =>
      (status = 400%Z /\
       exists b, body = Some b /\
                 (RoutesApi.b_origin b = None \/ RoutesApi.b_destination b = None)) \/
      (status = 500%Z /\
       (body = None \/
        (token = ""%string /\
         exists b, body = Some b /\ RoutesApi.b_origin b <> None /\
                   RoutesApi.b_destination b <> None)))
  end.
Proof.
  unfold RoutesApi.POST.
  destruct body as [b |]; [| right; split; [reflexivity | now left]].
  destruct (RoutesApi.b_origin b) as [origin |] eqn:Ho;
    [| left; split; [reflexivity |]; exists b; split; [reflexivity | now left]].
  destruct (RoutesApi.b_destination b) as [destination |] eqn:Hd;
    [| left; split; [reflexivity |]; exists b; split; [reflexivity | now right]].
  destruct (String.eqb_spec token "") as [Ht | Ht].
  - right. split; [reflexivity |]. right. split; [exact Ht |].
    exists b. rewrite Ho, Hd. repeat split; discriminate.
  - split; [exact Ht |].
    exists b, origin, destination.
    split; [reflexivity |]. split; [exact Ho |]. split; [exact Hd |].
    cbv zeta. split; [reflexivity |].
    unfold RoutesApi.generateRoutes. cbv zeta.
    repeat constructor; cbn [r_path];
      match goal with
      | |- exists mid s1 s2 s3, [?o; ?m; ?d] = _ /\ _ =>
          destruct (three_points_three_steps o m d)
            as (s1 & s2 & s3 & Hg & H1 & H3 & Hm);
          exists m, s1, s2, s3; repeat split; assumption
      end.
Qed.


(** ** The movement simulator *)

Section SimulatorFacts.

Import Simulator.

Variable path : list Coord.

Lemma speed_pos : 0 < speed.
Proof. unfold speed. lra. Qed.

Lemma ticks_stopped (n : nat) (sim : Sim) : running sim = false -> ticks n path sim = sim.
Proof. intros H. destruct n; cbn [ticks]; [| rewrite H]; reflexivity. Qed.

Lemma ticks_add (a b : nat) :
  forall sim, ticks (a + b) path sim = ticks b path (ticks a path sim).
Proof.
  induction a as [| a IH]; intros sim; [reflexivity |].
  cbn [Nat.add ticks]. destruct (running sim) eqn:Hr.
  - apply IH.
  - now rewrite ticks_stopped.
Qed.

(** On one segment: with [k + 1] steps of [speed] enough to cover what is
    left of it, the simulator moves on to the next segment. *)
Lemma segment_is_left (k : nat) :
  forall sim,
    running sim = true -> 0 <= progress sim ->
    (currentIndex sim < List.length path - 1)%nat ->
    calculateDistance (nth (currentIndex sim) path (0, 0))
                      (nth (currentIndex sim + 1) path (0, 0))
      <= progress sim + INR (S k) * speed ->
    exists j,
      currentIndex (ticks j path sim) = S (currentIndex sim) /\
      progress (ticks j path sim) = 0.
Proof.
  induction k as [| k IH]; intros sim Hrun Hp Hidx Hlen.
  - exists 1%nat. cbn [ticks]. rewrite Hrun. unfold tick.
    destruct (Nat.leb_spec (List.length path - 1) (currentIndex sim)); [lia |].
    cbv zeta. unfold Js.leb.
    destruct (Rle_dec _ (progress sim + speed)) as [_ | Hn].
    + split; reflexivity.
    + exfalso. apply Hn. cbn [INR] in Hlen. lra.
  - destruct (Rle_dec (calculateDistance (nth (currentIndex sim) path (0, 0))
                         (nth (currentIndex sim + 1) path (0, 0)))
                      (progress sim + speed)) as [Hle | Hgt] eqn:E.
    + exists 1%nat. cbn [ticks]. rewrite Hrun. unfold tick.
      destruct (Nat.leb_spec (List.length path - 1) (currentIndex sim)); [lia |].
      cbv zeta. unfold Js.leb. rewrite E. split; reflexivity.
    + pose proof speed_pos as Hs.
      destruct (IH (mkSim (currentIndex sim) (progress sim + speed)
                      (fst (nth (currentIndex sim) path (0, 0)) +
                       (fst (nth (currentIndex sim + 1) path (0, 0)) -
                        fst (nth (currentIndex sim) path (0, 0))) *
                       ((progress sim + speed) /
                        calculateDistance (nth (currentIndex sim) path (0, 0))
                          (nth (currentIndex sim + 1) path (0, 0))),
                       snd (nth (currentIndex sim) path (0, 0)) +
                       (snd (nth (currentIndex sim + 1) path (0, 0)) -
                        snd (nth (currentIndex sim) path (0, 0))) *
                       ((progress sim + speed) /
                        calculateDistance (nth (currentIndex sim) path (0, 0))
                          (nth (currentIndex sim + 1) path (0, 0))))
                      true))
        as (j & Hj1 & Hj2).
      * reflexivity.
      * cbn [progress]. lra.
      * exact Hidx.
      * cbn [currentIndex progress].
        rewrite S_INR in Hlen. rewrite S_INR. rewrite S_INR in Hlen. lra.
      * exists (S j). cbn [ticks]. rewrite Hrun. unfold tick.
        destruct (Nat.leb_spec (List.length path - 1) (currentIndex sim)); [lia |].
        cbv zeta. unfold Js.leb. rewrite E. cbn [fst].
        split; assumption.
Qed.

Lemma enough_steps (len p : R) :
  0 <= len -> 0 <= p -> exists k : nat, len <= p + INR (S k) * speed.
Proof.
  intros Hlen Hp. pose proof speed_pos as Hs.
  pose proof (archimed (len / speed)) as [Hup _].
  assert (Hq : 0 <= len / speed).
  { unfold Rdiv. apply Rmult_le_pos; [exact Hlen |].
    left. now apply Rinv_0_lt_compat. }
  assert (Hz : (0 <= up (len / speed))%Z).
  { apply le_IZR. lra. }
  exists (Z.to_nat (up (len / speed))).
  rewrite S_INR, INR_IZR_INZ, Z2Nat.id by exact Hz.
  assert (Hm : len < IZR (up (len / speed)) * speed).
  { apply Rmult_lt_reg_r with (/ speed); [now apply Rinv_0_lt_compat |].
    rewrite Rmult_assoc, Rinv_r by lra. unfold Rdiv in Hup. lra. }
  nra.
Qed.

Lemma simulation_stops_within (m : nat) :
  forall sim,
    (List.length path - 1 - currentIndex sim <= m)%nat ->
    0 <= progress sim ->
    exists n, running (ticks n path sim) = false.
Proof.
  induction m as [| m IH]; intros sim Hm Hp.
  - destruct (running sim) eqn:Hrun; [| now exists 0%nat].
    exists 1%nat. cbn [ticks]. rewrite Hrun. unfold tick.
    destruct (Nat.leb_spec (List.length path - 1) (currentIndex sim)); [| lia].
    reflexivity.
  - destruct (running sim) eqn:Hrun; [| now exists 0%nat].
    destruct (Nat.leb_spec (List.length path - 1) (currentIndex sim)) as [Hend | Hin].
    + exists 1%nat. cbn [ticks]. rewrite Hrun. unfold tick.
      destruct (Nat.leb_spec (List.length path - 1) (currentIndex sim)); [| lia].
      reflexivity.
    + destruct (enough_steps
                  (calculateDistance (nth (currentIndex sim) path (0, 0))
                                     (nth (currentIndex sim + 1) path (0, 0)))
                  (progress sim)
                  (proj1 (calculateDistance_range _ _)) Hp) as [k Hk].
      destruct (segment_is_left k sim Hrun Hp Hin Hk) as (j & Hj1 & Hj2).
      destruct (IH (ticks j path sim)) as [n Hn].
      * rewrite Hj1. lia.
      * rewrite Hj2. lra.
      * exists (j + n)%nat. now rewrite ticks_add.
Qed.

End SimulatorFacts.

(** X23. One run of the interval callback, with a non-negative progress:
    when it passes a position on, that position lies strictly inside the
    current segment (a ratio between 0 and 1 of the way from its start to
    its end), the segment has a positive length, so the division is by a
    positive number, and the progress has grown by the speed; when it
    passes nothing on, it has either stopped or moved to the next segment
    with the progress back at 0, and the position variable is as it was. *)
Theorem simulator_tick (path : list Coord) (sim : Simulator.Sim) :
  0 <= Simulator.progress sim ->
  let start := nth (Simulator.currentIndex sim) path (0, 0) in
  let finish := nth (Simulator.currentIndex sim + 1) path (0, 0) in
  match Simulator.tick path sim with
  | (sim', Some position) =>
      (Simulator.currentIndex sim + 1 < List.length path)%nat /\
      0 < calculateDistance start finish /\
      (exists ratio,
         0 < ratio < 1 /\
         position = (fst start + (fst finish - fst start) * ratio,
                     snd start + (snd finish - snd start) * ratio)) /\
      Simulator.currentPos sim' = position /\
      Simulator.currentIndex sim' = Simulator.currentIndex sim /\
      Simulator.progress sim' = Simulator.progress sim + Simulator.speed /\
      Simulator.running sim' = true
  | (sim', None) =>
      Simulator.currentPos sim' = Simulator.currentPos sim /\
      0 <= Simulator.progress sim' /\
      (Simulator.running sim' = false \/
       (Simulator.currentIndex sim' = S (Simulator.currentIndex sim) /\
        Simulator.progress sim' = 0))
  end.
Proof.
  intros Hp. cbv zeta. unfold Simulator.tick.
  destruct (Nat.leb_spec (List.length path - 1) (Simulator.currentIndex sim))
    as [Hend | Hin].
  - cbn. split; [reflexivity |]. split; [exact Hp | now left].
  - cbv zeta. unfold Js.leb.
    pose proof speed_pos as Hs.
    destruct (Rle_dec _ (Simulator.progress sim + Simulator.speed)) as [Hle | Hgt].
    + cbn [Simulator.currentPos Simulator.progress Simulator.currentIndex].
      split; [reflexivity |]. split; [lra |]. right. split; reflexivity.
    + apply Rnot_le_lt in Hgt.
      split; [lia |]. split; [lra |].
      split.
      * eexists. split; [| reflexivity].
        split.
        -- apply Rdiv_lt_0_compat; lra.
        -- apply Rmult_lt_reg_r with
             (calculateDistance (nth (Simulator.currentIndex sim) path (0, 0))
                (nth (Simulator.currentIndex sim + 1) path (0, 0))); [lra |].
           unfold Rdiv. rewrite Rmult_assoc, Rinv_l by lra. lra.
      * repeat split.
Qed.

Lemma simulator_tick_witness :
  match Simulator.tick [pointA; pointB] (Simulator.startSimulation [pointA; pointB] None) with
  | (sim', Some position) => Simulator.currentPos sim' = position
  | (sim', None) => Simulator.currentPos sim' = pointA
  end.
Proof.
  pose proof (simulator_tick [pointA; pointB]
                (Simulator.startSimulation [pointA; pointB] None)
                (Rle_refl 0)) as H.
  cbv zeta in H.
  destruct (Simulator.tick [pointA; pointB]
              (Simulator.startSimulation [pointA; pointB] None)) as [sim' [position |]].
  - exact (proj1 (proj2 (proj2 (proj2 H)))).
  - exact (proj1 H).
Defined.

(** X24. The simulation always comes to an end: from any state with a
    non-negative progress the interval is cleared after finitely many
    ticks, whatever the path. *)
Theorem simulation_terminates (path : list Coord) (sim : Simulator.Sim) :
  0 <= Simulator.progress sim ->
  exists n, Simulator.running (Simulator.ticks n path sim) = false.
Proof.
  intros Hp.
  apply (simulation_stops_within path
           (List.length path - 1 - Simulator.currentIndex sim) sim);
    [apply Nat.le_refl | exact Hp].
Qed.

Lemma simulation_terminates_witness :
  exists n,
    Simulator.running
      (Simulator.ticks n [pointA; pointB]
         (Simulator.startSimulation [pointA; pointB] None)) = false.
Proof.
  apply (simulation_terminates [pointA; pointB]
           (Simulator.startSimulation [pointA; pointB] None)).
  apply Rle_refl.
Defined.

(** ** Printing a number and reading it back *)

Section RoundTrip.

Lemma replace_first_unfold (pat s : string) :
  replace_first pat s =
  if String.prefix pat s then string_drop (String.length pat) s
  else
    match s with
    | EmptyString => EmptyString
    | String c s' => String c (replace_first pat s')
    end.
Proof. destruct s; reflexivity. Qed.

Lemma prefix_same (s : string) : String.prefix s s = true.
Proof.
  induction s as [| c s IH]; [reflexivity |].
  cbn. destruct (ascii_dec c c); [exact IH | contradiction].
Qed.

Lemma string_drop_all (s : string) : string_drop (String.length s) s = EmptyString.
Proof. induction s as [| c s IH]; [reflexivity | exact IH]. Qed.

(** A suffix that starts with a space is removed from a string that has
    no space. *)
Lemma replace_first_suffix (s pat : string) :
  string_forallb not_space s = true ->
  replace_first (String " " pat) (s ++ String " " pat) = s.
Proof.
  intros Hs. induction s as [| c s IH].
  - rewrite replace_first_unfold. cbn [append].
    rewrite prefix_same. apply string_drop_all.
  - cbn [string_forallb] in Hs. apply andb_prop in Hs. destruct Hs as [Hc Hs].
    rewrite replace_first_unfold. cbn [append String.prefix].
    destruct (ascii_dec " " c) as [E | _].
    + subst c. discriminate Hc.
    + rewrite (IH Hs). reflexivity.
Qed.

Lemma string_forallb_app (p : ascii -> bool) (s t : string) :
  string_forallb p (s ++ t) = string_forallb p s && string_forallb p t.
Proof.
  induction s as [| c s IH]; [reflexivity |].
  cbn [append string_forallb]. rewrite IH. apply andb_assoc.
Qed.

Lemma uint_digits (u : Decimal.uint) :
  string_forallb is_digit (NilEmpty.string_of_uint u) = true.
Proof. induction u; cbn [NilEmpty.string_of_uint string_forallb]; try exact IHu; reflexivity. Qed.

Lemma string_of_Z_pos (p : positive) :
  Js.string_of_Z (Z.pos p) = NilEmpty.string_of_uint (Pos.to_uint p).
Proof.
  unfold Js.string_of_Z. cbn [Z.to_int NilZero.string_of_int].
  unfold NilZero.string_of_uint.
  pose proof (DecimalPos.Unsigned.to_uint_nonnil p) as H.
  destruct (Pos.to_uint p); [contradiction | reflexivity ..].
Qed.

Lemma string_of_Z_digits (n : Z) :
  (0 <= n)%Z -> string_forallb is_digit (Js.string_of_Z n) = true.
Proof.
  intros H. destruct n as [| p | p]; [reflexivity | | lia].
  rewrite string_of_Z_pos. apply uint_digits.
Qed.

Lemma string_of_Z_head (n : Z) :
  (0 <= n)%Z ->
  exists c s, Js.string_of_Z n = String c s /\ is_digit c = true.
Proof.
  intros H. pose proof (string_of_Z_digits n H) as Hd.
  destruct n as [| p | p]; [| | lia].
  - exists "0"%char, EmptyString. split; reflexivity.
  - rewrite string_of_Z_pos in *.
    pose proof (DecimalPos.Unsigned.to_uint_nonnil p) as Hn.
    destruct (Pos.to_uint p); [contradiction | ..];
      cbn [NilEmpty.string_of_uint]; eexists; eexists; (split; [reflexivity | reflexivity]).
Qed.

Lemma digit_not_space (c : ascii) : is_digit c = true -> not_space c = true.
Proof.
  destruct c as [[] [] [] [] [] [] [] []]; intros H; try discriminate H; reflexivity.
Qed.

Lemma digit_not_is_space (c : ascii) : is_digit c = true -> is_space c = false.
Proof.
  destruct c as [[] [] [] [] [] [] [] []]; intros H; try discriminate H; reflexivity.
Qed.

Lemma digit_no_sign (c : ascii) (s : string) :
  is_digit c = true -> read_sign (String c s) = (false, String c s).
Proof.
  destruct c as [[] [] [] [] [] [] [] []]; intros H; try discriminate H; reflexivity.
Qed.

Lemma string_forallb_impl (p q : ascii -> bool) (s : string) :
  (forall c, p c = true -> q c = true) ->
  string_forallb p s = true -> string_forallb q s = true.
Proof.
  intros Hpq. induction s as [| c s IH]; [reflexivity |].
  cbn [string_forallb]. intros H. apply andb_prop in H. destruct H as [Hc Hs].
  rewrite (Hpq c Hc), (IH Hs). reflexivity.
Qed.

(** One digit is read: the test succeeds and its value is known. *)
Ltac read_digit :=
  cbn [read_digits];
  match goal with
  | |- context [is_digit ?c] => change (is_digit c) with true
  end;
  cbv iota;
  match goal with
  | |- context [digit_value ?c] =>
      let v := eval vm_compute in (digit_value c) in
      change (digit_value c) with v
  end.

(** Reading the digits of a positive accumulator. *)
Lemma read_digits_acc (u : Decimal.uint) (rest : string) :
  (forall c s, rest = String c s -> is_digit c = false) ->
  forall (acc : Z) (p : positive) (cnt : nat),
    acc = Z.pos p ->
    read_digits acc cnt (NilEmpty.string_of_uint u ++ rest) =
    (Z.pos (Pos.of_uint_acc u p),
     (cnt + String.length (NilEmpty.string_of_uint u))%nat, rest).
Proof.
  intros Hrest. induction u; intros acc p cnt ->;
    cbn [NilEmpty.string_of_uint append String.length Pos.of_uint_acc];
    try (read_digit;
         erewrite IHu; [rewrite Nat.add_succ_r; reflexivity | lia]).
  rewrite Nat.add_0_r. destruct rest as [| c s]; [reflexivity |].
  cbn [read_digits]. rewrite (Hrest c s eq_refl). reflexivity.
Qed.

(** Reading digits from 0: leading zeros keep the accumulator at 0. *)
Lemma read_digits_zero (u : Decimal.uint) (rest : string) :
  (forall c s, rest = String c s -> is_digit c = false) ->
  forall cnt : nat,
    read_digits 0 cnt (NilEmpty.string_of_uint u ++ rest) =
    (Z.of_N (Pos.of_uint u),
     (cnt + String.length (NilEmpty.string_of_uint u))%nat, rest).
Proof.
  intros Hrest. induction u; intros cnt;
    cbn [NilEmpty.string_of_uint append String.length Pos.of_uint];
    try (read_digit; cbn [Z.mul Z.add];
         first [ rewrite IHu
               | erewrite (read_digits_acc u rest Hrest); [| reflexivity] ];
         rewrite Nat.add_succ_r; reflexivity).
  rewrite Nat.add_0_r. destruct rest as [| c s]; [reflexivity |].
  cbn [read_digits]. rewrite (Hrest c s eq_refl). reflexivity.
Qed.

(** The digits [String(n)] prints are read back as [n]. *)
Lemma read_digits_string_of_Z (n : Z) (rest : string) :
  (0 <= n)%Z ->
  (forall c s, rest = String c s -> is_digit c = false) ->
  exists k : nat,
    read_digits 0 0 (Js.string_of_Z n ++ rest) = (n, S k, rest).
Proof.
  intros Hn Hrest. destruct n as [| p | p]; [| | lia].
  - exists 0%nat. change (Js.string_of_Z 0) with "0"%string.
    cbn [append read_digits]. change (is_digit "0") with true. cbv iota.
    destruct rest as [| c s]; [reflexivity |].
    cbn [read_digits]. rewrite (Hrest c s eq_refl). reflexivity.
  - rewrite string_of_Z_pos.
    rewrite (read_digits_zero _ rest Hrest).
    rewrite DecimalPos.Unsigned.of_to.
    pose proof (DecimalPos.Unsigned.to_uint_nonnil p) as Hnil.
    destruct (Pos.to_uint p) eqn:E; [contradiction | ..];
      cbn [NilEmpty.string_of_uint String.length Nat.add];
      eexists; reflexivity.
Qed.

Lemma read_one_digit (acc f : Z) :
  (0 <= f <= 9)%Z ->
  read_digits acc 0 (Js.string_of_Z f) = ((acc * 10 + f)%Z, 1%nat, EmptyString).
Proof.
  intros H.
  assert (E : (f = 0 \/ f = 1 \/ f = 2 \/ f = 3 \/ f = 4 \/ f = 5 \/ f = 6 \/
               f = 7 \/ f = 8 \/ f = 9)%Z) by lia.
  repeat (destruct E as [E | E]; [subst f; reflexivity |]).
  subst f. reflexivity.
Qed.

(** The decimal literal [i.f] with one decimal. *)
Lemma parseDecimal_unsigned (i f : Z) :
  (0 <= i)%Z -> (0 <= f <= 9)%Z ->
  parseDecimal (Js.string_of_Z i ++ "." ++ Js.string_of_Z f) =
  Some (false, (i * 10 + f)%Z, 1%nat).
Proof.
  intros Hi Hf. unfold parseDecimal.
  destruct (string_of_Z_head i Hi) as (c & s & Hs & Hc).
  assert (Hskip : skip_spaces (Js.string_of_Z i ++ "." ++ Js.string_of_Z f) =
                  (Js.string_of_Z i ++ "." ++ Js.string_of_Z f)%string).
  { rewrite Hs. cbn [append skip_spaces]. rewrite (digit_not_is_space c Hc).
    reflexivity. }
  rewrite Hskip.
  assert (Hsign : read_sign (Js.string_of_Z i ++ "." ++ Js.string_of_Z f) =
                  (false, (Js.string_of_Z i ++ "." ++ Js.string_of_Z f)%string)).
  { rewrite Hs. cbn [append]. apply digit_no_sign. exact Hc. }
  rewrite Hsign.
  destruct (read_digits_string_of_Z i ("." ++ Js.string_of_Z f) Hi) as [k Hk].
  { intros c' s' E. cbn [append] in E. injection E as <- _. reflexivity. }
  rewrite Hk. cbn [append].
  rewrite (read_one_digit i f Hf).
  rewrite Nat.add_comm. reflexivity.
Qed.

Lemma parseDecimal_negative (i f : Z) :
  (0 <= i)%Z -> (0 <= f <= 9)%Z ->
  parseDecimal ("-" ++ Js.string_of_Z i ++ "." ++ Js.string_of_Z f) =
  Some (true, (i * 10 + f)%Z, 1%nat).
Proof.
  intros Hi Hf. unfold parseDecimal.
  cbn [append skip_spaces].
  change (is_space "-") with false. cbv iota.
  change (read_sign (String "-" (Js.string_of_Z i ++ String "." (Js.string_of_Z f))))
    with (true, (Js.string_of_Z i ++ String "." (Js.string_of_Z f))%string).
  destruct (read_digits_string_of_Z i ("." ++ Js.string_of_Z f) Hi) as [k Hk].
  { intros c' s' E. cbn [append] in E. injection E as <- _. reflexivity. }
  cbn [append] in Hk. rewrite Hk.
  rewrite (read_one_digit i f Hf).
  rewrite Nat.add_comm. reflexivity.
Qed.

Lemma tenths_nonneg (x : R) : (0 <= Zfloor (Rabs x * 10 + / 2))%Z.
Proof.
  pose proof (Rabs_pos x) as Ha.
  apply Zfloor_lub. simpl. lra.
Qed.

Lemma fixed_no_space (x : R) :
  string_forallb not_space (Js.toFixed1 x) = true.
Proof.
  unfold Js.toFixed1. cbv zeta.
  pose proof (tenths_nonneg x) as Hn.
  set (n := Zfloor (Rabs x * 10 + / 2)) in *.
  assert (Hi : (0 <= n / 10)%Z) by (apply Z.div_pos; lia).
  assert (Hf : (0 <= n mod 10)%Z) by (apply Z.mod_pos_bound; lia).
  rewrite !string_forallb_app.
  rewrite (string_forallb_impl _ _ _ digit_not_space (string_of_Z_digits _ Hi)).
  rewrite (string_forallb_impl _ _ _ digit_not_space (string_of_Z_digits _ Hf)).
  destruct (Rlt_dec x 0); reflexivity.
Qed.

Lemma parseFloat_fixed (x : R) :
  parseFloat (Js.toFixed1 x) = XFin (roundedTenth x).
Proof.
  unfold Js.toFixed1, roundedTenth, parseFloat. cbv zeta.
  pose proof (tenths_nonneg x) as Hn.
  set (n := Zfloor (Rabs x * 10 + / 2)) in *.
  assert (Hi : (0 <= n / 10)%Z) by (apply Z.div_pos; lia).
  assert (Hf : (0 <= n mod 10 <= 9)%Z) by (pose proof (Z.mod_pos_bound n 10); lia).
  assert (Hval : (n / 10 * 10 + n mod 10)%Z = n)
    by (pose proof (Z.div_mod n 10); lia).
  destruct (Rlt_dec x 0).
  - rewrite (parseDecimal_negative _ _ Hi Hf). rewrite Hval.
    unfold decimal_value. f_equal. simpl. lra.
  - change (("" ++ Js.string_of_Z (n / 10) ++ "." ++ Js.string_of_Z (n mod 10))%string)
      with ((Js.string_of_Z (n / 10) ++ "." ++ Js.string_of_Z (n mod 10))%string).
    rewrite (parseDecimal_unsigned _ _ Hi Hf). rewrite Hval.
    unfold decimal_value. f_equal. simpl. lra.
Qed.

Lemma roundedTenth_close (x : R) : Rabs (roundedTenth x - x) <= 0.05.
Proof.
  unfold roundedTenth. cbv zeta.
  pose proof (Zfloor_bound (Rabs x * 10 + / 2)) as [H1 H2].
  destruct (Rlt_dec x 0) as [Hx | Hx].
  - rewrite (Rabs_left x Hx) in *. apply Rabs_le. lra.
  - rewrite (Rabs_right x) in * by lra. apply Rabs_le. lra.
Qed.

Lemma roundedTenth_positive (x : R) :
  0 <= x -> (0 < roundedTenth x <-> 0.05 <= x).
Proof.
  intros Hx. unfold roundedTenth. cbv zeta.
  destruct (Rlt_dec x 0) as [Hneg | _]; [lra |].
  rewrite (Rabs_right x) by lra.
  pose proof (Zfloor_bound (x * 10 + / 2)) as [H1 H2].
  split.
  - intros H.
    assert (Hz : (0 < Zfloor (x * 10 + / 2))%Z).
    { apply lt_IZR. lra. }
    assert (1 <= IZR (Zfloor (x * 10 + / 2))) by (apply IZR_le; lia).
    lra.
  - intros H.
    assert (Hz : (1 <= Zfloor (x * 10 + / 2))%Z) by (apply Zfloor_lub; simpl; lra).
    apply IZR_le in Hz. lra.
Qed.

Lemma roundedTenth_zero (x : R) :
  0 <= x < 0.05 -> roundedTenth x = 0.
Proof.
  intros Hx. unfold roundedTenth. cbv zeta.
  destruct (Rlt_dec x 0) as [Hneg | _]; [lra |].
  rewrite (Rabs_right x) by lra.
  rewrite (Zfloor_eq 0 (x * 10 + / 2)) by (simpl; lra).
  lra.
Qed.

Lemma append_empty_r (s : string) : (s ++ "")%string = s.
Proof. induction s as [| c s IH]; [reflexivity |]. cbn [append]. now rewrite IH. Qed.

Lemma string_of_Z_neg (p : positive) :
  Js.string_of_Z (Z.neg p) = String "-" (NilEmpty.string_of_uint (Pos.to_uint p)).
Proof.
  unfold Js.string_of_Z. cbn [Z.to_int NilZero.string_of_int].
  unfold NilZero.string_of_uint.
  pose proof (DecimalPos.Unsigned.to_uint_nonnil p) as H.
  destruct (Pos.to_uint p); [contradiction | reflexivity ..].
Qed.

Lemma string_of_Z_no_space (n : Z) :
  string_forallb not_space (Js.string_of_Z n) = true.
Proof.
  destruct n as [| p | p].
  - reflexivity.
  - apply (string_forallb_impl _ _ _ digit_not_space).
    apply string_of_Z_digits. lia.
  - rewrite string_of_Z_neg. cbn [string_forallb].
    apply (string_forallb_impl _ _ _ digit_not_space). apply uint_digits.
Qed.

Lemma parseInt_string_of_Z (n : Z) : parseInt (Js.string_of_Z n) = XFin (IZR n).
Proof.
  unfold parseInt, parseInteger.
  destruct (Z_lt_le_dec n 0) as [Hneg | Hpos].
  - destruct n as [| p | p]; [lia | lia |].
    rewrite string_of_Z_neg. cbn [skip_spaces].
    change (is_space "-") with false. cbv iota.
    change (read_sign (String "-" (NilEmpty.string_of_uint (Pos.to_uint p))))
      with (true, NilEmpty.string_of_uint (Pos.to_uint p)).
    rewrite <- (append_empty_r (NilEmpty.string_of_uint (Pos.to_uint p))).
    rewrite (read_digits_zero _ EmptyString) by discriminate.
    rewrite DecimalPos.Unsigned.of_to.
    pose proof (DecimalPos.Unsigned.to_uint_nonnil p) as Hnil.
    destruct (Pos.to_uint p); [contradiction | ..];
      cbn [NilEmpty.string_of_uint String.length Nat.add Nat.eqb];
      unfold decimal_value; f_equal;
      change (IZR (Z.neg p)) with (IZR (- Z.pos p));
      rewrite opp_IZR; simpl; lra.
  - destruct (string_of_Z_head n Hpos) as (c & s & Hs & Hc).
    assert (Hskip : skip_spaces (Js.string_of_Z n) = Js.string_of_Z n).
    { rewrite Hs. cbn [skip_spaces]. rewrite (digit_not_is_space c Hc). reflexivity. }
    rewrite Hskip.
    assert (Hsign : read_sign (Js.string_of_Z n) = (false, Js.string_of_Z n)).
    { rewrite Hs. apply digit_no_sign. exact Hc. }
    rewrite Hsign.
    destruct (read_digits_string_of_Z n EmptyString Hpos) as [k Hk]; [discriminate |].
    rewrite append_empty_r in Hk. rewrite Hk. cbn [Nat.eqb].
    unfold decimal_value. f_equal. simpl. lra.
Qed.

(** The two strings of a route, read back by the tracker. *)
Lemma parse_miles (x : R) :
  parseFloat (replace_first " miles" (Js.toFixed1 x ++ " miles")) =
  XFin (roundedTenth x).
Proof.
  rewrite (replace_first_suffix _ "miles" (fixed_no_space x)).
  apply parseFloat_fixed.
Qed.

Lemma parse_mins (n : Z) :
  parseInt (replace_first " mins" (Js.string_of_Z n ++ " mins")) = XFin (IZR n).
Proof.
  rewrite (replace_first_suffix _ "mins" (string_of_Z_no_space n)).
  apply parseInt_string_of_Z.
Qed.

Lemma fixed_zero (x : R) : 0 <= x < 0.05 -> Js.toFixed1 x = "0.0"%string.
Proof.
  intros Hx. unfold Js.toFixed1. cbv zeta.
  rewrite (Rabs_right x) by lra.
  rewrite (Zfloor_eq 0 (x * 10 + / 2)) by (simpl; lra).
  destruct (Rlt_dec x 0); [lra | reflexivity].
Qed.

Lemma fixed_zero_iff (x : R) :
  0 <= x ->
  ((Js.toFixed1 x ++ " miles")%string = "0.0 miles"%string <-> x < 0.05).
Proof.
  intros Hx. split.
  - intros E.
    pose proof (parse_miles x) as Hp. rewrite E in Hp.
    assert (E0 : "0.0 miles"%string = (Js.toFixed1 0 ++ " miles")%string).
    { rewrite (fixed_zero 0) by lra. reflexivity. }
    rewrite E0, parse_miles, (roundedTenth_zero 0) in Hp by lra.
    injection Hp as Hp.
    destruct (Rlt_dec x 0.05) as [Hlt | Hge]; [exact Hlt |].
    assert (Hpos : 0 < roundedTenth x) by (apply roundedTenth_positive; lra).
    lra.
  - intros Hlt. rewrite (fixed_zero x) by lra. reflexivity.
Qed.

End RoundTrip.

(** X25. A distance printed with [toFixed(1)] and the suffix " miles" is
    read back by [replace] and [parseFloat] as the distance rounded to one
    decimal, at most 0.05 away from it; a whole number of minutes printed
    with the suffix " mins" is read back by [parseInt] as that number. *)
Theorem print_parse_round_trip :
  (forall x : R,
     parseFloat (replace_first " miles" (Js.toFixed1 x ++ " miles")) =
     XFin (roundedTenth x)) /\
  (forall x : R, Rabs (roundedTenth x - x) <= 0.05) /\
  (forall n : Z,
     parseInt (replace_first " mins" (Js.string_of_Z n ++ " mins")) = XFin (IZR n)).
Proof.
  split; [exact parse_miles |]. split; [exact roundedTenth_close | exact parse_mins].
Qed.

Section Readout.

Variables (c : Session) (now : Z).

Lemma state_checkDistanceAnnouncement (d : R) (w : World) :
  state (checkDistanceAnnouncement c d now w) = state w.
Proof. unfold checkDistanceAnnouncement. repeat break_match; reflexivity. Qed.

Lemma state_checkUpcomingTurn (p : Coord) (w : World) :
  state (checkUpcomingTurn c p now w) = state w.
Proof. unfold checkUpcomingTurn, when. repeat break_match; reflexivity. Qed.

Lemma state_checkIfOffRoute (p : Coord) (w : World) :
  state (checkIfOffRoute c p now w) = state w.
Proof. unfold checkIfOffRoute, when. repeat break_match; reflexivity. Qed.

Lemma state_arrival (b : bool) (w : World) :
  state
    (when b
       (fun w =>
          w |> when (voiceEnabled c &&
                     negb (String.eqb (lastVoiceAlert w) "arrived"))
                 (fun w =>
                    w |> speak now SayArrived
                           "You have arrived at your destination."
                      |> setLastVoiceAlert "arrived")
            |> toast now "Arrived!" "You have reached your destination."
            |> addNotification now "success" "Arrived!"
                 "You have reached your destination."
            |> setTimeout now 5000 c TStop) w) = state w.
Proof. unfold when. repeat break_match; reflexivity. Qed.

Lemma readout_updateNavigationStep (p : Coord) (w : World) :
  remainingDistance (state (updateNavigationStep c p now w)) =
    remainingDistance (state w) /\
  remainingTime (state (updateNavigationStep c p now w)) =
    remainingTime (state w).
Proof.
  unfold updateNavigationStep, when. repeat break_match; split; reflexivity.
Qed.

(** The remaining distance and time a position update leaves. *)
Lemma readout_updateNavigationProgress
    (p : Coord) (w : World) (route : Route) (dest : Location) :
  activeRoute c = Some route -> destination c = Some dest ->
  let d := calculateDistance p (l_coordinates dest) in
  let s := state (updateNavigationProgress c p now w) in
  remainingDistance s = (Js.toFixed1 d ++ " miles")%string /\
  remainingTime s =
    (xstring
       (xmax (XFin 1)
          (xround
             (xmul (parseInt (replace_first " mins" (r_duration route)))
                (xdiv (XFin d)
                   (parseFloat (replace_first " miles" (r_distance route)))))))
     ++ " mins")%string.
Proof.
  intros Hr Hd. cbv zeta. unfold updateNavigationProgress. rewrite Hr, Hd.
  cbv zeta. unfold dispatchEvent. rewrite state_emit.
  rewrite state_checkIfOffRoute, state_arrival, state_checkUpcomingTurn,
    state_checkDistanceAnnouncement.
  destruct (readout_updateNavigationStep p
              (upd (setProgress
                 (xmin (XFin 100)
                    (xmax (XFin 0)
                       (xsub (XFin 100)
                          (xmul
                             (xdiv (XFin (calculateDistance p (l_coordinates dest)))
                                (parseFloat (replace_first " miles" (r_distance route))))
                             (XFin 100))))))
                 (upd (setRemainingTime
                    (xstring
                       (xmax (XFin 1)
                          (xround
                             (xmul (parseInt (replace_first " mins" (r_duration route)))
                                (xdiv (XFin (calculateDistance p (l_coordinates dest)))
                                   (parseFloat
                                      (replace_first " miles" (r_distance route)))))))
                     ++ " mins")%string)
                    (upd (setRemainingDistance
                            (Js.toFixed1 (calculateDistance p (l_coordinates dest))
                             ++ " miles")%string) w)))) as [H1 H2].
  rewrite H1, H2. split; reflexivity.
Qed.

End Readout.

Section Totals.

Lemma activeRoute_recalculateResume
    (c : Session) (o d : Location) (random now : Z) (w : World) :
  activeRoute (state (fst (recalculateResume c o d random now w))) =
  Some (simulateNewRoute o d random).
Proof.
  unfold recalculateResume. cbv zeta. cbn [fst].
  unfold dispatchEvent, addNotification, toast. rewrite !state_emit.
  assert (Hwhen : forall (b : bool) (key text : string) (site : SpeakSite) (x : World),
            state (when b (fun w => w |> speak now site text
                                      |> setLastVoiceAlert key) x) = state x).
  { intros b key text site x. destruct b; reflexivity. }
  rewrite Hwhen. rewrite !state_upd.
  destruct (generateNavigationSteps (r_path (simulateNewRoute o d random)));
    rewrite ?state_upd; reflexivity.
Qed.

Lemma wellFormedTotal_route (s : Session) (route : Route) (total : R) :
  activeRoute s = Some route ->
  parseFloat (replace_first " miles" (r_distance route)) = XFin total ->
  (wellFormedTotal s <-> 0 < total).
Proof.
  intros Hr Hp. unfold wellFormedTotal. split.
  - intros H. destruct (H route Hr) as [t [Ht Hpos]].
    rewrite Hp in Ht. injection Ht as <-. exact Hpos.
  - intros Hpos r Hr'. rewrite Hr in Hr'. injection Hr' as <-.
    exists total. split; assumption.
Qed.

Lemma clamp_full (q : R) : 0 <= q -> (Rmin 100 (Rmax 0 (100 - q * 100)) = 100 <-> q = 0).
Proof.
  intros Hq. unfold Rmin, Rmax.
  destruct (Rle_dec 0 (100 - q * 100)); destruct (Rle_dec 100 _); split; intros; lra.
Qed.

Lemma clamp_empty (q : R) : 0 <= q -> (Rmin 100 (Rmax 0 (100 - q * 100)) = 0 <-> 1 <= q).
Proof.
  intros Hq. unfold Rmin, Rmax.
  destruct (Rle_dec 0 (100 - q * 100)); destruct (Rle_dec 100 _); split; intros; lra.
Qed.

Lemma quotient_facts (d total : R) :
  0 <= d -> 0 < total ->
  0 <= d / total /\ (d / total = 0 <-> d = 0) /\ (1 <= d / total <-> total <= d).
Proof.
  intros Hd Ht.
  pose proof (Rinv_0_lt_compat total Ht) as Hi.
  assert (E : d = d / total * total) by (field; lra).
  set (q := d / total) in *. clearbody q.
  repeat split; intros; nra.
Qed.

End Totals.

(** X26. The route a recalculation installs is read back by the tracker:
    its total is the distance from the new origin to the destination
    rounded to one decimal, and its time is twice that distance rounded to
    a whole number.  The total is positive, as the progress computation
    needs, exactly when the recalculation started 0.05 miles or more from
    the destination. *)
Theorem recalculated_route_totals
    (c : Session) (o d : Location) (random now : Z) (w : World) :
  let dist := calculateDistance (l_coordinates o) (l_coordinates d) in
  let s := state (fst (recalculateResume c o d random now w)) in
  exists route,
    activeRoute s = Some route /\
    parseFloat (replace_first " miles" (r_distance route)) =
      XFin (roundedTenth dist) /\
    parseInt (replace_first " mins" (r_duration route)) =
      XFin (IZR (Js.round (dist * 2))) /\
    Rabs (roundedTenth dist - dist) <= 0.05 /\
    (wellFormedTotal s <-> 0.05 <= dist).
Proof.
  cbv zeta. exists (simulateNewRoute o d random).
  pose proof (activeRoute_recalculateResume c o d random now w) as Hr.
  assert (Hp : parseFloat (replace_first " miles"
                 (r_distance (simulateNewRoute o d random))) =
               XFin (roundedTenth
                       (calculateDistance (l_coordinates o) (l_coordinates d))))
    by apply parse_miles.
  split; [exact Hr |]. split; [exact Hp |].
  split; [apply parse_mins |]. split; [apply roundedTenth_close |].
  rewrite (wellFormedTotal_route _ _ _ Hr Hp).
  apply roundedTenth_positive. apply calculateDistance_range.
Qed.

(** X27. After a position update of a navigating session the remaining
    distance is the distance to the destination with one decimal.  It
    reads "0.0 miles" exactly when the arrival branch runs, that is below
    0.05 miles.  With a positive total the progress is 100 only at
    distance 0, so an arrival is announced at a progress that can be
    below 100, and the progress is 0 exactly when the distance is the
    total or more. *)
Theorem remaining_distance_readout
    (c : Session) (p : Coord) (now : Z) (w : World) (route : Route) (dest : Location) :
  navigatingOn route dest c ->
  let d := calculateDistance p (l_coordinates dest) in
  let s := state (updateUserPosition c p now w) in
  remainingDistance s = (Js.toFixed1 d ++ " miles")%string /\
  (remainingDistance s = "0.0 miles"%string <-> Js.ltb d 0.05 = true) /\
  (forall total,
     parseFloat (replace_first " miles" (r_distance route)) = XFin total ->
     0 < total ->
     (progress s = XFin 100 <-> d = 0) /\
     (progress s = XFin 0 <-> total <= d)).
Proof.
  intros (Hn & Hr & Hd). cbv zeta.
  pose proof (calculateDistance_range p (l_coordinates dest)) as [Hd0 _].
  assert (Hstate : state (updateUserPosition c p now w) =
                   state (updateNavigationProgress c p now
                            (upd (setCurrentPosition (Some p)) w))).
  { unfold updateUserPosition, when, dispatchEvent. rewrite Hn, Hr.
    cbn [isSome andb]. apply state_emit. }
  rewrite Hstate.
  destruct (readout_updateNavigationProgress c now p
              (upd (setCurrentPosition (Some p)) w) route dest Hr Hd) as [HD _].
  split; [exact HD |]. split.
  - rewrite HD. rewrite (fixed_zero_iff _ Hd0). unfold Js.ltb.
    destruct (Rlt_dec (calculateDistance p (l_coordinates dest)) 0.05);
      split; intros; try assumption; try reflexivity; try discriminate; lra.
  - intros total Hp Hpos.
    rewrite (progress_updateNavigationProgress c p now _ route dest Hr Hd).
    rewrite (newProgress_clamped route dest p total Hp) by lra.
    destruct (quotient_facts _ total Hd0 Hpos) as (Hq & Hz & Ho).
    split.
    + rewrite <- Hz, <- (clamp_full _ Hq).
      split; [intros E; injection E as E; exact E | intros E; rewrite E; reflexivity].
    + rewrite <- Ho, <- (clamp_empty _ Hq).
      split; [intros E; injection E as E; exact E | intros E; rewrite E; reflexivity].
Qed.

(** The theorem above on the sample route, at the far point. *)
Lemma remaining_distance_readout_witness :
  remainingDistance (state (updateUserPosition sampleSession pointP 1000
                              (initialWorld true))) =
  (Js.toFixed1 (calculateDistance pointP (l_coordinates sampleDestination))
   ++ " miles")%string.
Proof.
  apply (proj1 (remaining_distance_readout sampleSession pointP 1000
                  (initialWorld true) sampleRoute sampleDestination
                  (conj eq_refl (conj eq_refl eq_refl)))).
Defined.

(** X28. A recalculation that starts less than 0.05 miles from the
    destination installs a route whose total reads 0 and whose time reads
    0.  A position update that reads this route divides by zero: the
    progress is 0 at every position but the destination itself, where it
    is NaN, and the remaining time reads "NaN mins". *)
Theorem progress_after_near_recalculation
    (c : Session) (p : Coord) (now : Z) (w : World) (o dst : Location) (random : Z) :
  navigatingOn (simulateNewRoute o dst random) dst c ->
  calculateDistance (l_coordinates o) (l_coordinates dst) < 0.05 ->
  let s := state (updateUserPosition c p now w) in
  progress s =
    (if Req_dec_T (calculateDistance p (l_coordinates dst)) 0 then XNaN else XFin 0) /\
  remainingTime s = "NaN mins"%string.
Proof.
  intros (Hn & Hr & Hd) Hnear. cbv zeta.
  pose proof (calculateDistance_range p (l_coordinates dst)) as [Hd0 _].
  pose proof (calculateDistance_range (l_coordinates o) (l_coordinates dst)) as [Ho0 _].
  assert (Hstate : state (updateUserPosition c p now w) =
                   state (updateNavigationProgress c p now
                            (upd (setCurrentPosition (Some p)) w))).
  { unfold updateUserPosition, when, dispatchEvent. rewrite Hn, Hr.
    cbn [isSome andb]. apply state_emit. }
  rewrite Hstate.
  assert (Hp : parseFloat (replace_first " miles"
                 (r_distance (simulateNewRoute o dst random))) = XFin 0).
  { unfold simulateNewRoute. cbv zeta. cbn [r_distance].
    rewrite parse_miles. rewrite roundedTenth_zero by lra. reflexivity. }
  assert (Ht : parseInt (replace_first " mins"
                 (r_duration (simulateNewRoute o dst random))) = XFin 0).
  { unfold simulateNewRoute. cbv zeta. cbn [r_duration].
    rewrite parse_mins. rewrite (round_mid _ 0) by (simpl; lra). reflexivity. }
  destruct (readout_updateNavigationProgress c now p
              (upd (setCurrentPosition (Some p)) w) _ dst Hr Hd) as [_ HT].
  split.
  - rewrite (progress_updateNavigationProgress c p now _ _ dst Hr Hd).
    unfold newProgress. cbv zeta. rewrite Hp. cbn [xdiv].
    destruct (Req_dec_T 0 0) as [_ | Hne]; [| contradiction].
    destruct (Req_dec_T (calculateDistance p (l_coordinates dst)) 0) as [E | E].
    + rewrite E. destruct (Rlt_dec 0 0); [lra |]. reflexivity.
    + destruct (Rlt_dec 0 (calculateDistance p (l_coordinates dst))); [| lra].
      cbn [xmul]. destruct (Req_dec_T 100 0); [lra |].
      destruct (Rlt_dec 100 0); [lra |].
      cbn [xsub xmax xmin negb]. f_equal.
      unfold Rmin. destruct (Rle_dec 100 0); lra.
  - rewrite HT, Hp, Ht. cbn [xdiv].
    destruct (Req_dec_T 0 0) as [_ | Hne]; [| contradiction].
    destruct (Rlt_dec 0 (calculateDistance p (l_coordinates dst))).
    + cbn [xmul]. destruct (Req_dec_T 0 0) as [_ | Hne]; [| contradiction].
      reflexivity.
    + destruct (Rlt_dec (calculateDistance p (l_coordinates dst)) 0); [lra |].
      reflexivity.
Qed.

(** The theorem above for a recalculation at the destination itself. *)
Lemma progress_after_near_recalculation_witness :
  remainingTime
    (state (updateUserPosition
              (setActiveRoute
                 (Some (simulateNewRoute sampleDestination sampleDestination 7))
                 sampleSession)
              pointA 1000 (initialWorld true))) = "NaN mins"%string.
Proof.
  refine (proj2 (progress_after_near_recalculation
                   (setActiveRoute
                      (Some (simulateNewRoute sampleDestination sampleDestination 7))
                      sampleSession)
                   pointA 1000 (initialWorld true)
                   sampleDestination sampleDestination 7
                   (conj eq_refl (conj eq_refl eq_refl)) _)).
  rewrite calculateDistance_self. lra.
Defined.

(** X29. The three routes of the endpoint are read back by the tracker
    as the direct distance, 95% and 90% of it, rounded to one decimal,
    and as 2, 2.2 and 2.5 times the direct distance in whole minutes.
    All three totals are positive exactly when 90% of the direct distance
    is 0.05 miles or more. *)
Theorem generated_routes_totals (o d : Coord) :
  let dist := calculateDistance o d in
  let routes := RoutesApi.generateRoutes o d in
  map (fun route => parseFloat (replace_first " miles" (r_distance route))) routes =
    [XFin (roundedTenth dist); XFin (roundedTenth (dist * 0.95));
     XFin (roundedTenth (dist * 0.9))] /\
  map (fun route => parseInt (replace_first " mins" (r_duration route))) routes =
    [XFin (IZR (Js.round (dist * 2))); XFin (IZR (Js.round (dist * 2.2)));
     XFin (IZR (Js.round (dist * 2.5)))] /\
  (Forall (fun route => wellFormedTotal (setActiveRoute (Some route) initialSession))
          routes <-> 0.05 <= dist * 0.9).
Proof.
  cbv zeta. pose proof (calculateDistance_range o d) as [Hd0 _].
  unfold RoutesApi.generateRoutes. cbv zeta. cbn [map r_distance r_duration].
  rewrite !parse_miles, !parse_mins.
  split; [reflexivity |]. split; [reflexivity |].
  assert (Hwf : forall i name dur x level inc path,
            0 <= x ->
            (wellFormedTotal
               (setActiveRoute
                  (Some (mkRoute i name dur (Js.toFixed1 x ++ " miles") level inc path))
                  initialSession) <->
             0.05 <= x)).
  { intros i name dur x level inc path Hx.
    rewrite (wellFormedTotal_route
               (setActiveRoute
                  (Some (mkRoute i name dur (Js.toFixed1 x ++ " miles") level inc path))
                  initialSession)
               (mkRoute i name dur (Js.toFixed1 x ++ " miles") level inc path)
               (roundedTenth x) eq_refl)
      by apply parse_miles.
    apply roundedTenth_positive. exact Hx. }
  split.
  - intros H. inversion H as [| r1 l1 _ H1]. subst.
    inversion H1 as [| r2 l2 _ H2]. subst.
    inversion H2 as [| r3 l3 H3 _]. subst.
    apply Hwf in H3; lra.
  - intros H. repeat constructor; apply Hwf; lra.
Qed.
